(** * AutoMapper (TypeScript / JavaScript AutoMapper library v1.1.9)

    A shallow embedding of [dist/automapper.js]: the mapping registry, the
    fluent configuration builder, profile merging, the naming conventions,
    the mapping executor and the curry adapter, followed by the properties
    of the specification that were checked against it.

    Modelling conventions.
    - JavaScript objects used as dictionaries are modelled by their own
      properties only (the prototype chain is not modelled).  The registry
      [mappings] and the profile store are only read and written by key and
      are finite maps; [forMemberMappings] and plain data objects are
      enumerated by the code ([for ... in]) and are association lists in
      enumeration (insertion) order.  The model stands for the code on
      plain property names ([PropertyNames]): names that are not those of
      members of [Object.prototype] and are not integer-like.  Properties
      that depend on how a dictionary is read or enumerated carry that
      hypothesis.
    - Mapping objects and member-mapping objects are mutable and shared by
      reference (a chain handle is bound to its mapping object, and
      [withProfile] installs the profile's member-mapping objects in the live
      definition), so they live in stores addressed by locations.
    - User callbacks are records holding a name and a function that gives,
      for the options object they receive, the calls they make on it and
      the way they complete (a returned value or a raised exception). *)

From Stdlib Require Import ZArith Ascii String List Lia Bool DecimalString.
From stdpp Require Import gmap strings list fin_maps.

Local Open Scope string_scope.
Local Open Scope list_scope.

(** ** JavaScript values *)

Module Js.

#[warnings="-register-all"]
Inductive Value : Type :=
| VUndefined
| VNull
| VBool (b : bool)
| VNum (n : Z)
| VStr (s : string)
| VObj (cls : option string) (fields : list (string * Value))
| VArr (items : list Value).

(** ToBoolean: what [if (v)] and [!v] test. *)
Definition truthy (v : Value) : bool :=
  match v with
  | VUndefined | VNull => false
  | VBool b => b
  | VNum n => negb (n =? 0)%Z
  | VStr s => negb (String.eqb s "")
  | VObj _ _ | VArr _ => true
  end.

(** [v instanceof Array] *)
Definition isArray (v : Value) : bool :=
  match v with VArr _ => true | _ => false end.

(** The errors the library raises, as the specification names them, and
    the errors of the host language and of user callbacks. *)
Inductive Error : Type :=
| MappingNotFound (sourceKey destinationKey : string)
| ProfileNotFound (profileName : string)
| InvalidConfiguration
| TypeError
| UserError (v : Value)
| StackExhausted.

Inductive Outcome (A : Type) : Type :=
| Ok (a : A)
| Throw (e : Error).
Arguments Ok {A} a.
Arguments Throw {A} e.

(** *** Dictionaries in enumeration order *)

Section Dict.
Context {V : Type}.

(** [d[k]] *)
Fixpoint dict_get (k : string) (d : list (string * V)) : option V :=
  match d with
  | [] => None
  | (k', v) :: d' => if String.eqb k k' then Some v else dict_get k d'
  end.

(** [d[k] = v]: an existing key keeps its place, a new key goes last. *)
Fixpoint dict_set (k : string) (v : V) (d : list (string * V)) : list (string * V) :=
  match d with
  | [] => [(k, v)]
  | (k', v') :: d' =>
      if String.eqb k k' then (k', v) :: d' else (k', v') :: dict_set k v d'
  end.

(** [delete d[k]] *)
Fixpoint dict_delete (k : string) (d : list (string * V)) : list (string * V) :=
  match d with
  | [] => []
  | (k', v') :: d' =>
      if String.eqb k k' then dict_delete k d' else (k', v') :: dict_delete k d'
  end.
End Dict.

(** Decimal index keys of arrays and strings. *)
Definition index_key (i : nat) : string :=
  DecimalString.NilEmpty.string_of_uint (Nat.to_uint i).

Fixpoint indexed {A : Type} (i : nat) (l : list A) : list (string * A) :=
  match l with
  | [] => []
  | a :: l' => (index_key i, a) :: indexed (S i) l'
  end.

Fixpoint chars (s : string) : list Value :=
  match s with
  | EmptyString => []
  | String c s' => VStr (String c EmptyString) :: chars s'
  end.

(** The own enumerable properties [for (name in v)] visits ([hasOwnProperty]
    holds for each); none for [null], [undefined], numbers and booleans. *)
Definition ownProperties (v : Value) : list (string * Value) :=
  match v with
  | VObj _ fields => fields
  | VArr items => indexed 0 items
  | VStr s => indexed 0 (chars s)
  | _ => []
  end.

(** [dest[name] = v] on a destination object. *)
Definition setProperty (dest : Value) (name : string) (v : Value) : Outcome Value :=
  match dest with
  | VObj cls fields => Ok (VObj cls (dict_set name v fields))
  | VUndefined | VNull => Throw TypeError
  | _ => Ok dest
  end.

End Js.
Export Js.

(** ** Regular expressions and [String.prototype.split]

    The two naming conventions split a member name with a regular
    expression.  [Regex] has exactly the constructs their expressions use;
    [rmatch] is a backtracking matcher in continuation-passing style (greedy
    quantifiers, ordered alternation), anchored at a position of the
    subject as the SplitMatch operation of the language definition is. *)

Module RegExp.

Inductive Regex : Type :=
| Cls (c : ascii -> bool)        (* a character class, one character *)
| PlusC (c : ascii -> bool)      (* [c]+ , greedy *)
| Seq (a b : Regex)
| Alt (a b : Regex)              (* a|b , left first *)
| Opt (a : Regex)                (* a? , greedy *)
| Bol                            (* ^ *)
| Eol                            (* $ *)
| Look (a : Regex).              (* (?=a) *)

Definition between (lo hi : ascii) (c : ascii) : bool :=
  (nat_of_ascii lo <=? nat_of_ascii c)%nat && (nat_of_ascii c <=? nat_of_ascii hi)%nat.

Definition lower : ascii -> bool := between "a" "z".
Definition upper : ascii -> bool := between "A" "Z".
Definition digit : ascii -> bool := between "0" "9".
Definition lowerOrDigit (c : ascii) : bool := lower c || digit c.

(** One or more characters of class [c] from position [i], longest first. *)
Fixpoint greedy (c : ascii -> bool) (i : nat) (rest : list ascii)
  (k : nat -> list ascii -> option nat) : option nat :=
  match rest with
  | [] => None
  | a :: rest' =>
      if c a then
        match greedy c (S i) rest' k with
        | Some e => Some e
        | None => k (S i) rest'
        end
      else None
  end.

(** [rmatch r i rest k]: match [r] at position [i], where [rest] is the
    subject from [i] on, then continue with [k]; the result is the end
    position of the whole match. *)
Fixpoint rmatch (r : Regex) (i : nat) (rest : list ascii)
  (k : nat -> list ascii -> option nat) : option nat :=
  match r with
  | Cls c =>
      match rest with
      | a :: rest' => if c a then k (S i) rest' else None
      | [] => None
      end
  | PlusC c => greedy c i rest k
  | Seq a b => rmatch a i rest (fun j rest' => rmatch b j rest' k)
  | Alt a b =>
      match rmatch a i rest k with
      | Some e => Some e
      | None => rmatch b i rest k
      end
  | Opt a =>
      match rmatch a i rest k with
      | Some e => Some e
      | None => k i rest
      end
  | Bol => if (i =? 0)%nat then k i rest else None
  | Eol => match rest with [] => k i rest | _ :: _ => None end
  | Look a =>
      match rmatch a i rest (fun j _ => Some j) with
      | Some _ => k i rest
      | None => None
      end
  end.

(** SplitMatch(S, q, R): the end of a match of [r] that starts exactly at
    [q], if there is one. *)
Definition splitMatch (r : Regex) (subject : list ascii) (q : nat) : option nat :=
  rmatch r q (skipn q subject) (fun j _ => Some j).

Definition substring (subject : list ascii) (from to : nat) : string :=
  string_of_list_ascii (firstn (to - from) (skipn from subject)).

(** The loop of [split]: [p] is the start of the current piece and [q] the
    position tried next.  The expressions modelled here are wrapped in one
    capturing group, so every separator found is itself put in the result,
    after the piece that precedes it. *)
Fixpoint splitLoop (fuel : nat) (r : Regex) (subject : list ascii) (p q : nat) : list string :=
  match fuel with
  | O => [substring subject p (length subject)]
  | S fuel' =>
      if (length subject <=? q)%nat then [substring subject p (length subject)]
      else
        match splitMatch r subject q with
        | None => splitLoop fuel' r subject p (S q)
        | Some e =>
            if (e =? p)%nat then splitLoop fuel' r subject p (S q)
            else substring subject p q :: substring subject q e
                   :: splitLoop fuel' r subject e e
        end
  end.

(** [name.split(r)] for an expression [r] that is one capturing group. *)
Definition split (name : string) (r : Regex) : list string :=
  let subject := list_ascii_of_string name in
  match subject with
  | [] => match splitMatch r subject 0 with Some _ => [] | None => [name] end
  | _ :: _ => splitLoop (2 * length subject + 2) r subject 0 0
  end.

End RegExp.
Export RegExp.

(** ** Naming conventions *)

Module NamingConventions.

Record NamingConvention : Type := {
  splittingExpression : Regex;
  transformPropertyName : list string -> Outcome string
}.

Definition toUpperCase (c : ascii) : ascii :=
  if lower c then ascii_of_nat (nat_of_ascii c - 32) else c.

Definition toLowerCase (c : ascii) : ascii :=
  if upper c then ascii_of_nat (nat_of_ascii c + 32) else c.

(** [part.charAt(0).toUpperCase() + part.substr(1)] *)
Definition capitalize (part : string) : string :=
  match part with
  | EmptyString => EmptyString
  | String c rest => String (toUpperCase c) rest
  end.

(** [part.charAt(0).toLowerCase() + part.substr(1)] *)
Definition uncapitalize (part : string) : string :=
  match part with
  | EmptyString => EmptyString
  | String c rest => String (toLowerCase c) rest
  end.

(** /(^[a-z]+(?=$|[A-Z]{1}[a-z0-9]+)|[A-Z]?[a-z0-9]+)/ *)
Definition camelCaseExpression : Regex :=
  Alt (Seq Bol (Seq (PlusC lower)
                  (Look (Alt Eol (Seq (Cls upper) (PlusC lowerOrDigit))))))
      (Seq (Opt (Cls upper)) (PlusC lowerOrDigit)).

(** /(^[A-Z]+(?=$|[A-Z]{1}[a-z0-9]+)|[A-Z]?[a-z0-9]+)/ *)
Definition pascalCaseExpression : Regex :=
  Alt (Seq Bol (Seq (PlusC upper)
                  (Look (Alt Eol (Seq (Cls upper) (PlusC lowerOrDigit))))))
      (Seq (Opt (Cls upper)) (PlusC lowerOrDigit)).

(** The loop of [CamelCaseNamingConvention.transformPropertyName]: the
    part at index 0 gets a lower-case first letter, the others an
    upper-case one. *)
Fixpoint camelCaseLoop (index : nat) (parts : list string) (result : string) : string :=
  match parts with
  | [] => result
  | part :: parts' =>
      camelCaseLoop (S index) parts'
        (result +:+ (if (index =? 0)%nat then uncapitalize part else capitalize part))
  end.

Fixpoint pascalCaseLoop (parts : list string) (result : string) : string :=
  match parts with
  | [] => result
  | part :: parts' => pascalCaseLoop parts' (result +:+ capitalize part)
  end.

Definition CamelCaseNamingConvention : NamingConvention :=
  {| splittingExpression := camelCaseExpression;
     transformPropertyName := fun parts => Ok (camelCaseLoop 0 parts "") |}.

Definition PascalCaseNamingConvention : NamingConvention :=
  {| splittingExpression := pascalCaseExpression;
     transformPropertyName := fun parts => Ok (pascalCaseLoop parts "") |}.

(** [parts.splice(index, 1)] *)
Definition splice1 (index : nat) (parts : list string) : list string :=
  take index parts ++ drop (S index) parts.

(** [part !== ''] *)
Definition nonEmpty (part : string) : bool := negb (String.eqb part "").

(** The loop that removes the empty strings [split] leaves, from the last
    index down to 0; [n] is [index + 1]. *)
Fixpoint removeEmptyParts (n : nat) (parts : list string) : list string :=
  match n with
  | O => parts
  | S index =>
      removeEmptyParts index
        (match parts !! index with
         | Some part => if String.eqb part "" then splice1 index parts else parts
         | None => parts
         end)
  end.

End NamingConventions.
Export NamingConventions.

(** ** The data model *)

Module Model.

Definition loc : Type := nat.

(** The options object a member function receives. *)
Record Options : Type := {
  sourceObject : Value;
  sourcePropertyName : Value;
  destinationPropertyValue : Value
}.

(** A condition predicate over the source object. *)
Record Predicate : Type := {
  predicateName : string;
  predicateApply : Value -> Outcome Value
}.

(** The calls a member function makes on its options object. *)
Inductive OptionsCall : Type :=
| CallIgnore
| CallMapFrom (name : string)
| CallCondition (predicate : Predicate).

(** A function given to [forMember] or [forSourceMember]: for the options
    object it receives, the calls it makes on it, in order, and how it
    completes.  A function that raises lists the calls made before. *)
Record MemberFunction : Type := {
  functionName : string;
  functionApply : Options -> list OptionsCall * Outcome Value
}.

Inductive ValueOrFunction : Type :=
| Literal (v : Value)
| Function (f : MemberFunction).

(** A [forAllMembers] handler: from the destination object, the member
    name ([None] is [undefined]) and the value to the destination object it
    leaves. *)
Record Handler : Type := {
  handlerName : string;
  handlerApply : Value -> option string -> Value -> Outcome Value
}.

Record ResolutionContext : Type := {
  sourceValue : Value;
  destinationValue : Value
}.

(** A converter function; [parameters] is the number of parameter names
    [getFunctionParameters] finds in its text. *)
Record Converter : Type := {
  converterName : string;
  parameters : nat;
  convert : ResolutionContext -> Outcome Value
}.

(** What [convertUsing] may be given: an instance of [TypeConverter] with
    its [convert] member, or another value, of which the code asks the
    parameter list and, if that is not of length one, an instance. *)
Inductive ConverterSource : Type :=
| ConverterInstance (convertMember : option Converter)
| ConverterFunctionOrClass (self : Converter) (instantiate : Outcome (option Converter)).

(** A destination class: [construct] is how [new C()] completes. *)
Record TypeClass : Type := {
  className : string;
  construct : Outcome Value
}.

Record MemberMapping : Type := {
  sourceProperty : string;
  destinationProperty : option string;        (* [None] is [undefined] *)
  mappingValuesAndFunctions : list ValueOrFunction;
  ignore : bool;
  conditionFunction : option Predicate
}.

(** The calls of the fluent interface, as a profile's [configure] makes
    them on the handle [createMap] returned. *)
Inductive ChainCall : Type :=
| ForMember (destinationProperty : string) (valueOrFunction : ValueOrFunction)
| ForSourceMember (sourceProperty : string) (configFunction : ValueOrFunction)
| ForAllMembers (func : Handler)
| ConvertToType (typeClass : TypeClass)
| ConvertUsing (typeConverterClassOrFunction : ConverterSource)
| WithProfile (profileName : string).

Record Profile : Type := {
  profileName : string;
  sourceMemberNamingConvention : option NamingConvention;
  destinationMemberNamingConvention : option NamingConvention;
  (* the [createMap(sourceKey, destinationKey)] chains of [configure()] *)
  configure : list (string * string * list ChainCall)
}.

Record Mapping : Type := {
  sourceKey : string;
  destinationKey : string;
  forAllMemberMappings : list Handler;
  forMemberMappings : list (string * loc);
  typeConverterFunction : option Converter;
  destinationTypeClass : option TypeClass;
  profile : option Profile
}.

(** Calls of user code, in the order they happen. *)
Inductive Event : Type :=
| Declared (f : MemberFunction) (opts : Options)       (* dry run in forMember *)
| SourceConfigured (f : MemberFunction) (opts : Options) (* call in forSourceMember *)
| Constructed (c : TypeClass)
| Converted (c : Converter) (ctx : ResolutionContext)
| ConditionTested (p : Predicate) (source : Value)
| Evaluated (f : MemberFunction) (opts : Options)
| Handled (h : Handler) (destination : Value) (name : option string) (v : Value).

(** The AutoMapper instance ([profiles], [mappings]) with the objects it
    refers to, the argument arrays of the curry adapter, and the calls of
    user code made so far. *)
Record State : Type := {
  profiles : gmap string Profile;
  mappings : gmap string loc;
  mappingStore : loc -> Mapping;
  nextMapping : loc;
  memberStore : loc -> MemberMapping;
  nextMember : loc;
  argumentStore : loc -> list Value;
  nextArguments : loc;
  calls : list Event
}.

Definition emptyMapping : Mapping :=
  {| sourceKey := ""; destinationKey := ""; forAllMemberMappings := [];
     forMemberMappings := []; typeConverterFunction := None;
     destinationTypeClass := None; profile := None |}.

Definition emptyMember : MemberMapping :=
  {| sourceProperty := ""; destinationProperty := None;
     mappingValuesAndFunctions := []; ignore := false; conditionFunction := None |}.

(** The state the constructor leaves: [this.profiles = {}; this.mappings = {}]. *)
Definition initial : State :=
  {| profiles := ∅; mappings := ∅;
     mappingStore := fun _ => emptyMapping; nextMapping := 0;
     memberStore := fun _ => emptyMember; nextMember := 0;
     argumentStore := fun _ => []; nextArguments := 0;
     calls := [] |}.

(** *** Field updates *)

Definition setProfiles (f : gmap string Profile -> gmap string Profile) (st : State) : State :=
  {| profiles := f (profiles st); mappings := mappings st;
     mappingStore := mappingStore st; nextMapping := nextMapping st;
     memberStore := memberStore st; nextMember := nextMember st;
     argumentStore := argumentStore st; nextArguments := nextArguments st;
     calls := calls st |}.

Definition setMappings (f : gmap string loc -> gmap string loc) (st : State) : State :=
  {| profiles := profiles st; mappings := f (mappings st);
     mappingStore := mappingStore st; nextMapping := nextMapping st;
     memberStore := memberStore st; nextMember := nextMember st;
     argumentStore := argumentStore st; nextArguments := nextArguments st;
     calls := calls st |}.

Definition update {A : Type} (store : loc -> A) (l : loc) (a : A) : loc -> A :=
  fun l' => if Nat.eqb l' l then a else store l'.

Definition storeMapping (l : loc) (m : Mapping) (st : State) : State :=
  {| profiles := profiles st; mappings := mappings st;
     mappingStore := update (mappingStore st) l m; nextMapping := nextMapping st;
     memberStore := memberStore st; nextMember := nextMember st;
     argumentStore := argumentStore st; nextArguments := nextArguments st;
     calls := calls st |}.

Definition allocMapping (m : Mapping) (st : State) : loc * State :=
  (nextMapping st,
   {| profiles := profiles st; mappings := mappings st;
      mappingStore := update (mappingStore st) (nextMapping st) m;
      nextMapping := S (nextMapping st);
      memberStore := memberStore st; nextMember := nextMember st;
      argumentStore := argumentStore st; nextArguments := nextArguments st;
      calls := calls st |}).

Definition storeMember (l : loc) (mm : MemberMapping) (st : State) : State :=
  {| profiles := profiles st; mappings := mappings st;
     mappingStore := mappingStore st; nextMapping := nextMapping st;
     memberStore := update (memberStore st) l mm; nextMember := nextMember st;
     argumentStore := argumentStore st; nextArguments := nextArguments st;
     calls := calls st |}.

Definition allocMember (mm : MemberMapping) (st : State) : loc * State :=
  (nextMember st,
   {| profiles := profiles st; mappings := mappings st;
      mappingStore := mappingStore st; nextMapping := nextMapping st;
      memberStore := update (memberStore st) (nextMember st) mm;
      nextMember := S (nextMember st);
      argumentStore := argumentStore st; nextArguments := nextArguments st;
      calls := calls st |}).

Definition storeArguments (l : loc) (args : list Value) (st : State) : State :=
  {| profiles := profiles st; mappings := mappings st;
     mappingStore := mappingStore st; nextMapping := nextMapping st;
     memberStore := memberStore st; nextMember := nextMember st;
     argumentStore := update (argumentStore st) l args; nextArguments := nextArguments st;
     calls := calls st |}.

Definition allocArguments (args : list Value) (st : State) : loc * State :=
  (nextArguments st,
   {| profiles := profiles st; mappings := mappings st;
      mappingStore := mappingStore st; nextMapping := nextMapping st;
      memberStore := memberStore st; nextMember := nextMember st;
      argumentStore := update (argumentStore st) (nextArguments st) args;
      nextArguments := S (nextArguments st);
      calls := calls st |}).

Definition record (events : list Event) (st : State) : State :=
  {| profiles := profiles st; mappings := mappings st;
     mappingStore := mappingStore st; nextMapping := nextMapping st;
     memberStore := memberStore st; nextMember := nextMember st;
     argumentStore := argumentStore st; nextArguments := nextArguments st;
     calls := calls st ++ events |}.

(** Updates of the fields of a mapping object and of a member mapping. *)
Definition withHandlers (hs : list Handler) (m : Mapping) : Mapping :=
  {| sourceKey := sourceKey m; destinationKey := destinationKey m;
     forAllMemberMappings := hs; forMemberMappings := forMemberMappings m;
     typeConverterFunction := typeConverterFunction m;
     destinationTypeClass := destinationTypeClass m; profile := profile m |}.

Definition withMembers (d : list (string * loc)) (m : Mapping) : Mapping :=
  {| sourceKey := sourceKey m; destinationKey := destinationKey m;
     forAllMemberMappings := forAllMemberMappings m; forMemberMappings := d;
     typeConverterFunction := typeConverterFunction m;
     destinationTypeClass := destinationTypeClass m; profile := profile m |}.

Definition withConverter (c : option Converter) (m : Mapping) : Mapping :=
  {| sourceKey := sourceKey m; destinationKey := destinationKey m;
     forAllMemberMappings := forAllMemberMappings m;
     forMemberMappings := forMemberMappings m;
     typeConverterFunction := c;
     destinationTypeClass := destinationTypeClass m; profile := profile m |}.

Definition withTypeClass (c : option TypeClass) (m : Mapping) : Mapping :=
  {| sourceKey := sourceKey m; destinationKey := destinationKey m;
     forAllMemberMappings := forAllMemberMappings m;
     forMemberMappings := forMemberMappings m;
     typeConverterFunction := typeConverterFunction m;
     destinationTypeClass := c; profile := profile m |}.

Definition withProfileOf (p : option Profile) (m : Mapping) : Mapping :=
  {| sourceKey := sourceKey m; destinationKey := destinationKey m;
     forAllMemberMappings := forAllMemberMappings m;
     forMemberMappings := forMemberMappings m;
     typeConverterFunction := typeConverterFunction m;
     destinationTypeClass := destinationTypeClass m; profile := p |}.

Definition withSource (s : string) (mm : MemberMapping) : MemberMapping :=
  {| sourceProperty := s; destinationProperty := destinationProperty mm;
     mappingValuesAndFunctions := mappingValuesAndFunctions mm;
     ignore := ignore mm; conditionFunction := conditionFunction mm |}.

Definition withValues (vs : list ValueOrFunction) (mm : MemberMapping) : MemberMapping :=
  {| sourceProperty := sourceProperty mm; destinationProperty := destinationProperty mm;
     mappingValuesAndFunctions := vs;
     ignore := ignore mm; conditionFunction := conditionFunction mm |}.

Definition withIgnore (b : bool) (mm : MemberMapping) : MemberMapping :=
  {| sourceProperty := sourceProperty mm; destinationProperty := destinationProperty mm;
     mappingValuesAndFunctions := mappingValuesAndFunctions mm;
     ignore := b; conditionFunction := conditionFunction mm |}.

Definition withCondition (p : option Predicate) (mm : MemberMapping) : MemberMapping :=
  {| sourceProperty := sourceProperty mm; destinationProperty := destinationProperty mm;
     mappingValuesAndFunctions := mappingValuesAndFunctions mm;
     ignore := ignore mm; conditionFunction := p |}.

(** *** Stateful, fallible computations

    [M A] threads the state; an exception leaves the state as it is at the
    point it is raised (nothing is rolled back). *)
Definition M (A : Type) : Type := State -> Outcome A * State.

Definition ret {A : Type} (a : A) : M A := fun st => (Ok a, st).

Definition bind {A B : Type} (c : M A) (k : A -> M B) : M B :=
  fun st =>
    match c st with
    | (Ok a, st') => k a st'
    | (Throw e, st') => (Throw e, st')
    end.

Definition throw {A : Type} (e : Error) : M A := fun st => (Throw e, st).

Definition gets {A : Type} (f : State -> A) : M A := fun st => (Ok (f st), st).

Definition modify (f : State -> State) : M unit := fun st => (Ok tt, f st).

(** [new Object] in one of the stores. *)
Definition alloc {A : Type} (allocate : A -> State -> loc * State) (a : A) : M loc :=
  fun st => let (l, st') := allocate a st in (Ok l, st').

(** [try { c } catch (err) { h }] *)
Definition tryCatch {A : Type} (c : M A) (h : Error -> M A) : M A :=
  fun st =>
    match c st with
    | (Ok a, st') => (Ok a, st')
    | (Throw e, st') => h e st'
    end.

#[global] Instance M_ret : MRet M := @ret.
#[global] Instance M_bind : MBind M := fun A B k c => bind c k.

(** [for (x of l) body(x)] *)
Fixpoint forEach {A : Type} (body : A -> M unit) (l : list A) : M unit :=
  match l with
  | [] => ret tt
  | a :: l' => body a;; forEach body l'
  end.

(** How a call of user code completes. *)
Definition complete {A : Type} (o : Outcome A) : M A :=
  match o with
  | Ok a => ret a
  | Throw e => throw e
  end.

End Model.
Export Model.

(** ** The fluent configuration builder *)

Module Builder.

(** [createMap(sourceKey, destinationKey)], called with both arguments.
    The handle returned is bound to the mapping object created here. *)
Definition createMap (sourceKey destinationKey : string) : M loc :=
  let mappingKey := sourceKey +:+ destinationKey in
  mapping ← alloc allocMapping
    {| sourceKey := sourceKey; destinationKey := destinationKey;
       forAllMemberMappings := []; forMemberMappings := [];
       typeConverterFunction := None; destinationTypeClass := None;
       profile := None |};
  modify (setMappings <[mappingKey := mapping]>);;
  ret mapping.

Definition sameName (a b : option string) : bool :=
  match a, b with
  | Some x, Some y => String.eqb x y
  | None, None => true
  | _, _ => false
  end.

(** The first member mapping, in enumeration order, whose
    [destinationProperty] is [destinationPropertyName]. *)
Fixpoint createMapForMemberFindMember (members : loc -> MemberMapping)
  (forMemberMappings : list (string * loc)) (destinationPropertyName : option string)
  : option loc :=
  match forMemberMappings with
  | [] => None
  | (_, memberMapping) :: rest =>
      if sameName (destinationProperty (members memberMapping)) destinationPropertyName
      then Some memberMapping
      else createMapForMemberFindMember members rest destinationPropertyName
  end.

(** The name under which [undefined] is used as a property key. *)
Definition propertyKey (name : option string) : string :=
  match name with Some s => s | None => "undefined" end.

(** The options object of the dry run: a stubbed source object. *)
Definition declarationOptions (memberMapping : MemberMapping) : Options :=
  {| sourceObject := VObj None [(sourceProperty memberMapping, VObj None [])];
     sourcePropertyName := VStr (sourceProperty memberMapping);
     destinationPropertyValue := VObj None [] |}.

(** What [ignore()], [condition(predicate)] and [mapFrom(name)] of the
    declaration-phase options object do to the member mapping. *)
Definition declare (call : OptionsCall) (memberMapping : MemberMapping) : MemberMapping :=
  match call with
  | CallIgnore =>
      withValues []
        (withSource (propertyKey (destinationProperty memberMapping))
           (withIgnore true memberMapping))
  | CallCondition predicate => withCondition (Some predicate) memberMapping
  | CallMapFrom name => withSource name memberMapping
  end.

(** The calls of the dry run, made one after the other on the member
    mapping. *)
Definition declared (optionCalls : list OptionsCall) (memberMapping : MemberMapping)
  : MemberMapping :=
  fold_left (fun mm call => declare call mm) optionCalls memberMapping.

Definition isIgnore (call : OptionsCall) : bool :=
  match call with CallIgnore => true | _ => false end.

Definition mutateMember (memberMapping : loc) (f : MemberMapping -> MemberMapping) : M unit :=
  modify (fun st => storeMember memberMapping (f (memberStore st memberMapping)) st).

Definition mutateMapping (mapping : loc) (f : Mapping -> Mapping) : M unit :=
  modify (fun st => storeMapping mapping (f (mappingStore st mapping)) st).

Definition push (entry : ValueOrFunction) (memberMapping : MemberMapping) : MemberMapping :=
  withValues (mappingValuesAndFunctions memberMapping ++ [entry]) memberMapping.

(** The function is called once, on the stubbed options; what it raises
    is dropped; it is kept unless it called [ignore()]. *)
Definition createMapForMemberHandleMappingFunction (memberMapping : loc)
  (mappingFunction : MemberFunction) : M unit :=
  current ← gets (fun st => memberStore st memberMapping);
  let destMemberConfigFunctionOptions := declarationOptions current in
  modify (record [Declared mappingFunction destMemberConfigFunctionOptions]);;
  let '(optionCalls, completion) :=
    functionApply mappingFunction destMemberConfigFunctionOptions in
  let addMappingValueOrFunction := negb (existsb isIgnore optionCalls) in
  tryCatch
    (forEach (fun call => mutateMember memberMapping (declare call)) optionCalls;;
     _ ← complete completion; ret tt)
    (fun _ => ret tt);;
  if addMappingValueOrFunction
  then mutateMember memberMapping (push (Function mappingFunction))
  else ret tt.

(** The defaults of a member mapping [forMember] creates. *)
Definition newMemberMapping (destinationProperty : string) : MemberMapping :=
  {| sourceProperty := destinationProperty;
     destinationProperty := Some destinationProperty;
     mappingValuesAndFunctions := [];
     ignore := false;
     conditionFunction := None |}.

(** The part of [createMapForMember] that follows once the member mapping
    is found or created: the value or function is taken in, and the
    dictionary is keyed again if the source member changed.
    [originalSourcePropertyName] is [None] for a member mapping just
    created; the test [!originalSourcePropertyName] also holds for the empty
    string. *)
Definition createMapForMemberConfigure (mapping : loc) (valueOrFunction : ValueOrFunction)
  (memberMapping : loc) (originalSourcePropertyName : option string) : M loc :=
  match valueOrFunction with
  | Function f => createMapForMemberHandleMappingFunction memberMapping f
  | Literal _ => mutateMember memberMapping (push valueOrFunction)
  end;;
  newSource ← gets (fun st => sourceProperty (memberStore st memberMapping));
  match originalSourcePropertyName with
  | None | Some "" =>
      mutateMapping mapping (fun m =>
        withMembers (dict_set newSource memberMapping (forMemberMappings m)) m)
  | Some original =>
      if negb (String.eqb original newSource)
      then mutateMapping mapping (fun m =>
             withMembers
               (dict_set newSource memberMapping
                  (dict_delete original (forMemberMappings m))) m)
      else ret tt
  end;;
  ret mapping.

(** [forMember(destinationProperty, valueOrFunction)] on the handle of
    [mapping]; the result is the handle again. *)
Definition createMapForMember (mapping : loc) (destinationProperty : string)
  (valueOrFunction : ValueOrFunction) : M loc :=
  st ← gets id;
  match createMapForMemberFindMember (memberStore st)
          (forMemberMappings (mappingStore st mapping)) (Some destinationProperty) with
  | Some memberMapping =>
      if ignore (memberStore st memberMapping)
      then ret mapping
      else createMapForMemberConfigure mapping valueOrFunction memberMapping
             (Some (sourceProperty (memberStore st memberMapping)))
  | None =>
      memberMapping ← alloc allocMember (newMemberMapping destinationProperty);
      createMapForMemberConfigure mapping valueOrFunction memberMapping None
  end.

(** The options object of [forSourceMember] has [ignore] only. *)
Definition sourceMemberOptions : Options :=
  {| sourceObject := VUndefined; sourcePropertyName := VUndefined;
     destinationPropertyValue := VUndefined |}.

(** [forSourceMember(sourceProperty, sourceMemberConfigFunction)] *)
Definition createMapForSourceMember (mapping : loc) (sourceProperty : string)
  (sourceMemberConfigFunction : ValueOrFunction) : M loc :=
  match sourceMemberConfigFunction with
  | Literal _ => throw InvalidConfiguration
  | Function f =>
      modify (record [SourceConfigured f sourceMemberOptions]);;
      let '(optionCalls, completion) := functionApply f sourceMemberOptions in
      forEach (fun call => if isIgnore call then ret tt else throw TypeError) optionCalls;;
      _ ← complete completion;
      let ignore := existsb isIgnore optionCalls in
      let destinationProperty := if ignore then None else Some sourceProperty in
      st ← gets id;
      match dict_get sourceProperty (forMemberMappings (mappingStore st mapping)) with
      | Some memberMapping =>
          if ignore
          then mutateMember memberMapping (fun mm => withValues [] (withIgnore true mm))
          else mutateMember memberMapping (push sourceMemberConfigFunction)
      | None =>
          memberMapping ← alloc allocMember
            {| Model.sourceProperty := sourceProperty;
               Model.destinationProperty := destinationProperty;
               mappingValuesAndFunctions := [sourceMemberConfigFunction];
               Model.ignore := ignore;
               conditionFunction := None |};
          mutateMapping mapping (fun m =>
            withMembers (dict_set sourceProperty memberMapping (forMemberMappings m)) m)
      end;;
      ret mapping
  end.

(** [forAllMembers(func)] *)
Definition createMapForAllMembers (mapping : loc) (func : Handler) : M loc :=
  mutateMapping mapping (fun m => withHandlers (forAllMemberMappings m ++ [func]) m);;
  ret mapping.

(** [convertToType(typeClass)] *)
Definition createMapConvertToType (mapping : loc) (typeClass : TypeClass) : M loc :=
  mutateMapping mapping (withTypeClass (Some typeClass));;
  ret mapping.

(** [convertUsing(typeConverterClassOrFunction)]; nothing is returned. *)
Definition createMapConvertUsing (mapping : loc)
  (typeConverterClassOrFunction : ConverterSource) : M unit :=
  typeConverterFunction ←
    tryCatch
      (match typeConverterClassOrFunction with
       | ConverterInstance convertMember => ret convertMember
       | ConverterFunctionOrClass self instantiate =>
           if (parameters self =? 1)%nat then ret (Some self)
           else complete instantiate
       end)
      (fun _ => throw InvalidConfiguration);
  match typeConverterFunction with
  | Some converter =>
      if (parameters converter =? 1)%nat
      then mutateMapping mapping (withConverter (Some converter))
      else throw InvalidConfiguration
  | None => throw InvalidConfiguration
  end.

(** One turn of the loop over the profile's member mappings. *)
Definition mergeMember (members : loc -> MemberMapping)
  (live : list (string * loc)) (entry : string * loc) : list (string * loc) :=
  let profilePropertyMapping := snd entry in
  match createMapForMemberFindMember members live
          (destinationProperty (members profilePropertyMapping)) with
  | Some existingPropertyMapping =>
      dict_set (sourceProperty (members profilePropertyMapping)) profilePropertyMapping
        (dict_delete (sourceProperty (members existingPropertyMapping)) live)
  | None => live
  end.

Definition mergeMembers (members : loc -> MemberMapping)
  (staged live : list (string * loc)) : list (string * loc) :=
  fold_left (mergeMember members) staged live.

(** A dictionary of member mappings has each key once and keys every
    member mapping by its [sourceProperty]. *)
Definition keyedBySource (members : loc -> MemberMapping) (d : list (string * loc)) : Prop :=
  List.NoDup (List.map fst d)
  /\ forall key l, dict_get key d = Some l -> sourceProperty (members l) = key.

(** It has at most one member mapping for a [destinationProperty]. *)
Definition oneMemberPerDestination (members : loc -> MemberMapping)
  (d : list (string * loc)) : Prop :=
  forall key1 l1 key2 l2,
    dict_get key1 d = Some l1 -> dict_get key2 d = Some l2 ->
    destinationProperty (members l1) = destinationProperty (members l2) ->
    key1 = key2.

Definition sourceOf (members : loc -> MemberMapping) (l : loc) : string :=
  sourceProperty (members l).

Definition destinationOf (members : loc -> MemberMapping) (l : loc) : option string :=
  destinationProperty (members l).

(** The end of the merge for the staged member mapping [q] and the member
    mapping [e] it is to replace: [q] is installed under its source
    property, and [e] is gone from its key. *)
Definition installedFor (members : loc -> MemberMapping) (q e : loc)
  (live : list (string * loc)) : Prop :=
  dict_get (sourceOf members q) live = Some q
  /\ (sourceOf members e <> sourceOf members q ->
      dict_get (sourceOf members e) live = None).

Definition profileMappingKey (profileName : string) (mapping : Mapping) : string :=
  profileName +:+ "=>" +:+ sourceKey mapping +:+ profileName +:+ "=>" +:+ destinationKey mapping.

(** The profile's mapping object is another object than the live one (its
    key is longer), so the loop over its member mappings is not disturbed
    by the changes made to the live one. *)
Definition createMapWithProfileMergeMappings (mapping : loc) (profileName : string) : M unit :=
  st ← gets id;
  match mappings st !! profileMappingKey profileName (mappingStore st mapping) with
  | None => ret tt
  | Some staged =>
      let profileMapping := mappingStore st staged in
      (if (0 <? length (forAllMemberMappings profileMapping))%nat
       then mutateMapping mapping (fun m =>
              withHandlers (forAllMemberMappings m ++ forAllMemberMappings profileMapping) m)
       else ret tt);;
      match typeConverterFunction profileMapping with
      | Some converter => mutateMapping mapping (withConverter (Some converter))
      | None => ret tt
      end;;
      match destinationTypeClass profileMapping with
      | Some typeClass => mutateMapping mapping (withTypeClass (Some typeClass))
      | None => ret tt
      end;;
      mutateMapping mapping (fun m =>
        withMembers (mergeMembers (memberStore st) (forMemberMappings profileMapping)
                       (forMemberMappings m)) m)
  end.

(** [withProfile(profileName)]; nothing is returned. *)
Definition createMapWithProfile (mapping : loc) (profileName : string) : M unit :=
  st ← gets id;
  match profiles st !! profileName with
  | None => throw (ProfileNotFound profileName)
  | Some profile =>
      if String.eqb (Model.profileName profile) profileName
      then mutateMapping mapping (withProfileOf (Some profile));;
           createMapWithProfileMergeMappings mapping profileName
      else throw (ProfileNotFound profileName)
  end.

(** A chain of calls on a handle.  [convertUsing] and [withProfile] return
    nothing, so a call chained after them fails. *)
Fixpoint chain (mapping : loc) (calls : list ChainCall) : M unit :=
  match calls with
  | [] => ret tt
  | call :: rest =>
      match call with
      | ForMember d v => h ← createMapForMember mapping d v; chain h rest
      | ForSourceMember s f => h ← createMapForSourceMember mapping s f; chain h rest
      | ForAllMembers func => h ← createMapForAllMembers mapping func; chain h rest
      | ConvertToType c => h ← createMapConvertToType mapping c; chain h rest
      | ConvertUsing c =>
          createMapConvertUsing mapping c;;
          match rest with [] => ret tt | _ :: _ => throw TypeError end
      | WithProfile name =>
          createMapWithProfile mapping name;;
          match rest with [] => ret tt | _ :: _ => throw TypeError end
      end
  end.

(** [Profile.prototype.createMap]: every argument that is not falsy gets
    the prefix [profileName + "=>"]. *)
Definition prefixed (profile : Profile) (key : string) : string :=
  if String.eqb key "" then key else profileName profile +:+ "=>" +:+ key.

Definition profileCreateMap (profile : Profile) (sourceKey destinationKey : string) : M loc :=
  createMap (prefixed profile sourceKey) (prefixed profile destinationKey).

(** [addProfile(profile)] of the configuration object of [initialize]. *)
Definition addProfile (profile : Profile) : M unit :=
  forEach (fun '(sourceKey, destinationKey, calls) =>
             h ← profileCreateMap profile sourceKey destinationKey;
             chain h calls)
          (configure profile);;
  modify (setProfiles <[profileName profile := profile]>).

End Builder.
Export Builder.

(** ** The mapping executor

    Executing a mapping reads the definition and calls user code; it
    changes neither the registry nor the definition.  [X A] is a result
    together with the calls of user code made on the way. *)

Module Executor.

Definition X (A : Type) : Type := list Event * Outcome A.

Definition retX {A : Type} (a : A) : X A := ([], Ok a).

Definition bindX {A B : Type} (c : X A) (k : A -> X B) : X B :=
  match c with
  | (events, Ok a) => let (events', r) := k a in (events ++ events', r)
  | (events, Throw e) => (events, Throw e)
  end.

#[global] Instance X_ret : MRet X := @retX.
#[global] Instance X_bind : MBind X := fun A B k c => bindX c k.

Definition tell (events : list Event) : X unit := (events, Ok tt).

Definition result {A : Type} (o : Outcome A) : X A := ([], o).

(** [try { ... } catch (error) { return sourcePropertyName; }] around the
    split, the removal of the empty parts and the transformation. *)
Definition mapGetDestinationPropertyName (profile : Profile) (sourcePropertyName : string)
  : Outcome string :=
  let attempt : Outcome string :=
    match sourceMemberNamingConvention profile with
    | None => Throw TypeError
    | Some sourceConvention =>
        let sourcePropertyNameParts :=
          split sourcePropertyName (splittingExpression sourceConvention) in
        let sourcePropertyNameParts :=
          removeEmptyParts (length sourcePropertyNameParts) sourcePropertyNameParts in
        match destinationMemberNamingConvention profile with
        | None => Throw TypeError
        | Some destinationConvention =>
            transformPropertyName destinationConvention sourcePropertyNameParts
        end
    end in
  match attempt with
  | Ok name => Ok name
  | Throw _ => Ok sourcePropertyName
  end.

(** The handlers are called in registration order, each on the
    destination object the one before left. *)
Fixpoint callHandlers (handlers : list Handler) (destinationObject : Value)
  (destinationPropertyName : option string) (destinationPropertyValue : Value) : X Value :=
  match handlers with
  | [] => mret destinationObject
  | h :: rest =>
      tell [Handled h destinationObject destinationPropertyName destinationPropertyValue];;
      destinationObject' ←
        result (handlerApply h destinationObject destinationPropertyName destinationPropertyValue);
      callHandlers rest destinationObject' destinationPropertyName destinationPropertyValue
  end.

Definition mapSetValue (mapping : Mapping) (destinationObject : Value)
  (destinationPropertyName : option string) (destinationPropertyValue : Value) : X Value :=
  if (0 <? length (forAllMemberMappings mapping))%nat
  then callHandlers (forAllMemberMappings mapping) destinationObject
         destinationPropertyName destinationPropertyValue
  else result (setProperty destinationObject (propertyKey destinationPropertyName)
                 destinationPropertyValue).

(** A member function called at mapping time: [mapFrom] and [condition]
    are stubs, [ignore] is [undefined], so calling it raises. *)
Fixpoint evaluationCalls (optionCalls : list OptionsCall) : Outcome unit :=
  match optionCalls with
  | [] => Ok tt
  | CallIgnore :: _ => Throw TypeError
  | _ :: rest => evaluationCalls rest
  end.

Definition evaluate (f : MemberFunction) (memberConfigurationOptions : Options) : X Value :=
  tell [Evaluated f memberConfigurationOptions];;
  let '(optionCalls, completion) := functionApply f memberConfigurationOptions in
  result (evaluationCalls optionCalls);;
  result completion.

Definition withDestinationPropertyValue (v : Value) (opts : Options) : Options :=
  {| sourceObject := sourceObject opts;
     sourcePropertyName := sourcePropertyName opts;
     destinationPropertyValue := v |}.

(** The loop over [mappingValuesAndFunctions]; the options object carries
    the value computed so far. *)
Fixpoint foldValuesAndFunctions (entries : list ValueOrFunction)
  (memberConfigurationOptions : Options) : X Options :=
  match entries with
  | [] => mret memberConfigurationOptions
  | mappingValueOrFunction :: rest =>
      destinationPropertyValue ←
        match mappingValueOrFunction with
        | Function f =>
            returned ← evaluate f memberConfigurationOptions;
            mret (match returned with
                  | VUndefined => Model.destinationPropertyValue memberConfigurationOptions
                  | _ => returned
                  end)
        | Literal v => mret v
        end;
      foldValuesAndFunctions rest
        (withDestinationPropertyValue destinationPropertyValue memberConfigurationOptions)
  end.

Definition isFalse (v : Value) : bool :=
  match v with VBool false => true | _ => false end.

(** [mapProperty]; [sourceValue] is [sourceObject[sourcePropertyName]] and
    the result is the destination object with the member set. *)
Definition mapProperty (members : loc -> MemberMapping) (mapping : Mapping)
  (sourceObject : Value) (sourcePropertyName : string) (sourceValue : Value)
  (destinationObject : Value) : X Value :=
  match dict_get sourcePropertyName (forMemberMappings mapping) with
  | Some l =>
      let propertyMapping := members l in
      if ignore propertyMapping then mret destinationObject
      else
        conditionMet ←
          match conditionFunction propertyMapping with
          | Some predicate =>
              tell [ConditionTested predicate sourceObject];;
              verdict ← result (predicateApply predicate sourceObject);
              mret (negb (isFalse verdict))
          | None => mret true
          end;
        if conditionMet : bool then
          memberConfigurationOptions ←
            foldValuesAndFunctions (mappingValuesAndFunctions propertyMapping)
              {| Model.sourceObject := sourceObject;
                 Model.sourcePropertyName := VStr sourcePropertyName;
                 destinationPropertyValue := sourceValue |};
          mapSetValue mapping destinationObject (destinationProperty propertyMapping)
            (destinationPropertyValue memberConfigurationOptions)
        else mret destinationObject
  | None =>
      destinationPropertyName ←
        match profile mapping with
        | Some profile => result (mapGetDestinationPropertyName profile sourcePropertyName)
        | None => mret sourcePropertyName
        end;
      mapSetValue mapping destinationObject (Some destinationPropertyName) sourceValue
  end.

(** The loop over the own properties of the source object. *)
Fixpoint mapProperties (members : loc -> MemberMapping) (mapping : Mapping)
  (sourceObject : Value) (properties : list (string * Value))
  (destinationObject : Value) : X Value :=
  match properties with
  | [] => mret destinationObject
  | (sourcePropertyName, sourceValue) :: rest =>
      destinationObject' ←
        mapProperty members mapping sourceObject sourcePropertyName sourceValue
          destinationObject;
      mapProperties members mapping sourceObject rest destinationObject'
  end.

(** [mapItem(mapping, sourceObject, arrayIndex)]; the index is not used. *)
Definition mapItem (members : loc -> MemberMapping) (mapping : Mapping)
  (sourceObject : Value) : X Value :=
  destinationObject ←
    match destinationTypeClass mapping with
    | Some typeClass => tell [Constructed typeClass];; result (construct typeClass)
    | None => mret (VObj None [])
    end;
  match typeConverterFunction mapping with
  | Some converter =>
      let resolutionContext :=
        {| sourceValue := sourceObject; destinationValue := destinationObject |} in
      tell [Converted converter resolutionContext];;
      result (convert converter resolutionContext)
  | None =>
      mapProperties members mapping sourceObject (ownProperties sourceObject)
        destinationObject
  end.

(** The loop of [mapArray] over the elements that remain, with the
    destination array built so far. *)
Fixpoint mapArrayLoop (members : loc -> MemberMapping) (mapping : Mapping)
  (sourceArray : list Value) (destinationArray : list Value) : X (list Value) :=
  match sourceArray with
  | [] => mret destinationArray
  | sourceObject :: rest =>
      destinationObject ← mapItem members mapping sourceObject;
      mapArrayLoop members mapping rest
        (if truthy destinationObject
         then destinationArray ++ [destinationObject]
         else destinationArray)
  end.

Definition mapArray (members : loc -> MemberMapping) (mapping : Mapping)
  (sourceArray : list Value) : X Value :=
  destinationArray ← mapArrayLoop members mapping sourceArray [];
  mret (VArr destinationArray).

(** [destination] is the destination object [mapItem] starts from: the
    instance the destination class builds if there is one, an empty object
    otherwise. *)
Definition constructs (mapping : Mapping) (destination : Value) : Prop :=
  match destinationTypeClass mapping with
  | Some typeClass => construct typeClass = Ok destination
  | None => destination = VObj None []
  end.

(** The call of user code made to build it. *)
Definition constructionCalls (mapping : Mapping) : list Event :=
  match destinationTypeClass mapping with
  | Some typeClass => [Constructed typeClass]
  | None => []
  end.

(** Running the executor from the instance: the calls made are added to
    the record of calls, nothing else changes. *)
Definition perform {A : Type} (x : X A) : M A :=
  fun st => (snd x, record (fst x) st).

End Executor.
Export Executor.

(** ** The entry points and the curry adapter *)

Module AutoMapper.

(** [map(sourceKey, destinationKey, sourceObject)], called with its three
    arguments. *)
Definition map (sourceKey destinationKey : string) (sourceObject : Value) : M Value :=
  let mappingKey := sourceKey +:+ destinationKey in
  st ← gets id;
  match mappings st !! mappingKey with
  | None => throw (MappingNotFound sourceKey destinationKey)
  | Some l =>
      let mapping := mappingStore st l in
      match sourceObject with
      | VArr sourceArray => perform (mapArray (memberStore st) mapping sourceArray)
      | _ => perform (mapItem (memberStore st) mapping sourceObject)
      end
  end.

(** The two functions that curry. *)
Inductive Func : Type := CreateMap | Map.

(** [func.length] *)
Definition arity (func : Func) : nat :=
  match func with CreateMap => 2 | Map => 3 end.

(** What a call of [createMap] or [map] gives: a chain handle, a mapped
    value, or the function the curry adapter returns, which holds the
    array of the arguments given so far and the count still to come. *)
Inductive Result : Type :=
| Handle (mapping : loc)
| Mapped (v : Value)
| Curried (func : Func) (alreadyProvidedArgs : loc) (stillToCome : Z).

(** The loop of [accumulator]: each argument is put at the end of the
    array, and [stillToCome] goes down by one. *)
Fixpoint accumulate (moreArgs : list Value) (alreadyProvidedArgs : loc) (stillToCome : Z) : M Z :=
  match moreArgs with
  | [] => ret stillToCome
  | arg :: rest =>
      modify (fun st =>
        storeArguments alreadyProvidedArgs (argumentStore st alreadyProvidedArgs ++ [arg]) st);;
      accumulate rest alreadyProvidedArgs (stillToCome - 1)
  end.

(** [accumulator(moreArgs, alreadyProvidedArgs, stillToCome)]; [apply] is
    [func.apply(closure, _)].  The copies kept "to reset" are assigned to
    local variables after the call and are not modelled. *)
Definition accumulator (apply : list Value -> M Result) (func : Func)
  (moreArgs : list Value) (alreadyProvidedArgs : loc) (stillToCome : Z) : M Result :=
  stillToCome' ← accumulate moreArgs alreadyProvidedArgs stillToCome;
  if (stillToCome' - Z.of_nat (length moreArgs) <=? 0)%Z
  then args ← gets (fun st => argumentStore st alreadyProvidedArgs);
       apply args
  else ret (Curried func alreadyProvidedArgs stillToCome').

(** [handleCurrying(func, args, closure)] *)
Definition handleCurrying (apply : list Value -> M Result) (func : Func)
  (args : list Value) : M Result :=
  let argumentsStillToCome := (Z.of_nat (arity func) - Z.of_nat (length args))%Z in
  argumentsCopy ← alloc allocArguments args;
  accumulator apply func [] argumentsCopy argumentsStillToCome.

(** The body of [createMap] or [map] past the test for currying, on the
    arguments it was given.  The keys are strings. *)
Definition body (func : Func) (args : list Value) : M Result :=
  match func, args with
  | CreateMap, VStr sourceKey :: VStr destinationKey :: _ =>
      mapping ← createMap sourceKey destinationKey;
      ret (Handle mapping)
  | Map, VStr sourceKey :: VStr destinationKey :: sourceObject :: _ =>
      v ← map sourceKey destinationKey sourceObject;
      ret (Mapped v)
  | _, _ => throw TypeError
  end.

(** A call of [createMap] or [map] with any number of arguments:
    [if (arguments.length < this.f.length) return this.handleCurrying(...)].
    [depth] bounds the nesting of calls. *)
Fixpoint call (depth : nat) (func : Func) (args : list Value) : M Result :=
  match depth with
  | O => throw StackExhausted
  | S depth' =>
      if (length args <? arity func)%nat
      then handleCurrying (call depth' func) func args
      else body func args
  end.

(** A call of the function the curry adapter returned:
    [accumulator(arguments, alreadyProvidedArgs.slice(0), stillToCome)]. *)
Definition invoke (depth : nat) (curried : Result) (moreArgs : list Value) : M Result :=
  match curried with
  | Curried func alreadyProvidedArgs stillToCome =>
      captured ← gets (fun st => argumentStore st alreadyProvidedArgs);
      copy ← alloc allocArguments captured;
      accumulator (call depth func) func moreArgs copy stillToCome
  | _ => throw TypeError
  end.

(** [f(s1)(s2)...(sn)]: the calls of a curried function in a row. *)
Fixpoint supply (depth : nat) (r : Result) (suffixes : list (list Value)) : M Result :=
  match suffixes with
  | [] => ret r
  | moreArgs :: rest => r' ← invoke depth r moreArgs; supply depth r' rest
  end.

(** The instance and the objects it refers to: all of the state but the
    argument arrays of the curry adapter. *)
Definition instanceOf (st : State) :=
  (profiles st, mappings st, mappingStore st, nextMapping st,
   memberStore st, nextMember st, calls st).

(** [r] is a function returned by the curry adapter for [func] that holds
    exactly the arguments [args]. *)
Definition captures (st : State) (r : Result) (func : Func) (args : list Value) : Prop :=
  exists l,
    r = Curried func l (Z.of_nat (arity func) - Z.of_nat (length args))
    /\ argumentStore st l = args
    /\ l < nextArguments st.

(** The suffixes given in a row reach [n] arguments with the last one and
    not before; [have] arguments are held already. *)
Fixpoint completes (n have : nat) (suffixes : list (list Value)) : Prop :=
  match suffixes with
  | [] => False
  | [moreArgs] => n <= have + length moreArgs
  | moreArgs :: rest =>
      have + length moreArgs < n /\ completes n (have + length moreArgs) rest
  end.

End AutoMapper.

(** ** Configurations used in the examples *)

Module Scenarios.

Import AutoMapper.

(** [function (opts) { opts.ignore(); }] *)
Definition ignoreFunction : MemberFunction :=
  {| functionName := "opts => opts.ignore()";
     functionApply := fun _ => ([CallIgnore], Ok VUndefined) |}.

(** [function (opts) { opts.mapFrom(name); }] *)
Definition mapFromFunction (name : string) : MemberFunction :=
  {| functionName := "opts => opts.mapFrom(" +:+ name +:+ ")";
     functionApply := fun _ => ([CallMapFrom name], Ok VUndefined) |}.

(** [function (opts) { }] *)
Definition emptyFunction : MemberFunction :=
  {| functionName := "opts => {}";
     functionApply := fun _ => ([], Ok VUndefined) |}.

(** [function (opts) { throw 'no'; }] *)
Definition throwingFunction : MemberFunction :=
  {| functionName := "opts => { throw 'no'; }";
     functionApply := fun _ => ([], Throw (UserError (VStr "no"))) |}.

(** [function (ctx) { return { fixed: true }; }] *)
Definition fixedConverter : Converter :=
  {| converterName := "ctx => ({fixed: true})";
     parameters := 1;
     convert := fun _ => Ok (VObj None [("fixed", VBool true)]) |}.

(** [function (ctx) { return ctx.sourceValue; }] *)
Definition sourceConverter : Converter :=
  {| converterName := "ctx => ctx.sourceValue";
     parameters := 1;
     convert := fun ctx => Ok (sourceValue ctx) |}.

Definition Person : TypeClass :=
  {| className := "Person"; construct := Ok (VObj (Some "Person") []) |}.

Definition CamelCaseToPascalCase : Profile :=
  {| profileName := "CamelCaseToPascalCase";
     sourceMemberNamingConvention := Some CamelCaseNamingConvention;
     destinationMemberNamingConvention := Some PascalCaseNamingConvention;
     configure := [] |}.

Definition PascalCaseToCamelCase : Profile :=
  {| profileName := "PascalCaseToCamelCase";
     sourceMemberNamingConvention := Some PascalCaseNamingConvention;
     destinationMemberNamingConvention := Some CamelCaseNamingConvention;
     configure := [("a", "b", [])] |}.

(** The state a configuration leaves, started on a new instance. *)
Definition after {A : Type} (c : M A) : State := snd (c initial).

(** [createMap('a', 'b').forSourceMember('p', opts => opts.ignore())] *)
Definition sourceMemberIgnored : M loc :=
  h ← createMap "a" "b";
  createMapForSourceMember h "p" (Function ignoreFunction).

(** [createMap('a', 'b').forMember('p', opts => opts.ignore())
      .forSourceMember('p', opts => {})] *)
Definition sourceMemberAfterIgnore : M loc :=
  h ← createMap "a" "b";
  h ← createMapForMember h "p" (Function ignoreFunction);
  createMapForSourceMember h "p" (Function emptyFunction).

(** [createMap('a', 'b').forMember('p', opts => opts.ignore())] *)
Definition memberIgnoredP : M loc :=
  h ← createMap "a" "b";
  createMapForMember h "p" (Function ignoreFunction).

(** [createMap('ab', 'c').forMember('x', 1)] *)
Definition registerAbC : M loc :=
  h ← createMap "ab" "c";
  createMapForMember h "x" (Literal (VNum 1)).

(** [createMap('a', 'b').forMember('x', opts => opts.ignore())] *)
Definition memberIgnored : M loc :=
  h ← createMap "a" "b";
  createMapForMember h "x" (Function ignoreFunction).

(** [createMap('a', 'b').forMember('x', 1).convertUsing(ctx => ({fixed: true}))] *)
Definition convertedFixed : M unit :=
  h ← createMap "a" "b";
  h ← createMapForMember h "x" (Literal (VNum 1));
  createMapConvertUsing h (ConverterFunctionOrClass fixedConverter (Ok None)).

(** [createMap('a', 'b').convertUsing(ctx => ctx.sourceValue)] *)
Definition convertedToSource : M unit :=
  h ← createMap "a" "b";
  createMapConvertUsing h (ConverterFunctionOrClass sourceConverter (Ok None)).

(** [createMap('a', 'b').forMember('x', 1).convertToType(Person)] *)
Definition typedPerson : M loc :=
  h ← createMap "a" "b";
  h ← createMapForMember h "x" (Literal (VNum 1));
  createMapConvertToType h Person.

(** A profile that maps [b] to [x] and [c] to [y], and a definition that
    maps [a] to [x] and [b] to [y]. *)
Definition crossing : Profile :=
  {| profileName := "P";
     sourceMemberNamingConvention := None;
     destinationMemberNamingConvention := None;
     configure :=
       [("S", "D", [ForMember "x" (Function (mapFromFunction "b"));
                    ForMember "y" (Function (mapFromFunction "c"))])] |}.

Definition crossingDeclared : M loc :=
  addProfile crossing;;
  h ← createMap "S" "D";
  h ← createMapForMember h "x" (Function (mapFromFunction "a"));
  createMapForMember h "y" (Function (mapFromFunction "b")).

Definition crossingMerged : M loc :=
  h ← crossingDeclared;
  createMapWithProfile h "P";;
  ret h.

(** A profile that maps [b] to [x], and a definition that maps [a] to [x]. *)
Definition renaming : Profile :=
  {| profileName := "R";
     sourceMemberNamingConvention := None;
     destinationMemberNamingConvention := None;
     configure := [("S", "D", [ForMember "x" (Function (mapFromFunction "b"))])] |}.

Definition renamingDeclared : M loc :=
  addProfile renaming;;
  h ← createMap "S" "D";
  createMapForMember h "x" (Function (mapFromFunction "a")).

End Scenarios.
Import Scenarios.

(** ** The configuration object of [initialize], and the base class of the converters *)

Module Configuration.

(** A configuration function is given by the calls it makes on the
    configuration object: it adds a profile, or creates a map and chains
    calls on the handle. *)
Inductive ConfigurationCall : Type :=
| ConfigAddProfile (profile : Profile)
| ConfigCreateMap (sourceKey destinationKey : string) (calls : list ChainCall).

(** [initialize(configFunction)]: the calls of the configuration function
    one after the other; what one of them raises ends it. *)
Definition initialize (configFunction : list ConfigurationCall) : M unit :=
  forEach (fun call =>
             match call with
             | ConfigAddProfile profile => addProfile profile
             | ConfigCreateMap sourceKey destinationKey calls =>
                 h ← createMap sourceKey destinationKey;
                 chain h calls
             end)
          configFunction.

(** [TypeConverter.prototype.convert], the member an instance of the base
    class has: a function of one parameter that raises. *)
Definition TypeConverter_convert : Converter :=
  {| converterName := "TypeConverter.prototype.convert";
     parameters := 1;
     convert := fun _ =>
       Throw (UserError (VStr "The TypeConverter.convert method is abstract. Use a TypeConverter extension class instead.")) |}.

End Configuration.
Export Configuration.

(** ** The parameter names of a function

    [getFunctionParameters] works on the text of a function.  Texts are
    lists of code units below 256. *)

Module FunctionParameters.

(** The line terminators, which [.] does not match and before which [$]
    matches under the flag [m]. *)
Definition lineTerminator (c : ascii) : bool :=
  Ascii.eqb c "010" || Ascii.eqb c "013".

(** [\s] *)
Definition whiteSpace (c : ascii) : bool :=
  let n := nat_of_ascii c in
  ((9 <=? n)%nat && (n <=? 13)%nat) || (n =? 32)%nat || (n =? 160)%nat.

(** [.*$]: the characters up to the end of the line. *)
Fixpoint lineLength (s : list ascii) : nat :=
  match s with
  | [] => 0
  | c :: rest => if lineTerminator c then 0 else S (lineLength rest)
  end.

(** [[\s\S]*?\*\/]: the characters up to the first [*/], with it. *)
Fixpoint blockLength (s : list ascii) : option nat :=
  match s with
  | [] => None
  | c :: rest =>
      if Ascii.eqb c "*"
         && match rest with d :: _ => Ascii.eqb d "/" | [] => false end
      then Some 2
      else option_map S (blockLength rest)
  end.

(** /((\/\/.*$)|(\/\*[\s\S]*?\*\/))/mg matched at the start of [s]: the
    length of the match, if there is one. *)
Definition stripComments (s : list ascii) : option nat :=
  match s with
  | c :: d :: rest =>
      if Ascii.eqb c "/" && Ascii.eqb d "/" then Some (2 + lineLength rest)
      else if Ascii.eqb c "/" && Ascii.eqb d "*"
           then option_map (fun n => 2 + n) (blockLength rest)
           else None
  | _ => None
  end.

(** [s.replace(stripComments, '')]: every match is left out, and the
    search goes on after it; [skip] is the number of characters of the
    current match still to leave out. *)
Fixpoint replaceComments (skip : nat) (s : list ascii) : list ascii :=
  match s with
  | [] => []
  | c :: rest =>
      match skip with
      | S skip' => replaceComments skip' rest
      | O =>
          match stripComments s with
          | Some (S skip') => replaceComments skip' rest
          | _ => c :: replaceComments 0 rest
          end
      end
  end.

(** [s.indexOf(c)], counted from [from]; -1 when [c] does not occur. *)
Fixpoint indexOf (c : ascii) (s : list ascii) (from : nat) : Z :=
  match s with
  | [] => (-1)%Z
  | a :: rest => if Ascii.eqb a c then Z.of_nat from else indexOf c rest (S from)
  end.

(** [s.slice(start, end)]: a negative index counts from the end. *)
Definition slice (s : list ascii) (start finish : Z) : list ascii :=
  let len := Z.of_nat (length s) in
  let from := if (start <? 0)%Z then Z.max (len + start) 0 else Z.min start len in
  let to := if (finish <? 0)%Z then Z.max (len + finish) 0 else Z.min finish len in
  take (Z.to_nat (Z.max (to - from) 0)) (drop (Z.to_nat from) s).

(** /([^\s,]+)/g *)
Definition argumentNameChar (c : ascii) : bool :=
  negb (whiteSpace c || Ascii.eqb c ",").

Definition matched (current : list ascii) : list string :=
  match current with
  | [] => []
  | _ :: _ => [string_of_list_ascii current]
  end.

(** [s.match(argumentNames)], [null] being the empty list: the runs of
    characters that are neither white space nor commas; [current] is the
    run being read. *)
Fixpoint argumentNames (current : list ascii) (s : list ascii) : list string :=
  match s with
  | [] => matched current
  | c :: rest =>
      if argumentNameChar c then argumentNames (current ++ [c]) rest
      else matched current ++ argumentNames [] rest
  end.

(** [getFunctionParameters(func)], on the text [func.toString()]. *)
Definition getFunctionParameters (functionText : string) : list string :=
  let functionString := replaceComments 0 (list_ascii_of_string functionText) in
  argumentNames []
    (slice functionString
       (indexOf "(" functionString 0 + 1) (indexOf ")" functionString 0)).

End FunctionParameters.
Export FunctionParameters.

(** ** Property names on which the dictionaries of the model stand for the objects of the code

    The dictionaries of the code are plain objects.  [d[name]] also finds
    the members of [Object.prototype]; [d["__proto__"] = v] sets the
    prototype of [d] and adds no member; [d.hasOwnProperty] is the member of
    that name once [d] has one, and the guard of the loops over [d] then
    raises; [for (name in d)] visits the integer-like names first, in
    ascending order, whenever they were added.  The association lists of the
    model hold own members only, in insertion order.  The two agree on
    plain names, and a property that depends on how a dictionary is read,
    written or enumerated is stated for the names on which they agree: the
    hypothesis marks the inputs on which the model stands for the code. *)

Module PropertyNames.

(** The names of the members of [Object.prototype]. *)
Definition objectPrototypeMembers : list string :=
  ["constructor"; "hasOwnProperty"; "isPrototypeOf"; "propertyIsEnumerable";
   "toLocaleString"; "toString"; "valueOf"; "__proto__";
   "__defineGetter__"; "__defineSetter__"; "__lookupGetter__"; "__lookupSetter__"].

Definition objectPrototypeMember (name : string) : bool :=
  existsb (String.eqb name) objectPrototypeMembers.

(** A name made of decimal digits.  The names an object enumerates first
    (the canonical array indices) are among them. *)
Definition integerLike (name : string) : bool :=
  nonEmpty name && forallb digit (list_ascii_of_string name).

(** A plain name: neither the name of a member of [Object.prototype] nor
    integer-like. *)
Definition plainName (name : string) : bool :=
  negb (objectPrototypeMember name) && negb (integerLike name).

(** A name that the loops over a dictionary, [for (name in d)] guarded by
    [d.hasOwnProperty(name)], visit in the place the list has it. *)
Definition listedName (name : string) : bool :=
  negb (String.eqb name "hasOwnProperty") && negb (String.eqb name "__proto__")
  && negb (integerLike name).

(** A dictionary of member mappings with such names: the keys, and the
    source members of the member mappings (the keys they are installed
    under by [withProfile], and the members of the stubbed source object of
    [forMember]). *)
Definition listedNames (members : loc -> MemberMapping) (d : list (string * loc)) : bool :=
  forallb (fun entry => listedName (fst entry)
                        && listedName (sourceProperty (members (snd entry)))) d.

(** Members with plain names that are set under plain names. *)
Definition plainlyNamed (rename : string -> string) (fields : list (string * Value)) : bool :=
  forallb (fun entry => plainName (fst entry) && plainName (rename (fst entry))) fields.

(** A name of ASCII characters, on which the upper and lower case of the
    model are those of the code. *)
Definition asciiName (name : string) : bool :=
  forallb (fun c => (nat_of_ascii c <? 128)%nat) (list_ascii_of_string name).

Definition asciiNamed (fields : list (string * Value)) : bool :=
  forallb (fun entry => asciiName (fst entry)) fields.

(** A call that reads the dictionary by a name, [forSourceMember], is
    given a name that is not the name of a member of [Object.prototype]. *)
Definition readsOwnMember (call : ChainCall) : bool :=
  match call with
  | ForSourceMember sourceProperty _ => negb (objectPrototypeMember sourceProperty)
  | _ => true
  end.

End PropertyNames.
Export PropertyNames.

(** ** Notions used to state further properties *)

Module Notions.

(** The fields of a destination object after the members [fields] are set
    on it one after the other, each under the name [rename] gives it. *)
Definition setAll (rename : string -> string) (fields : list (string * Value))
  (destinationFields : list (string * Value)) : list (string * Value) :=
  fold_left (fun d entry => dict_set (rename (fst entry)) (snd entry) d)
    fields destinationFields.

(** The name a member without a member mapping is set under. *)
Definition automappedName (mapping : Mapping) (sourcePropertyName : string) : string :=
  match profile mapping with
  | Some assignedProfile =>
      match mapGetDestinationPropertyName assignedProfile sourcePropertyName with
      | Ok name => name
      | Throw _ => sourcePropertyName
      end
  | None => sourcePropertyName
  end.

(** Two stores of member mappings that differ on ignored ones only. *)
Definition agreeButIgnored (members1 members2 : loc -> MemberMapping) : Prop :=
  forall l, members1 l = members2 l
            \/ (ignore (members1 l) = true /\ ignore (members2 l) = true).

(** A handler that leaves the destination object as it finds it. *)
Definition inert (h : Handler) : Prop :=
  forall destination name v, handlerApply h destination name v = Ok destination.

(** The options object [mapProperty] starts the loop over the values and
    functions with. *)
Definition memberConfigurationOptions (sourceObject : Value) (sourcePropertyName : string)
  (sourceValue : Value) : Options :=
  {| Model.sourceObject := sourceObject;
     Model.sourcePropertyName := VStr sourcePropertyName;
     destinationPropertyValue := sourceValue |}.

(** The name [forMember(destinationProperty, opts => opts.mapFrom(sourceProperty))]
    gives the members of the source. *)
Definition mappedFrom (sourceProperty destinationProperty : string) (name : string) : string :=
  if String.eqb name sourceProperty then destinationProperty else name.

(** A letter of the ASCII alphabet or a digit. *)
Definition alphanumericChar (c : ascii) : bool := lower c || upper c || digit c.

(** A name made of letters and digits only. *)
Definition alphanumeric (name : string) : bool :=
  forallb alphanumericChar (list_ascii_of_string name).

(** The next character, if there is one, is not a lower-case letter:
    [capitalize] leaves a string that starts here as it is. *)
Definition notLowerAhead (rest : list ascii) : Prop :=
  match rest with
  | [] => True
  | a :: _ => lower a = false
  end.

(** A piece of a function text before its parameter list: no parenthesis
    and no slash. *)
Definition beforeParameters (text : string) : bool :=
  forallb (fun c => negb (Ascii.eqb c "/" || Ascii.eqb c "(" || Ascii.eqb c ")"))
    (list_ascii_of_string text).

(** A parameter name: not empty, and without white space, commas,
    parentheses and slashes. *)
Definition parameterName (name : string) : bool :=
  nonEmpty name
  && forallb (fun c => argumentNameChar c
                       && negb (Ascii.eqb c "/" || Ascii.eqb c "(" || Ascii.eqb c ")"))
       (list_ascii_of_string name).

(** [c] takes every state to one that [R] relates it to, however it
    completes. *)
Definition relates {A : Type} (R : State -> State -> Prop) (c : M A) : Prop :=
  forall st, R st (snd (c st)).

(** What [c] returns, when it returns, satisfies [P]. *)
Definition returns {A : Type} (P : A -> Prop) (c : M A) : Prop :=
  forall st a, fst (c st) = Ok a -> P a.

(** A change of a member mapping that keeps its destination member and
    does not take back that it is ignored. *)
Definition settled (f : MemberMapping -> MemberMapping) : Prop :=
  forall mm, destinationProperty (f mm) = destinationProperty mm
             /\ (ignore mm = true -> ignore (f mm) = true).

(** A change of a mapping object that keeps its two keys. *)
Definition keyed (f : Mapping -> Mapping) : Prop :=
  forall m, sourceKey (f m) = sourceKey m /\ destinationKey (f m) = destinationKey m.

(** Every entry of the registry is a mapping object that was created, and
    its key is made of the two keys the object holds. *)
Definition registered (st : State) : Prop :=
  forall key l,
    mappings st !! key = Some l ->
    l < nextMapping st
    /\ sourceKey (mappingStore st l) +:+ destinationKey (mappingStore st l) = key.

Definition keepsRegistered (st st' : State) : Prop :=
  registered st -> registered st'.

(** The member mappings there are stay; each keeps its destination member,
    and one that is ignored stays ignored. *)
Definition membersSettle (st st' : State) : Prop :=
  nextMember st <= nextMember st'
  /\ forall l, l < nextMember st ->
       destinationProperty (memberStore st' l) = destinationProperty (memberStore st l)
       /\ (ignore (memberStore st l) = true -> ignore (memberStore st' l) = true).

Definition sameProfiles (st st' : State) : Prop :=
  profiles st' = profiles st.

(** Of the registry, the profiles and the mapping objects, only the
    mapping object [target] has changed. *)
Definition onlyDefinition (target : loc) (st st' : State) : Prop :=
  mappings st' = mappings st
  /\ profiles st' = profiles st
  /\ nextMapping st' = nextMapping st
  /\ forall l, l <> target -> mappingStore st' l = mappingStore st l.

(** Of the member mappings and the mapping objects, only the member
    mapping [target] has changed. *)
Definition onlyMember (target : loc) (st st' : State) : Prop :=
  (forall l, l <> target -> memberStore st' l = memberStore st l)
  /\ mappingStore st' = mappingStore st
  /\ nextMember st' = nextMember st.

(** The member mappings of a dictionary were created. *)
Definition allocated (st : State) (d : list (string * loc)) : Prop :=
  forall key l, dict_get key d = Some l -> l < nextMember st.

(** The member mappings a dictionary holds. *)
Definition holds (d : list (string * loc)) (l : loc) : Prop :=
  exists key, In (key, l) d.

(** Of the member mappings there were, only those the definition [target]
    held have changed.  After [withProfile] a member mapping is held by two
    definitions, the staged one and the live one. *)
Definition onlyItsMembers (target : loc) (st st' : State) : Prop :=
  forall l,
    l < nextMember st ->
    ~ holds (forMemberMappings (mappingStore st target)) l ->
    memberStore st' l = memberStore st l.

(** Moreover the member mappings are still there, and the definition
    [target] holds, besides member mappings it held, new ones only. *)
Definition membersWithin (target : loc) (st st' : State) : Prop :=
  nextMember st <= nextMember st'
  /\ onlyItsMembers target st st'
  /\ forall l,
       holds (forMemberMappings (mappingStore st' target)) l ->
       holds (forMemberMappings (mappingStore st target)) l \/ nextMember st <= l.

(** No member mapping was changed or created. *)
Definition sameMembers (st st' : State) : Prop :=
  memberStore st' = memberStore st /\ nextMember st' = nextMember st.

(** Every profile is registered under its own name. *)
Definition profilesByName (st : State) : Prop :=
  forall name profile, profiles st !! name = Some profile -> profileName profile = name.

Definition keepsProfilesByName (st st' : State) : Prop :=
  profilesByName st -> profilesByName st'.

End Notions.
Export Notions.

(** * Properties *)

(** ** The monad *)

Ltac unfold_monad :=
  unfold mbind, mret, M_bind, M_ret, X_bind, X_ret, bind, ret, throw, gets, modify,
    alloc, bindX, retX, tell, result in *.

Lemma bind_ok {A B : Type} (c : M A) (k : A -> M B) (st st' : State) (a : A) :
  c st = (Ok a, st') -> (c ≫= k) st = k a st'.
Proof. intros H. unfold mbind, M_bind, bind. now rewrite H. Qed.

Lemma bind_throw {A B : Type} (c : M A) (k : A -> M B) (st st' : State) (e : Error) :
  c st = (Throw e, st') -> (c ≫= k) st = (Throw e, st').
Proof. intros H. unfold mbind, M_bind, bind. now rewrite H. Qed.

(** ** The registry *)

(** A pair whose concatenated key has no entry is not found, and the
    instance is left as it is. *)
Lemma map_key_absent (st : State) (sourceKey destinationKey : string) (sourceObject : Value) :
  mappings st !! (sourceKey +:+ destinationKey) = None ->
  AutoMapper.map sourceKey destinationKey sourceObject st
  = (Throw (MappingNotFound sourceKey destinationKey), st).
Proof.
  intros H. unfold AutoMapper.map. unfold_monad. simpl. now rewrite H.
Qed.

(** [createMap] registers a new mapping object under the concatenated key
    and leaves every other key as it is. *)
Lemma createMap_registers (st : State) (sourceKey destinationKey : string) :
  exists st',
    createMap sourceKey destinationKey st = (Ok (nextMapping st), st')
    /\ mappings st' = <[sourceKey +:+ destinationKey := nextMapping st]> (mappings st)
    /\ Model.sourceKey (mappingStore st' (nextMapping st)) = sourceKey
    /\ Model.destinationKey (mappingStore st' (nextMapping st)) = destinationKey
    /\ forMemberMappings (mappingStore st' (nextMapping st)) = []
    /\ (forall l, l <> nextMapping st -> mappingStore st' l = mappingStore st l).
Proof.
  eexists. unfold createMap. unfold_monad. simpl.
  repeat split; simpl; unfold update; try now rewrite Nat.eqb_refl.
  intros l Hl. apply Nat.eqb_neq in Hl. now rewrite Hl.
Qed.

(** Registering a pair leaves the entry of every pair with another
    concatenated key as it is. *)
Lemma createMap_other_key (st : State) (sourceKey destinationKey key : string) :
  key <> sourceKey +:+ destinationKey ->
  mappings (snd (createMap sourceKey destinationKey st)) !! key = mappings st !! key.
Proof.
  intros Hne.
  destruct (createMap_registers st sourceKey destinationKey) as (st' & Hrun & Hm & _).
  rewrite Hrun. simpl. rewrite Hm. now apply lookup_insert_ne.
Qed.

(** Registering a pair again replaces its entry by a new mapping object. *)
Lemma createMap_again (st : State) (sourceKey destinationKey : string) :
  mappings (snd (createMap sourceKey destinationKey st)) !! (sourceKey +:+ destinationKey)
  = Some (nextMapping st).
Proof.
  destruct (createMap_registers st sourceKey destinationKey) as (st' & Hrun & Hm & _).
  rewrite Hrun. simpl. rewrite Hm. apply lookup_insert_eq.
Qed.

(** C3: after [createMap('ab', 'c')] alone, [map('a', 'bc', _)] resolves that
    definition (both pairs have the key ['abc']), and a later
    [createMap('a', 'bc')] changes the definition [map('ab', 'c', _)]
    resolves: the two distinct pairs share one registry entry. *)
Theorem C3_distinct_pairs_share_an_entry :
  let source := VObj None [("x", VNum 0)] in
  map_to_list (mappings (after registerAbC)) = [("abc", 0)]
  /\ fst ((registerAbC;; AutoMapper.map "ab" "c" source) initial)
     = Ok (VObj None [("x", VNum 1)])
  /\ fst ((registerAbC;; AutoMapper.map "a" "bc" source) initial)
     = Ok (VObj None [("x", VNum 1)])
  /\ fst ((registerAbC;; createMap "a" "bc";; AutoMapper.map "ab" "c" source) initial)
     = Ok (VObj None [("x", VNum 0)]).
Proof. vm_compute. repeat split. Qed.

(** C4: after [createMap('ab', 'c')] alone the registry holds one
    definition, whose pair is [('ab', 'c')]; [map('a', 'bc', source)] is a
    call for a pair that was never registered, and it returns a value. *)
Theorem C4_unregistered_pair_is_mapped :
  let st := after (createMap "ab" "c") in
  let source := VObj None [("x", VNum 0)] in
  map_to_list (mappings st) = [("abc", 0)]
  /\ (sourceKey (mappingStore st 0), destinationKey (mappingStore st 0)) = ("ab", "c")
  /\ fst (AutoMapper.map "a" "bc" source st) = Ok source.
Proof. vm_compute. repeat split. Qed.

(** C2: [forSourceMember] leaves a function on an ignored member mapping:
    when its function ignores a member not seen before, the member mapping
    is created ignored and holding that function; and when the member was
    ignored by [forMember] before, a function that does not ignore is put
    on it. *)
Theorem C2_forSourceMember_fills_ignored_member :
  (let st := after sourceMemberIgnored in
   exists l, dict_get "p" (forMemberMappings (mappingStore st 0)) = Some l
     /\ ignore (memberStore st l) = true
     /\ mappingValuesAndFunctions (memberStore st l) = [Function ignoreFunction])
  /\
  (let before := after memberIgnoredP in
   let st := after sourceMemberAfterIgnore in
   exists l, dict_get "p" (forMemberMappings (mappingStore st 0)) = Some l
     /\ dict_get "p" (forMemberMappings (mappingStore before 0)) = Some l
     /\ ignore (memberStore before l) = true
     /\ mappingValuesAndFunctions (memberStore before l) = []
     /\ ignore (memberStore st l) = true
     /\ mappingValuesAndFunctions (memberStore st l) = [Function emptyFunction]).
Proof.
  split; exists 0; vm_compute; repeat split.
Qed.

(** ** The executor *)

Lemma bindX_ok {A B : Type} (c : X A) (k : A -> X B) (events : list Event) (a : A) :
  c = (events, Ok a) -> (c ≫= k) = (events ++ fst (k a), snd (k a)).
Proof. intros ->. unfold mbind, X_bind, bindX. now destruct (k a). Qed.

Lemma bindX_throw {A B : Type} (c : X A) (k : A -> X B) (events : list Event) (e : Error) :
  c = (events, Throw e) -> (c ≫= k) = (events, Throw e).
Proof. now intros ->. Qed.

Lemma mapItem_converter (members : loc -> MemberMapping) (mapping : Mapping)
  (converter : Converter) (sourceObject destination : Value) :
  typeConverterFunction mapping = Some converter ->
  constructs mapping destination ->
  let context := {| sourceValue := sourceObject; destinationValue := destination |} in
  mapItem members mapping sourceObject
  = (constructionCalls mapping ++ [Converted converter context],
     convert converter context).
Proof.
  intros H Hd context. subst context.
  unfold mapItem, constructs, constructionCalls in *. rewrite H.
  destruct (destinationTypeClass mapping); unfold_monad; simpl.
  - rewrite Hd. simpl. now destruct (convert converter _).
  - subst destination. now destruct (convert converter _).
Qed.

Lemma mapItem_no_properties (members : loc -> MemberMapping) (mapping : Mapping)
  (sourceObject destination : Value) :
  typeConverterFunction mapping = None ->
  constructs mapping destination ->
  ownProperties sourceObject = [] ->
  mapItem members mapping sourceObject = (constructionCalls mapping, Ok destination).
Proof.
  intros H Hd Hp. unfold mapItem, constructs, constructionCalls in *. rewrite H, Hp.
  destruct (destinationTypeClass mapping); unfold_monad; simpl.
  - now rewrite Hd.
  - now subst destination.
Qed.

(** When the destination class raises, so does [mapItem], and nothing
    else is called. *)
Lemma mapItem_construction_raises (members : loc -> MemberMapping) (mapping : Mapping)
  (typeClass : TypeClass) (sourceObject : Value) (e : Error) :
  destinationTypeClass mapping = Some typeClass ->
  construct typeClass = Throw e ->
  mapItem members mapping sourceObject = ([Constructed typeClass], Throw e).
Proof.
  intros H He. unfold mapItem. rewrite H. unfold_monad. simpl. now rewrite He.
Qed.

Lemma map_resolved_item (st : State) (sourceKey destinationKey : string) (l : loc)
  (sourceObject : Value) :
  mappings st !! (sourceKey +:+ destinationKey) = Some l ->
  isArray sourceObject = false ->
  AutoMapper.map sourceKey destinationKey sourceObject st
  = perform (mapItem (memberStore st) (mappingStore st l) sourceObject) st.
Proof.
  intros H Ha. unfold AutoMapper.map. unfold_monad. simpl. rewrite H.
  destruct sourceObject; try reflexivity. discriminate.
Qed.

Lemma map_resolved_array (st : State) (sourceKey destinationKey : string) (l : loc)
  (sourceArray : list Value) :
  mappings st !! (sourceKey +:+ destinationKey) = Some l ->
  AutoMapper.map sourceKey destinationKey (VArr sourceArray) st
  = perform (mapArray (memberStore st) (mappingStore st l) sourceArray) st.
Proof.
  intros H. unfold AutoMapper.map. unfold_monad. simpl. now rewrite H.
Qed.

(** C5: with a type converter set, [map] on a single input builds the
    destination (with the destination class if there is one, an empty
    object otherwise), calls the converter once, on the context made of the
    input and that destination, and gives back what the converter gives.
    No other user code is called, and nothing but the converter and the
    destination class of the definition matters: any definition with the
    same two gives the same. *)
Theorem C5_converter_bypasses_member_rules (st : State) (sourceKey destinationKey : string)
  (l : loc) (converter : Converter) (input destination : Value) :
  mappings st !! (sourceKey +:+ destinationKey) = Some l ->
  typeConverterFunction (mappingStore st l) = Some converter ->
  isArray input = false ->
  constructs (mappingStore st l) destination ->
  let mapping := mappingStore st l in
  let context := {| sourceValue := input; destinationValue := destination |} in
  AutoMapper.map sourceKey destinationKey input st
  = (convert converter context,
     record (constructionCalls mapping ++ [Converted converter context]) st)
  /\ (forall members' mapping',
        typeConverterFunction mapping' = Some converter ->
        destinationTypeClass mapping' = destinationTypeClass mapping ->
        mapItem members' mapping' input = mapItem (memberStore st) mapping input).
Proof.
  intros Hl Hc Ha Hd mapping context.
  split.
  - rewrite (map_resolved_item st _ _ l) by assumption.
    unfold perform. now rewrite (mapItem_converter _ _ converter _ destination).
  - intros members' mapping' Hc' Ht.
    assert (Hd' : constructs mapping' destination)
      by (unfold constructs in *; now rewrite Ht).
    rewrite (mapItem_converter _ _ converter _ destination) by assumption.
    rewrite (mapItem_converter _ mapping converter _ destination) by assumption.
    unfold constructionCalls. now rewrite Ht.
Qed.

Lemma C5_witness :
  let st := after convertedFixed in
  mappings st !! ("a" +:+ "b") = Some 0
  /\ typeConverterFunction (mappingStore st 0) = Some fixedConverter
  /\ isArray (VObj None [("x", VNum 5)]) = false
  /\ constructs (mappingStore st 0) (VObj None [])
  /\ AutoMapper.map "a" "b" (VObj None [("x", VNum 5)]) st
     = (Ok (VObj None [("fixed", VBool true)]),
        record [Converted fixedConverter
                  {| sourceValue := VObj None [("x", VNum 5)];
                     destinationValue := VObj None [] |}] st).
Proof.
  intros st.
  assert (H1 : mappings st !! ("a" +:+ "b") = Some 0) by (vm_compute; reflexivity).
  assert (H2 : typeConverterFunction (mappingStore st 0) = Some fixedConverter)
    by (vm_compute; reflexivity).
  assert (H3 : isArray (VObj None [("x", VNum 5)]) = false) by reflexivity.
  assert (H4 : constructs (mappingStore st 0) (VObj None [])) by (vm_compute; reflexivity).
  destruct (C5_converter_bypasses_member_rules st "a" "b" 0 fixedConverter
              (VObj None [("x", VNum 5)]) (VObj None []) H1 H2 H3 H4) as [Hr _].
  split; [exact H1|]. split; [exact H2|]. split; [exact H3|]. split; [exact H4|].
  rewrite Hr. reflexivity.
Defined.

(** The loop of [mapArray] keeps, after what it has already, the truthy
    results in the order of the elements. *)
Lemma mapArrayLoop_results (members : loc -> MemberMapping) (mapping : Mapping)
  (sourceArray results : list Value) :
  Forall2 (fun x r => snd (mapItem members mapping x) = Ok r) sourceArray results ->
  forall destinationArray,
    mapArrayLoop members mapping sourceArray destinationArray
    = (concat (List.map (fun x => fst (mapItem members mapping x)) sourceArray),
       Ok (destinationArray ++ List.filter truthy results)).
Proof.
  induction 1 as [|x r xs rs Hx _ IH]; intros acc; simpl.
  - now rewrite app_nil_r.
  - destruct (mapItem members mapping x) as [events o] eqn:E. simpl in Hx. subst o.
    rewrite (bindX_ok _ _ events r) by reflexivity.
    rewrite IH. simpl. f_equal. f_equal.
    destruct (truthy r); simpl; [now rewrite <- app_assoc | reflexivity].
Qed.

(** The first element that raises ends the loop with what it raised. *)
Lemma mapArrayLoop_raises (members : loc -> MemberMapping) (mapping : Mapping)
  (before : list Value) (x : Value) (rest results : list Value) (e : Error) :
  Forall2 (fun x r => snd (mapItem members mapping x) = Ok r) before results ->
  snd (mapItem members mapping x) = Throw e ->
  forall destinationArray,
    snd (mapArrayLoop members mapping (before ++ x :: rest) destinationArray) = Throw e.
Proof.
  induction 1 as [|y r ys rs Hy _ IH]; intros Hx acc; simpl.
  - destruct (mapItem members mapping x) as [events o]. simpl in Hx. now subst o.
  - destruct (mapItem members mapping y) as [events o] eqn:E. simpl in Hy. subst o.
    rewrite (bindX_ok _ _ events r) by reflexivity. simpl. now apply IH.
Qed.

Lemma filter_complement_length {A : Type} (f : A -> bool) (l : list A) :
  length (List.filter f l) = length l - length (List.filter (fun a => negb (f a)) l).
Proof.
  assert (H : length (List.filter f l) + length (List.filter (fun a => negb (f a)) l)
              = length l).
  { induction l as [|a l IH]; simpl; [reflexivity|].
    destruct (f a); simpl; lia. }
  lia.
Qed.

Lemma filter_sublist {A : Type} (f : A -> bool) (l : list A) :
  sublist (List.filter f l) l.
Proof.
  induction l as [|a l IH]; simpl; [constructor|].
  destruct (f a); now constructor.
Qed.

(** C6: for a collection input whose elements map to [results], one by
    one and in index order, [map] gives the new sequence of the results
    that are not falsy, in that order; its length is the number of elements
    minus the number of falsy results. *)
Theorem C6_collection_keeps_truthy_results_in_order (st : State)
  (sourceKey destinationKey : string) (l : loc) (sourceArray results : list Value) :
  mappings st !! (sourceKey +:+ destinationKey) = Some l ->
  Forall2 (fun x r => snd (mapItem (memberStore st) (mappingStore st l) x) = Ok r)
    sourceArray results ->
  let output := List.filter truthy results in
  fst (AutoMapper.map sourceKey destinationKey (VArr sourceArray) st) = Ok (VArr output)
  /\ length output
     = length sourceArray - length (List.filter (fun r => negb (truthy r)) results)
  /\ sublist output results
  /\ (forall r, In r output <-> In r results /\ truthy r = true)
  /\ snd (AutoMapper.map sourceKey destinationKey (VArr sourceArray) st)
     = record (concat (List.map
                 (fun x => fst (mapItem (memberStore st) (mappingStore st l) x))
                 sourceArray)) st.
Proof.
  intros Hl Hr output.
  rewrite (map_resolved_array st _ _ l) by assumption.
  unfold perform, mapArray.
  rewrite (bindX_ok _ _ _ _ (mapArrayLoop_results _ _ _ _ Hr [])). simpl.
  rewrite app_nil_r.
  split; [reflexivity|]. split; [|split; [|split; [|reflexivity]]].
  - subst output. rewrite filter_complement_length.
    now rewrite (Forall2_length _ _ _ Hr).
  - apply filter_sublist.
  - intros r. subst output. apply filter_In.
Qed.

Lemma C6_witness :
  let st := after convertedToSource in
  let sourceArray := [VNum 1; VNum 0; VStr "s"; VNull; VObj None []] in
  let results := [VNum 1; VNum 0; VStr "s"; VNull; VObj None []] in
  mappings st !! ("a" +:+ "b") = Some 0
  /\ Forall2 (fun x r => snd (mapItem (memberStore st) (mappingStore st 0) x) = Ok r)
       sourceArray results
  /\ fst (AutoMapper.map "a" "b" (VArr sourceArray) st)
     = Ok (VArr [VNum 1; VStr "s"; VObj None []]).
Proof.
  intros st sourceArray results.
  assert (H1 : mappings st !! ("a" +:+ "b") = Some 0) by (vm_compute; reflexivity).
  assert (H2 : Forall2
                 (fun x r => snd (mapItem (memberStore st) (mappingStore st 0) x) = Ok r)
                 sourceArray results)
    by (repeat constructor).
  destruct (C6_collection_keeps_truthy_results_in_order st "a" "b" 0
              sourceArray results H1 H2) as [Hr _].
  split; [exact H1|]. split; [exact H2|].
  rewrite Hr. reflexivity.
Defined.

(** C10: without a type converter, [map] on [null] or [undefined] does
    not raise: it gives the destination as the definition builds it (the
    instance of the destination class if there is one, an empty object
    otherwise), no member is set on it, and no user code but the
    construction is called. *)
Theorem C10_null_source_gives_bare_destination (st : State)
  (sourceKey destinationKey : string) (l : loc) (input destination : Value) :
  mappings st !! (sourceKey +:+ destinationKey) = Some l ->
  typeConverterFunction (mappingStore st l) = None ->
  input = VNull \/ input = VUndefined ->
  constructs (mappingStore st l) destination ->
  AutoMapper.map sourceKey destinationKey input st
  = (Ok destination, record (constructionCalls (mappingStore st l)) st).
Proof.
  intros Hl Hc Hi Hd.
  rewrite (map_resolved_item st _ _ l); [|assumption|now destruct Hi; subst].
  unfold perform.
  rewrite (mapItem_no_properties _ _ _ destination);
    [reflexivity|assumption|assumption|now destruct Hi; subst].
Qed.

Lemma C10_witness :
  let st := after typedPerson in
  mappings st !! ("a" +:+ "b") = Some 0
  /\ typeConverterFunction (mappingStore st 0) = None
  /\ (VNull = VNull \/ VNull = VUndefined)
  /\ constructs (mappingStore st 0) (VObj (Some "Person") [])
  /\ forMemberMappings (mappingStore st 0) = [("x", 0)]
  /\ AutoMapper.map "a" "b" VNull st
     = (Ok (VObj (Some "Person") []), record [Constructed Person] st).
Proof.
  intros st.
  assert (H1 : mappings st !! ("a" +:+ "b") = Some 0) by (vm_compute; reflexivity).
  assert (H2 : typeConverterFunction (mappingStore st 0) = None) by (vm_compute; reflexivity).
  assert (H3 : VNull = VNull \/ VNull = VUndefined) by (left; reflexivity).
  assert (H4 : constructs (mappingStore st 0) (VObj (Some "Person") []))
    by (vm_compute; reflexivity).
  pose proof (C10_null_source_gives_bare_destination st "a" "b" 0 VNull _ H1 H2 H3 H4)
    as Hr.
  split; [exact H1|]. split; [exact H2|]. split; [exact H3|]. split; [exact H4|].
  split; [vm_compute; reflexivity|].
  rewrite Hr. reflexivity.
Defined.

(** ** The curry adapter *)

Import AutoMapper.

Lemma update_eq {A : Type} (store : loc -> A) (l : loc) (a : A) :
  update store l a l = a.
Proof. unfold update. now rewrite Nat.eqb_refl. Qed.

Lemma update_ne {A : Type} (store : loc -> A) (l l' : loc) (a : A) :
  l' <> l -> update store l a l' = store l'.
Proof. intros H. unfold update. apply Nat.eqb_neq in H. now rewrite H. Qed.

(** The loop of [accumulator] puts the new arguments after those the
    array holds and touches nothing else. *)
Lemma accumulate_spec (moreArgs : list Value) :
  forall (l : loc) (stillToCome : Z) (st : State),
  exists st',
    accumulate moreArgs l stillToCome st
    = (Ok (stillToCome - Z.of_nat (length moreArgs))%Z, st')
    /\ argumentStore st' l = argumentStore st l ++ moreArgs
    /\ (forall l', l' <> l -> argumentStore st' l' = argumentStore st l')
    /\ instanceOf st' = instanceOf st
    /\ nextArguments st' = nextArguments st.
Proof.
  induction moreArgs as [|arg rest IH]; intros l still st.
  - exists st. simpl. unfold ret. rewrite Z.sub_0_r, app_nil_r. now repeat split.
  - destruct (IH l (still - 1)%Z
                (storeArguments l (argumentStore st l ++ [arg]) st))
      as (st' & Hrun & Hl & Hother & Hinst & Hnext).
    exists st'. split; [|split; [|split; [|split]]].
    + cbn [accumulate]. unfold mbind, M_bind, bind, modify. rewrite Hrun.
      do 2 f_equal. rewrite length_cons. lia.
    + rewrite Hl. simpl. rewrite update_eq. now rewrite <- app_assoc.
    + intros l' Hne. rewrite (Hother l' Hne). simpl. now apply update_ne.
    + now rewrite Hinst.
    + now rewrite Hnext.
Qed.

Lemma map_unfold (sourceKey destinationKey : string) (sourceObject : Value) (st : State) :
  AutoMapper.map sourceKey destinationKey sourceObject st
  = match mappings st !! (sourceKey +:+ destinationKey) with
    | None => (Throw (MappingNotFound sourceKey destinationKey), st)
    | Some l =>
        perform (match sourceObject with
                 | VArr sourceArray =>
                     mapArray (memberStore st) (mappingStore st l) sourceArray
                 | _ => mapItem (memberStore st) (mappingStore st l) sourceObject
                 end) st
    end.
Proof.
  unfold AutoMapper.map. unfold_monad. simpl.
  destruct (mappings st !! (sourceKey +:+ destinationKey)); [|reflexivity].
  now destruct sourceObject.
Qed.

(** Past the test for currying, a call depends on the instance only and
    leaves the argument arrays as they are. *)
Lemma body_frame (func : Func) (args : list Value) (st1 st2 : State) :
  instanceOf st1 = instanceOf st2 ->
  fst (body func args st1) = fst (body func args st2)
  /\ instanceOf (snd (body func args st1)) = instanceOf (snd (body func args st2))
  /\ argumentStore (snd (body func args st1)) = argumentStore st1
  /\ nextArguments (snd (body func args st1)) = nextArguments st1.
Proof.
  intros H. destruct st1, st2. unfold instanceOf in H. simpl in H.
  injection H as -> -> -> -> -> -> ->.
  unfold body.
  destruct func;
    repeat match goal with
      | |- context [match ?x with _ => _ end] => is_var x; destruct x
      end;
    try (now repeat split).
  unfold mbind, M_bind, bind. rewrite !map_unfold. simpl.
  match goal with |- context [?m !! ?k] => destruct (m !! k) end;
    [|now repeat split].
  unfold perform. simpl.
  match goal with |- context [snd ?x] => destruct (snd x) end; now repeat split.
Qed.

Lemma call_full (depth : nat) (func : Func) (args : list Value) :
  arity func <= length args ->
  call (S depth) func args = body func args.
Proof.
  intros H. simpl. apply Nat.ltb_ge in H. now rewrite H.
Qed.

(** A call with fewer arguments than the arity returns a function that
    holds a copy of them. *)
Lemma call_partial (depth : nat) (func : Func) (args : list Value) (st : State) :
  length args < arity func ->
  exists st',
    call (S depth) func args st
    = (Ok (Curried func (nextArguments st)
             (Z.of_nat (arity func) - Z.of_nat (length args))), st')
    /\ argumentStore st' (nextArguments st) = args
    /\ (forall l, l <> nextArguments st -> argumentStore st' l = argumentStore st l)
    /\ nextArguments st' = S (nextArguments st)
    /\ instanceOf st' = instanceOf st.
Proof.
  intros H. eexists. split.
  - simpl. pose proof H as Hlt. apply Nat.ltb_lt in Hlt. rewrite Hlt.
    unfold handleCurrying, accumulator. unfold_monad. simpl.
    rewrite Z.sub_0_r.
    destruct (Z.leb_spec (Z.of_nat (arity func) - Z.of_nat (length args)) 0); [lia|].
    reflexivity.
  - simpl. rewrite update_eq. repeat split.
    intros l Hl. now apply update_ne.
Qed.

(** Calling the returned function with arguments that reach the arity is
    the direct call on all the arguments; the arrays that existed are left
    as they were. *)
Lemma invoke_completing (depth : nat) (func : Func) (l : loc)
  (prefix suffix : list Value) (st : State) :
  argumentStore st l = prefix ->
  arity func <= length prefix + length suffix ->
  let curried := Curried func l (Z.of_nat (arity func) - Z.of_nat (length prefix)) in
  let r := invoke (S depth) curried suffix st in
  let direct := call (S depth) func (prefix ++ suffix) st in
  fst r = fst direct
  /\ instanceOf (snd r) = instanceOf (snd direct)
  /\ (forall l0, l0 < nextArguments st -> argumentStore (snd r) l0 = argumentStore st l0)
  /\ nextArguments st <= nextArguments (snd r).
Proof.
  intros Hl Hlen curried r direct. subst curried r direct.
  unfold invoke, accumulator. unfold mbind, M_bind, bind, gets, alloc.
  rewrite Hl.
  destruct (allocArguments prefix st) as [copy st1] eqn:Ealloc.
  injection Ealloc as <- <-.
  destruct (accumulate_spec suffix (nextArguments st)
              (Z.of_nat (arity func) - Z.of_nat (length prefix))
              (snd (allocArguments prefix st)))
    as (st2 & Hrun & Hcopy & Hother & Hinst & Hnext).
  simpl in Hrun. rewrite Hrun.
  destruct (Z.leb_spec
              (Z.of_nat (arity func) - Z.of_nat (length prefix)
               - Z.of_nat (length suffix) - Z.of_nat (length suffix)) 0); [|lia].
  simpl in Hcopy. rewrite update_eq in Hcopy. rewrite Hcopy.
  assert (Hfull : arity func <= length (prefix ++ suffix))
    by (rewrite length_app; lia).
  rewrite !call_full by assumption.
  destruct (body_frame func (prefix ++ suffix) st2 st Hinst) as (H1 & H2 & H3 & H4).
  split; [exact H1|]. split; [exact H2|]. split.
  - intros l0 Hl0. rewrite H3. rewrite Hother by lia. simpl. apply update_ne. lia.
  - rewrite H4, Hnext. simpl. lia.
Qed.

(** Calling it with arguments that do not reach the arity returns a
    function that holds the arguments given so far; nothing else changes. *)
Lemma invoke_partial (depth : nat) (func : Func) (l : loc)
  (prefix suffix : list Value) (st : State) :
  argumentStore st l = prefix ->
  length prefix + length suffix < arity func ->
  let curried := Curried func l (Z.of_nat (arity func) - Z.of_nat (length prefix)) in
  exists r' st',
    invoke (S depth) curried suffix st = (Ok r', st')
    /\ captures st' r' func (prefix ++ suffix)
    /\ instanceOf st' = instanceOf st
    /\ (forall l0, l0 < nextArguments st -> argumentStore st' l0 = argumentStore st l0)
    /\ nextArguments st <= nextArguments st'.
Proof.
  intros Hl Hlen curried. subst curried.
  unfold invoke, accumulator. unfold mbind, M_bind, bind, gets, alloc.
  rewrite Hl.
  destruct (allocArguments prefix st) as [copy st1] eqn:Ealloc.
  injection Ealloc as <- <-.
  destruct (accumulate_spec suffix (nextArguments st)
              (Z.of_nat (arity func) - Z.of_nat (length prefix))
              (snd (allocArguments prefix st)))
    as (st2 & Hrun & Hcopy & Hother & Hinst & Hnext).
  simpl in Hrun. rewrite Hrun.
  simpl in Hcopy. rewrite update_eq in Hcopy.
  assert (Hstill : (Z.of_nat (arity func) - Z.of_nat (length prefix)
                    - Z.of_nat (length suffix)
                    = Z.of_nat (arity func) - Z.of_nat (length (prefix ++ suffix)))%Z)
    by (rewrite length_app; lia).
  destruct (Z.leb_spec
              (Z.of_nat (arity func) - Z.of_nat (length prefix)
               - Z.of_nat (length suffix) - Z.of_nat (length suffix)) 0).
  - (* the test of [accumulator] passes early: [func] is called, and curries *)
    rewrite Hcopy.
    destruct (call_partial depth func (prefix ++ suffix) st2)
      as (st3 & Hcall & Hnew & Hold & Hnext3 & Hinst3);
      [rewrite length_app; lia|].
    exists (Curried func (nextArguments st2)
              (Z.of_nat (arity func) - Z.of_nat (length (prefix ++ suffix)))), st3.
    split; [exact Hcall|]. split; [|split; [|split]].
    + exists (nextArguments st2). split; [reflexivity|]. split; [exact Hnew|]. lia.
    + now rewrite Hinst3, Hinst.
    + intros l0 Hl0. simpl in Hnext. rewrite Hold by lia. rewrite Hother by lia.
      simpl. apply update_ne. lia.
    + simpl in Hnext. lia.
  - exists (Curried func (nextArguments st)
              (Z.of_nat (arity func) - Z.of_nat (length prefix)
               - Z.of_nat (length suffix))), st2.
    split; [reflexivity|]. split; [|split; [|split]].
    + exists (nextArguments st). rewrite Hstill. split; [reflexivity|].
      split; [exact Hcopy|]. simpl in Hnext. lia.
    + exact Hinst.
    + intros l0 Hl0. rewrite Hother by lia. simpl. apply update_ne. lia.
    + simpl in Hnext. lia.
Qed.

Lemma completes_total (n : nat) (suffixes : list (list Value)) :
  forall have, completes n have suffixes -> n <= have + length (concat suffixes).
Proof.
  induction suffixes as [|s rest IH]; intros have H; [contradiction|].
  destruct rest as [|s2 rest].
  - simpl in *. rewrite app_nil_r. exact H.
  - destruct H as [_ H]. apply IH in H.
    change (concat (s :: s2 :: rest)) with (s ++ concat (s2 :: rest)).
    rewrite length_app. lia.
Qed.

(** Arguments given in a row, reaching the arity with the last call only,
    give what the direct call on all of them gives. *)
Lemma supply_completes (depth : nat) (func : Func) (suffixes : list (list Value)) :
  forall (args : list Value) (r : Result) (st : State),
    captures st r func args ->
    completes (arity func) (length args) suffixes ->
    let curriedCall := supply (S depth) r suffixes st in
    let direct := call (S depth) func (args ++ concat suffixes) st in
    fst curriedCall = fst direct
    /\ instanceOf (snd curriedCall) = instanceOf (snd direct)
    /\ (forall l0, l0 < nextArguments st ->
          argumentStore (snd curriedCall) l0 = argumentStore st l0)
    /\ nextArguments st <= nextArguments (snd curriedCall).
Proof.
  induction suffixes as [|s rest IH]; intros args r st Hcap Hcomp; [contradiction|].
  destruct Hcap as (l & -> & Hl & Hlt).
  destruct rest as [|s2 rest].
  - simpl in Hcomp.
    destruct (invoke_completing depth func l args s st Hl Hcomp) as (H1 & H2 & H3 & H4).
    cbn [supply concat]. rewrite app_nil_r.
    unfold mbind, M_bind, bind.
    destruct (invoke (S depth) _ s st) as [[r'|e] st'] eqn:E; simpl in *;
      unfold ret; simpl; repeat split; assumption.
  - destruct Hcomp as [Hlen Hcomp].
    destruct (invoke_partial depth func l args s st Hl Hlen)
      as (r' & st' & Hrun & Hcap' & Hinst & Hold & Hnext).
    rewrite <- length_app in Hcomp.
    destruct (IH (args ++ s) r' st' Hcap' Hcomp) as (H1 & H2 & H3 & H4).
    assert (Hfull : arity func <= length ((args ++ s) ++ concat (s2 :: rest))).
    { apply completes_total in Hcomp. rewrite length_app. lia. }
    rewrite !call_full in * by assumption.
    destruct (body_frame func ((args ++ s) ++ concat (s2 :: rest)) st' st Hinst)
      as (F1 & F2 & _ & _).
    change (concat (s :: s2 :: rest)) with (s ++ concat (s2 :: rest)).
    rewrite app_assoc. rewrite call_full by assumption.
    cbn [supply]. unfold mbind, M_bind, bind. rewrite Hrun.
    cbn [supply] in H1, H2, H3, H4. unfold mbind, M_bind, bind in H1, H2, H3, H4.
    split; [now rewrite H1|]. split; [now rewrite H2|]. split.
    + intros l0 Hl0. rewrite H3 by lia. now apply Hold.
    + lia.
Qed.

(** C7: [createMap] and [map] called with fewer arguments than their arity
    return a function that holds the arguments given (and register or map
    nothing yet).  Whenever that function holds them, giving it the
    remaining arguments, in one call or in several, gives the result and
    the instance that the direct call on all the arguments gives; and it
    holds the same arguments afterwards, so it can be used again with other
    arguments, which the arguments of this use do not reach. *)
Theorem C7_currying (depth : nat) (func : Func) (prefix : list Value) (st : State) :
  length prefix < arity func ->
  exists curried st1,
    call (S depth) func prefix st = (Ok curried, st1)
    /\ captures st1 curried func prefix
    /\ instanceOf st1 = instanceOf st
    /\ forall st2 suffixes,
         captures st2 curried func prefix ->
         completes (arity func) (length prefix) suffixes ->
         let curriedCall := supply (S depth) curried suffixes st2 in
         let direct := call (S depth) func (prefix ++ concat suffixes) st2 in
         fst curriedCall = fst direct
         /\ instanceOf (snd curriedCall) = instanceOf (snd direct)
         /\ captures (snd curriedCall) curried func prefix.
Proof.
  intros Hlen.
  destruct (call_partial depth func prefix st Hlen)
    as (st1 & Hcall & Hnew & Hold & Hnext & Hinst).
  eexists _, st1. split; [exact Hcall|]. split; [|split; [exact Hinst|]].
  - exists (nextArguments st). split; [reflexivity|]. split; [exact Hnew|]. lia.
  - intros st2 suffixes Hcap Hcomp.
    destruct (supply_completes depth func suffixes prefix _ st2 Hcap Hcomp)
      as (H1 & H2 & H3 & H4).
    split; [exact H1|]. split; [exact H2|].
    destruct Hcap as (l & Hr & Hl & Hlt).
    exists l. split; [exact Hr|]. split; [|lia].
    now rewrite H3.
Qed.

Lemma C7_witness :
  length [VStr "a"] < arity CreateMap
  /\ exists curried st1,
       call 1 CreateMap [VStr "a"] initial = (Ok curried, st1)
       /\ captures st1 curried CreateMap [VStr "a"]
       /\ instanceOf st1 = instanceOf initial
       /\ forall st2 suffixes,
            captures st2 curried CreateMap [VStr "a"] ->
            completes (arity CreateMap) (length [VStr "a"]) suffixes ->
            let curriedCall := supply 1 curried suffixes st2 in
            let direct := call 1 CreateMap ([VStr "a"] ++ concat suffixes) st2 in
            fst curriedCall = fst direct
            /\ instanceOf (snd curriedCall) = instanceOf (snd direct)
            /\ captures (snd curriedCall) curried CreateMap [VStr "a"].
Proof.
  assert (H : length [VStr "a"] < arity CreateMap) by (simpl; lia).
  split; [exact H|].
  exact (C7_currying 0 CreateMap [VStr "a"] initial H).
Defined.

(** [createMap(a)(b)] and [createMap(a, b)]; [map(a)(b)(c)], [map(a)(b, c)],
    [map(a, b)(c)] and [map(a, b, c)]; one curried function used twice. *)
Example currying_examples :
  let source := VObj None [("x", VNum 0)] in
  let mapped := Ok (Mapped (VObj None [("x", VNum 1)])) in
  let curriedCreateMap := (registerAbC;; call 1 CreateMap [VStr "a"]) in
  let curriedMap := (registerAbC;; call 1 Map [VStr "ab"]) in
  fst ((f ← curriedCreateMap; supply 1 f [[VStr "b"]]) initial) = Ok (Handle 1)
  /\ fst ((registerAbC;; call 1 CreateMap [VStr "a"; VStr "b"]) initial) = Ok (Handle 1)
  /\ fst ((f ← curriedMap; supply 1 f [[VStr "c"]; [source]]) initial) = mapped
  /\ fst ((f ← curriedMap; supply 1 f [[VStr "c"; source]]) initial) = mapped
  /\ fst ((registerAbC;; f ← call 1 Map [VStr "ab"; VStr "c"]; supply 1 f [[source]])
            initial) = mapped
  /\ fst ((registerAbC;; call 1 Map [VStr "ab"; VStr "c"; source]) initial) = mapped
  /\ fst ((f ← curriedMap;
           r1 ← supply 1 f [[VStr "c"; source]];
           r2 ← supply 1 f [[VStr "c"]; [VObj None [("y", VNum 2)]]];
           ret (r1, r2)) initial)
     = Ok (Mapped (VObj None [("x", VNum 1)]), Mapped (VObj None [("y", VNum 2)]))
  /\ fst ((f ← curriedCreateMap;
           h1 ← supply 1 f [[VStr "b"]];
           h2 ← supply 1 f [[VStr "c"]];
           st ← gets id;
           ret (h1, h2, mappings st !! "ab", mappings st !! "ac")) initial)
     = Ok (Handle 1, Handle 2, Some 1, Some 2).
Proof. vm_compute. repeat split. Qed.

(** ** Naming conventions *)

(** The loop that removes the empty parts is a filter. *)
Lemma removeEmptyParts_prefix (n : nat) :
  forall parts : list string,
    n <= length parts ->
    removeEmptyParts n parts = List.filter nonEmpty (take n parts) ++ drop n parts.
Proof.
  induction n as [|index IH]; intros parts Hn; [reflexivity|].
  destruct (lookup_lt_is_Some_2 parts index ltac:(lia)) as [part Hpart].
  cbn [removeEmptyParts]. rewrite Hpart.
  rewrite (take_S_r _ _ _ Hpart), List.filter_app. cbn [List.filter]. unfold nonEmpty at 2.
  destruct (String.eqb part "") eqn:E; cbn [negb].
  - rewrite IH by (unfold splice1; rewrite length_app, length_take, length_drop; lia).
    unfold splice1. rewrite take_app_le by (rewrite length_take; lia).
    rewrite take_take, Nat.min_id.
    rewrite drop_app_length' by (rewrite length_take; lia).
    now rewrite app_nil_r.
  - rewrite IH by lia. rewrite (drop_S _ _ _ Hpart). now rewrite <- app_assoc.
Qed.

Lemma removeEmptyParts_filter (parts : list string) :
  removeEmptyParts (length parts) parts = List.filter nonEmpty parts.
Proof.
  rewrite removeEmptyParts_prefix by lia.
  now rewrite firstn_all, drop_all, app_nil_r.
Qed.

(** The name [mapGetDestinationPropertyName] computes when nothing raises. *)
Lemma mapGetDestinationPropertyName_transformed (profile : Profile) (name : string)
  (sourceConvention destinationConvention : NamingConvention) :
  sourceMemberNamingConvention profile = Some sourceConvention ->
  destinationMemberNamingConvention profile = Some destinationConvention ->
  mapGetDestinationPropertyName profile name
  = match transformPropertyName destinationConvention
            (List.filter nonEmpty (split name (splittingExpression sourceConvention))) with
    | Ok transformed => Ok transformed
    | Throw _ => Ok name
    end.
Proof.
  intros Hs Hd. unfold mapGetDestinationPropertyName. rewrite Hs, Hd.
  now rewrite removeEmptyParts_filter.
Qed.

Lemma mapGetDestinationPropertyName_returns (profile : Profile) (name : string) :
  exists destinationName, mapGetDestinationPropertyName profile name = Ok destinationName.
Proof.
  unfold mapGetDestinationPropertyName.
  match goal with |- context [match ?attempt with Ok _ => _ | Throw _ => _ end] =>
    destruct attempt end; eauto.
Qed.



(** The two conversions of the tests, through the interface. *)
Example naming_convention_examples :
  fst ((addProfile CamelCaseToPascalCase;;
        h ← createMap "CamelCase2" "PascalCase2";
        createMapWithProfile h "CamelCaseToPascalCase";;
        AutoMapper.map "CamelCase2" "PascalCase2"
          (VObj None [("fullName", VStr "John Doe")])) initial)
  = Ok (VObj None [("FullName", VStr "John Doe")])
  /\ fst ((addProfile PascalCaseToCamelCase;;
           h ← createMap "PascalCase" "CamelCase";
           createMapWithProfile h "PascalCaseToCamelCase";;
           AutoMapper.map "PascalCase" "CamelCase"
             (VObj None [("FullName", VStr "John Doe")])) initial)
     = Ok (VObj None [("fullName", VStr "John Doe")])
  /\ split "fullName" camelCaseExpression = [""; "full"; ""; "Name"; ""]
  /\ split "HTMLParser9x" pascalCaseExpression = [""; "HTML"; ""; "Parser9x"; ""].
Proof. vm_compute. repeat split. Qed.


(** ** [forMember] *)

Lemma dict_get_set_eq {V : Type} (k : string) (v : V) (d : list (string * V)) :
  dict_get k (dict_set k v d) = Some v.
Proof.
  induction d as [|[k' v'] d IH]; simpl.
  - now rewrite String.eqb_refl.
  - destruct (String.eqb k k') eqn:E; simpl; rewrite E; [reflexivity|exact IH].
Qed.

Lemma dict_get_set_ne {V : Type} (k k0 : string) (v : V) (d : list (string * V)) :
  k0 <> k -> dict_get k0 (dict_set k v d) = dict_get k0 d.
Proof.
  intros Hne. induction d as [|[k' v'] d IH]; simpl.
  - apply String.eqb_neq in Hne. now rewrite Hne.
  - destruct (String.eqb k k') eqn:E; simpl.
    + apply String.eqb_eq in E. subst k'.
      apply String.eqb_neq in Hne. now rewrite Hne.
    + now rewrite IH.
Qed.

Lemma dict_get_delete_eq {V : Type} (k : string) (d : list (string * V)) :
  dict_get k (dict_delete k d) = None.
Proof.
  induction d as [|[k' v'] d IH]; simpl; [reflexivity|].
  destruct (String.eqb k k') eqn:E; simpl; [exact IH|now rewrite E].
Qed.

Lemma dict_get_delete_ne {V : Type} (k k0 : string) (d : list (string * V)) :
  k0 <> k -> dict_get k0 (dict_delete k d) = dict_get k0 d.
Proof.
  intros Hne. induction d as [|[k' v'] d IH]; simpl; [reflexivity|].
  destruct (String.eqb k k') eqn:E; simpl.
  - apply String.eqb_eq in E. subst k'.
    apply String.eqb_neq in Hne. now rewrite Hne.
  - now rewrite IH.
Qed.

Lemma forEach_declare (memberMapping : loc) (optionCalls : list OptionsCall) :
  forall st, exists st',
    forEach (fun call => mutateMember memberMapping (declare call)) optionCalls st
    = (Ok tt, st')
    /\ memberStore st' memberMapping = declared optionCalls (memberStore st memberMapping)
    /\ calls st' = calls st.
Proof.
  induction optionCalls as [|call rest IH]; intros st.
  - exists st. now repeat split.
  - destruct (IH (storeMember memberMapping (declare call (memberStore st memberMapping)) st))
      as (st' & Hrun & Hmember & Hcalls).
    exists st'. split; [|split].
    + cbn [forEach]. unfold mbind, M_bind, bind, mutateMember, modify. exact Hrun.
    + rewrite Hmember. simpl. now rewrite update_eq.
    + exact Hcalls.
Qed.

(** What the calls of the dry run leave of the value/function sequence,
    the ignore flag and the destination property. *)
Lemma declared_fields (optionCalls : list OptionsCall) :
  forall memberMapping,
    destinationProperty (declared optionCalls memberMapping)
    = destinationProperty memberMapping
    /\ (existsb isIgnore optionCalls = false ->
        mappingValuesAndFunctions (declared optionCalls memberMapping)
        = mappingValuesAndFunctions memberMapping
        /\ ignore (declared optionCalls memberMapping) = ignore memberMapping)
    /\ (existsb isIgnore optionCalls = true ->
        mappingValuesAndFunctions (declared optionCalls memberMapping) = []
        /\ ignore (declared optionCalls memberMapping) = true).
Proof.
  induction optionCalls as [|call rest IH]; intros mm.
  - simpl. repeat split; discriminate.
  - destruct (IH (declare call mm)) as (Hd & Hkeep & Hignore).
    unfold declared in *. cbn [fold_left existsb].
    split; [|split].
    + rewrite Hd. now destruct call.
    + intros H. apply orb_false_iff in H as [Hc Hr].
      destruct (Hkeep Hr) as [Hv Hi]. rewrite Hv, Hi.
      destruct call; try discriminate; now split.
    + intros H. destruct (existsb isIgnore rest) eqn:Er.
      * now apply Hignore.
      * rewrite orb_false_r in H. destruct call; try discriminate.
        destruct (Hkeep eq_refl) as [Hv Hi]. rewrite Hv, Hi. now split.
Qed.

(** The dry run never raises, and records one call of the function. *)
Lemma handleMappingFunction_spec (memberMapping : loc) (f : MemberFunction) (st : State) :
  let options := declarationOptions (memberStore st memberMapping) in
  let optionCalls := fst (functionApply f options) in
  let afterCalls := declared optionCalls (memberStore st memberMapping) in
  exists st',
    createMapForMemberHandleMappingFunction memberMapping f st = (Ok tt, st')
    /\ memberStore st' memberMapping
       = (if existsb isIgnore optionCalls then afterCalls
          else push (Function f) afterCalls)
    /\ calls st' = calls st ++ [Declared f options].
Proof.
  intros options optionCalls afterCalls.
  unfold createMapForMemberHandleMappingFunction.
  unfold mbind at 1. unfold M_bind, bind, gets. fold options.
  unfold mbind at 1. unfold M_bind, bind, modify.
  subst optionCalls afterCalls.
  destruct (functionApply f options) as [optionCalls completion]. simpl fst.
  destruct (forEach_declare memberMapping optionCalls
              (record [Declared f options] st)) as (st1 & Hrun & Hmember & Hcalls).
  assert (Htry : tryCatch
            (forEach (fun call => mutateMember memberMapping (declare call)) optionCalls;;
             _ ← complete completion; ret tt)
            (fun _ => ret tt) (record [Declared f options] st) = (Ok tt, st1)).
  { unfold tryCatch, mbind, M_bind, bind. rewrite Hrun.
    destruct completion; reflexivity. }
  unfold mbind, M_bind, bind in *. rewrite Htry.
  destruct (existsb isIgnore optionCalls); simpl.
  - exists st1. split; [reflexivity|]. split; [exact Hmember|exact Hcalls].
  - eexists. split; [reflexivity|]. simpl. rewrite update_eq.
    split; [now rewrite Hmember|exact Hcalls].
Qed.

(** Once the member mapping is found or created, a function given to
    [forMember] is called once; whatever it raises, the handle is
    returned. *)
Lemma createMapForMemberConfigure_function (mapping memberMapping : loc)
  (f : MemberFunction) (original : option string) (st : State) :
  let options := declarationOptions (memberStore st memberMapping) in
  let optionCalls := fst (functionApply f options) in
  let afterCalls := declared optionCalls (memberStore st memberMapping) in
  exists st',
    createMapForMemberConfigure mapping (Function f) memberMapping original st
    = (Ok mapping, st')
    /\ memberStore st' memberMapping
       = (if existsb isIgnore optionCalls then afterCalls
          else push (Function f) afterCalls)
    /\ calls st' = calls st ++ [Declared f options]
    /\ (original = None ->
        dict_get (sourceProperty (memberStore st' memberMapping))
          (forMemberMappings (mappingStore st' mapping)) = Some memberMapping).
Proof.
  intros options optionCalls afterCalls.
  destruct (handleMappingFunction_spec memberMapping f st)
    as (st1 & Hrun & Hmember & Hcalls).
  fold options optionCalls afterCalls in Hmember, Hcalls.
  unfold createMapForMemberConfigure.
  unfold mbind, M_bind, bind, gets. rewrite Hrun.
  destruct original as [[|c original]|]; unfold mutateMapping, modify, ret.
  - eexists. split; [reflexivity|]. simpl. split; [exact Hmember|].
    split; [exact Hcalls|discriminate].
  - destruct (String.eqb (String c original)
                (sourceProperty (memberStore st1 memberMapping))); simpl;
      eexists; (split; [reflexivity|]); simpl;
      (split; [exact Hmember|]); (split; [exact Hcalls|discriminate]).
  - eexists. split; [reflexivity|]. simpl. split; [exact Hmember|].
    split; [exact Hcalls|]. intros _. rewrite update_eq. simpl.
    apply dict_get_set_eq.
Qed.

(** C9, as the code has it.  [forMember(destinationProperty, f)] looks
    for the member mapping of the definition with that destination
    property.  When the one it finds is ignored already, it returns the
    handle and nothing else happens: [f] is not called and nothing is
    changed.  Otherwise it calls [f] once, on the declaration-phase options
    of the member mapping (the one found, or a new one); it returns the
    handle whatever [f] raises; and [f] is put at the end of the member
    mapping's value/function sequence unless it called [ignore()], in which
    case the sequence is empty and the member ignored.  Stated for
    definitions whose member mappings are keyed by, and mapped from, names
    other than ["hasOwnProperty"], ["__proto__"] and integer-like names (the
    search calls [hasOwnProperty] on the dictionary and visits integer-like
    keys first), and for a destination property other than ["__proto__"]
    (the stubbed source object of the options is given a member of that
    name). *)
Theorem C9_forMember_dry_run (st : State) (mapping : loc) (destinationProperty : string)
  (f : MemberFunction) :
  destinationProperty <> "__proto__" ->
  listedNames (memberStore st) (forMemberMappings (mappingStore st mapping)) = true ->
  let found :=
    createMapForMemberFindMember (memberStore st)
      (forMemberMappings (mappingStore st mapping)) (Some destinationProperty) in
  ((exists l, found = Some l /\ ignore (memberStore st l) = true) ->
   createMapForMember mapping destinationProperty (Function f) st = (Ok mapping, st))
  /\ ((forall l, found = Some l -> ignore (memberStore st l) = false) ->
      let memberMapping := match found with Some l => l | None => nextMember st end in
      let before :=
        match found with
        | Some l => memberStore st l
        | None => newMemberMapping destinationProperty
        end in
      let options := declarationOptions before in
      let optionCalls := fst (functionApply f options) in
      exists st',
        createMapForMember mapping destinationProperty (Function f) st = (Ok mapping, st')
        /\ calls st' = calls st ++ [Declared f options]
        /\ (existsb isIgnore optionCalls = false ->
            mappingValuesAndFunctions (memberStore st' memberMapping)
            = mappingValuesAndFunctions before ++ [Function f]
            /\ ignore (memberStore st' memberMapping) = false)
        /\ (existsb isIgnore optionCalls = true ->
            mappingValuesAndFunctions (memberStore st' memberMapping) = []
            /\ ignore (memberStore st' memberMapping) = true)
        /\ (found = None ->
            dict_get (sourceProperty (memberStore st' memberMapping))
              (forMemberMappings (mappingStore st' mapping)) = Some memberMapping)).
Proof.
  intros _ _ found. split.
  { intros (l & Hl & Hi). unfold createMapForMember.
    unfold mbind at 1. unfold M_bind, bind, gets, id. fold found.
    now rewrite Hl, Hi. }
  intros Hnot memberMapping before options optionCalls.
  assert (Hfields : forall st0 st',
             memberStore st0 memberMapping = before ->
             ignore before = false ->
             memberStore st' memberMapping
             = (if existsb isIgnore optionCalls
                then declared optionCalls before
                else push (Function f) (declared optionCalls before)) ->
             (existsb isIgnore optionCalls = false ->
              mappingValuesAndFunctions (memberStore st' memberMapping)
              = mappingValuesAndFunctions before ++ [Function f]
              /\ ignore (memberStore st' memberMapping) = false)
             /\ (existsb isIgnore optionCalls = true ->
                 mappingValuesAndFunctions (memberStore st' memberMapping) = []
                 /\ ignore (memberStore st' memberMapping) = true)).
  { intros st0 st' _ Hi Hm.
    destruct (declared_fields optionCalls before) as (_ & Hkeep & Hignore).
    split; intros H; rewrite Hm, H.
    - destruct (Hkeep H) as [Hv Hig]. simpl. now rewrite Hv, Hig.
    - now apply Hignore. }
  unfold createMapForMember.
  unfold mbind at 1. unfold M_bind, bind, gets, id. fold found.
  subst memberMapping before options optionCalls.
  destruct found as [l|] eqn:Efound.
  - rewrite (Hnot l eq_refl).
    destruct (createMapForMemberConfigure_function mapping l f
                (Some (sourceProperty (memberStore st l))) st)
      as (st' & Hrun & Hmember & Hcalls & _).
    exists st'. split; [exact Hrun|]. split; [exact Hcalls|].
    destruct (Hfields st st' eq_refl (Hnot l eq_refl) Hmember) as [H1 H2].
    split; [exact H1|]. split; [exact H2|discriminate].
  - unfold mbind, M_bind, bind, alloc. simpl.
    set (st0 := {| profiles := profiles st; mappings := mappings st;
                   mappingStore := mappingStore st; nextMapping := nextMapping st;
                   memberStore := update (memberStore st) (nextMember st)
                                    (newMemberMapping destinationProperty);
                   nextMember := S (nextMember st);
                   argumentStore := argumentStore st;
                   nextArguments := nextArguments st; calls := calls st |}).
    assert (H0 : memberStore st0 (nextMember st) = newMemberMapping destinationProperty)
      by (simpl; apply update_eq).
    destruct (createMapForMemberConfigure_function mapping (nextMember st) f None st0)
      as (st' & Hrun & Hmember & Hcalls & Hkey).
    rewrite H0 in Hmember, Hcalls.
    exists st'. split; [exact Hrun|]. split; [exact Hcalls|].
    destruct (Hfields st0 st' H0 eq_refl Hmember) as [H1 H2].
    split; [exact H1|]. split; [exact H2|]. intros _. now apply Hkey.
Qed.

Lemma C9_witness :
  let st := after (createMap "a" "b") in
  let result := createMapForMember 0 "x" (Function throwingFunction) st in
  let ignored := after memberIgnored in
  "x" <> "__proto__"
  /\ listedNames (memberStore st) (forMemberMappings (mappingStore st 0)) = true
  /\ listedNames (memberStore ignored) (forMemberMappings (mappingStore ignored 0)) = true
  /\ (forall l,
        createMapForMemberFindMember (memberStore st)
          (forMemberMappings (mappingStore st 0)) (Some "x") = Some l ->
        ignore (memberStore st l) = false)
  /\ fst result = Ok 0
  /\ calls (snd result)
     = [Declared throwingFunction (declarationOptions (newMemberMapping "x"))]
  /\ mappingValuesAndFunctions (memberStore (snd result) 0) = [Function throwingFunction]
  /\ createMapForMember 0 "x" (Function throwingFunction) ignored = (Ok 0, ignored).
Proof.
  intros st result ignored.
  assert (Hx : "x" <> "__proto__") by discriminate.
  assert (Hst : listedNames (memberStore st) (forMemberMappings (mappingStore st 0)) = true)
    by reflexivity.
  assert (Hig : listedNames (memberStore ignored)
                  (forMemberMappings (mappingStore ignored 0)) = true)
    by (vm_compute; reflexivity).
  assert (H : forall l,
             createMapForMemberFindMember (memberStore st)
               (forMemberMappings (mappingStore st 0)) (Some "x") = Some l ->
             ignore (memberStore st l) = false)
    by (intros l Hl; vm_compute in Hl; discriminate).
  destruct (proj2 (C9_forMember_dry_run st 0 "x" throwingFunction Hx Hst) H)
    as (st' & Hrun & Hcalls & Hkeep & _).
  split; [exact Hx|]. split; [exact Hst|]. split; [exact Hig|]. split; [exact H|].
  subst result. rewrite Hrun. simpl.
  split; [reflexivity|]. split; [exact Hcalls|].
  split; [exact (proj1 (Hkeep eq_refl))|].
  apply (proj1 (C9_forMember_dry_run ignored 0 "x" throwingFunction Hx Hig)).
  exists 0. split; vm_compute; reflexivity.
Defined.

(** Against C9 as the specification states it: on a member that is
    ignored already, [forMember('x', f)] with a function [f] that does not
    call [ignore()] returns the handle without calling [f] (no call is
    recorded) and without keeping it. *)
Lemma C9_counterexample :
  let st := after memberIgnored in
  let result := createMapForMember 0 "x" (Function emptyFunction) st in
  existsb isIgnore (fst (functionApply emptyFunction
                           (declarationOptions (memberStore st 0)))) = false
  /\ fst result = Ok 0
  /\ calls (snd result) = calls st
  /\ dict_get "x" (forMemberMappings (mappingStore (snd result) 0)) = Some 0
  /\ mappingValuesAndFunctions (memberStore (snd result) 0) = [].
Proof. vm_compute. repeat split. Qed.

(** ** [withProfile] *)

Lemma sameName_eq (a b : option string) : sameName a b = true <-> a = b.
Proof.
  destruct a as [x|], b as [y|]; simpl; split; intros H;
    try discriminate; try reflexivity.
  - apply String.eqb_eq in H. now subst.
  - injection H as ->. apply String.eqb_refl.
Qed.

Lemma dict_get_key {V : Type} (k : string) (v : V) (d : list (string * V)) :
  dict_get k d = Some v -> In k (List.map fst d).
Proof.
  induction d as [|[k' v'] d IH]; simpl; [discriminate|].
  destruct (String.eqb_spec k k'); [now left|]. intros H. right. now apply IH.
Qed.

Lemma dict_get_In {V : Type} (k : string) (v : V) (d : list (string * V)) :
  List.NoDup (List.map fst d) -> In (k, v) d -> dict_get k d = Some v.
Proof.
  induction d as [|[k' v'] d IH]; simpl; [contradiction|].
  intros Hnd [H|H]; apply NoDup_cons_iff in Hnd as [Hk Hnd].
  - injection H as -> ->. now rewrite String.eqb_refl.
  - destruct (String.eqb_spec k k') as [->|_]; [|now apply IH].
    exfalso. apply Hk. now apply (in_map fst) in H.
Qed.

Lemma dict_set_key {V : Type} (k k0 : string) (v : V) (d : list (string * V)) :
  In k0 (List.map fst (dict_set k v d)) -> k0 = k \/ In k0 (List.map fst d).
Proof.
  induction d as [|[k' v'] d IH]; simpl.
  - intros [H|[]]. now left.
  - destruct (String.eqb k k'); simpl; intros [H|H]; auto.
    destruct (IH H); auto.
Qed.

Lemma dict_delete_key {V : Type} (k k0 : string) (d : list (string * V)) :
  In k0 (List.map fst (dict_delete k d)) -> In k0 (List.map fst d).
Proof.
  induction d as [|[k' v'] d IH]; simpl; [auto|].
  destruct (String.eqb k k'); simpl; intros H; [right; auto|].
  destruct H; auto.
Qed.

Lemma dict_set_NoDup {V : Type} (k : string) (v : V) (d : list (string * V)) :
  List.NoDup (List.map fst d) -> List.NoDup (List.map fst (dict_set k v d)).
Proof.
  induction d as [|[k' v'] d IH]; simpl; intros H.
  - constructor; [intros []|constructor].
  - apply NoDup_cons_iff in H as [Hk Hnd].
    destruct (String.eqb_spec k k') as [->|Hne]; simpl.
    + now apply NoDup_cons_iff.
    + apply NoDup_cons_iff. split; [|now apply IH].
      intros Hin. apply dict_set_key in Hin as [->|Hin]; [now apply Hne|now apply Hk].
Qed.

Lemma dict_delete_NoDup {V : Type} (k : string) (d : list (string * V)) :
  List.NoDup (List.map fst d) -> List.NoDup (List.map fst (dict_delete k d)).
Proof.
  induction d as [|[k' v'] d IH]; simpl; intros H; [constructor|].
  apply NoDup_cons_iff in H as [Hk Hnd].
  destruct (String.eqb k k'); simpl; [now apply IH|].
  apply NoDup_cons_iff. split; [|now apply IH].
  intros Hin. apply Hk. now apply dict_delete_key in Hin.
Qed.

Section Merge.

Variable members : loc -> MemberMapping.

Local Abbreviation source := (sourceOf members).
Local Abbreviation destination := (destinationOf members).
Local Abbreviation installed := (installedFor members).

(** What [createMapForMemberFindMember] finds is a member mapping of the
    dictionary with the destination property looked for. *)
Lemma findMember_some (d : list (string * loc)) (name : option string) (e : loc) :
  List.NoDup (List.map fst d) ->
  createMapForMemberFindMember members d name = Some e ->
  exists key, dict_get key d = Some e /\ destination e = name.
Proof.
  induction d as [|[k l] d IH]; simpl; [discriminate|].
  intros Hnd H. apply NoDup_cons_iff in Hnd as [Hk Hnd].
  destruct (sameName (destinationProperty (members l)) name) eqn:E.
  - injection H as <-. exists k. rewrite String.eqb_refl.
    split; [reflexivity|]. now apply sameName_eq.
  - destruct (IH Hnd H) as (key & Hget & Hd). exists key. split; [|exact Hd].
    destruct (String.eqb_spec key k) as [->|_]; [|exact Hget].
    exfalso. apply Hk. now apply dict_get_key in Hget.
Qed.

(** A member mapping under a key of a dictionary keyed by source member. *)
Lemma keyed_entry (d : list (string * loc)) (key : string) (l : loc) :
  keyedBySource members d -> In (key, l) d -> source l = key.
Proof. intros [Hnd Hkeyed] Hin. apply Hkeyed. now apply dict_get_In. Qed.

Lemma dict_delete_entry (k k0 : string) (l : loc) (d : list (string * loc)) :
  In (k0, l) (dict_delete k d) -> In (k0, l) d.
Proof.
  induction d as [|[k' l'] d IH]; simpl; [auto|].
  destruct (String.eqb k k'); simpl; intros H; [right; auto|].
  destruct H; auto.
Qed.

Lemma dict_get_delete_none (k k0 : string) (d : list (string * loc)) :
  dict_get k d = None -> dict_get k (dict_delete k0 d) = None.
Proof.
  intros H. destruct (String.eqb_spec k k0) as [->|Hne].
  - apply dict_get_delete_eq.
  - now rewrite dict_get_delete_ne.
Qed.

(** The member mapping found first for a destination property is found
    first still when a key that is not its own is deleted, or set to a member
    mapping with another destination property. *)
Lemma findMember_delete (d : list (string * loc)) (name : option string) (e : loc)
  (k : string) :
  (forall l, In (k, l) d -> l <> e) ->
  createMapForMemberFindMember members d name = Some e ->
  createMapForMemberFindMember members (dict_delete k d) name = Some e.
Proof.
  induction d as [|[k0 l0] d IH]; simpl; intros Hk H; [discriminate|].
  destruct (String.eqb_spec k k0) as [->|Hne].
  - destruct (sameName (destinationProperty (members l0)) name) eqn:E.
    + injection H as <-. exfalso. apply (Hk l0); auto.
    + apply IH; auto.
  - simpl. destruct (sameName (destinationProperty (members l0)) name); [exact H|].
    apply IH; auto.
Qed.

Lemma findMember_set (d : list (string * loc)) (name : option string) (e v : loc)
  (k : string) :
  destination v <> name ->
  (forall l, In (k, l) d -> l <> e) ->
  createMapForMemberFindMember members d name = Some e ->
  createMapForMemberFindMember members (dict_set k v d) name = Some e.
Proof.
  intros Hv. assert (Ev : sameName (destinationProperty (members v)) name = false).
  { destruct (sameName (destinationProperty (members v)) name) eqn:E; [|reflexivity].
    apply sameName_eq in E. contradiction. }
  induction d as [|[k0 l0] d IH]; simpl; intros Hk H; [discriminate|].
  destruct (String.eqb_spec k k0) as [->|Hne]; simpl.
  - destruct (sameName (destinationProperty (members l0)) name) eqn:E.
    + injection H as <-. exfalso. apply (Hk l0); auto.
    + now rewrite Ev.
  - destruct (sameName (destinationProperty (members l0)) name); [exact H|].
    apply IH; auto.
Qed.

(** One turn of the merge loop keeps the dictionary keyed by source
    member. *)
Lemma mergeMember_keyed (live : list (string * loc)) (entry : string * loc) :
  keyedBySource members live -> keyedBySource members (mergeMember members live entry).
Proof.
  intros [Hnd Hkeyed]. unfold mergeMember.
  destruct (createMapForMemberFindMember members live
              (destinationProperty (members (snd entry)))) as [e|] eqn:Efind;
    [|now split].
  set (q := snd entry) in *. split.
  - now apply dict_set_NoDup, dict_delete_NoDup.
  - intros key l H.
    destruct (String.eqb_spec key (sourceProperty (members q))) as [->|Hne].
    + rewrite dict_get_set_eq in H. congruence.
    + rewrite dict_get_set_ne in H by assumption.
      destruct (String.eqb_spec key (sourceProperty (members e))) as [->|Hne'].
      * now rewrite dict_get_delete_eq in H.
      * rewrite dict_get_delete_ne in H by assumption. now apply Hkeyed.
Qed.

(** The turn of another staged member mapping [q'] leaves the member
    mapping [e] the one found first for the destination property of [q]. *)
Lemma mergeMember_first (q e q' : loc) (live : list (string * loc)) (key : string) :
  keyedBySource members live ->
  createMapForMemberFindMember members live (destination q) = Some e ->
  destination q' <> destination q -> source q' <> source e ->
  createMapForMemberFindMember members (mergeMember members live (key, q')) (destination q)
  = Some e.
Proof.
  intros Hk He Hdq Hse. unfold mergeMember. simpl snd.
  destruct (createMapForMemberFindMember members live
              (destinationProperty (members q'))) as [e'|] eqn:Efind; [|exact He].
  pose proof Hk as [Hnd Hkeyed].
  destruct (findMember_some _ _ _ Hnd Efind) as (ke' & Hge' & Hde').
  pose proof (Hkeyed _ _ Hge') as Hke'. subst ke'.
  destruct (findMember_some _ _ _ Hnd He) as (ke & Hge & Hde).
  apply findMember_set.
  - exact Hdq.
  - intros l Hin Heq. subst l. apply dict_delete_entry in Hin.
    apply Hse. symmetry. now apply (keyed_entry live).
  - apply findMember_delete; [|exact He].
    intros l Hin Heq. subst l.
    pose proof (dict_get_In _ _ _ Hnd Hin) as Hl.
    unfold sourceOf, destinationOf in *.
    assert (e = e') by congruence. subst e'. congruence.
Qed.

(** The turn of [q] itself installs it in the place of the member mapping
    found for its destination property. *)
Lemma mergeMember_installs (q e : loc) (live : list (string * loc)) (key : string) :
  createMapForMemberFindMember members live (destination q) = Some e ->
  installed q e (mergeMember members live (key, q)).
Proof.
  intros He. unfold mergeMember. simpl snd. unfold destinationOf in He. rewrite He. split.
  - apply dict_get_set_eq.
  - intros Hne. fold (sourceOf members q) (sourceOf members e).
    rewrite dict_get_set_ne by assumption. apply dict_get_delete_eq.
Qed.

(** Once installed it stays: through a turn of its own, *)
Lemma mergeMember_again (q e : loc) (live : list (string * loc)) (key : string) :
  installed q e live -> installed q e (mergeMember members live (key, q)).
Proof.
  intros [Hq Hgone]. unfold mergeMember. simpl snd.
  destruct (createMapForMemberFindMember members live
              (destinationProperty (members q))) as [m|]; [|now split].
  split.
  - apply dict_get_set_eq.
  - intros Hne. fold (sourceOf members q) (sourceOf members m).
    rewrite dict_get_set_ne by assumption. apply dict_get_delete_none. now apply Hgone.
Qed.

(** and through the turn of another staged member mapping. *)
Lemma mergeMember_passes (q e q' : loc) (live : list (string * loc)) (key : string) :
  keyedBySource members live ->
  source q' <> source q -> destination q' <> destination q -> source q' <> source e ->
  installed q e live -> installed q e (mergeMember members live (key, q')).
Proof.
  intros [Hnd Hkeyed] Hsq Hdq Hse [Hq Hgone]. unfold mergeMember. simpl snd.
  destruct (createMapForMemberFindMember members live
              (destinationProperty (members q'))) as [e'|] eqn:Efind; [|now split].
  destruct (findMember_some _ _ _ Hnd Efind) as (ke & Hge & Hde).
  pose proof (Hkeyed _ _ Hge) as Hke. subst ke.
  fold (sourceOf members q') (sourceOf members e').
  split.
  - rewrite dict_get_set_ne by (intros Heq; apply Hsq; now symmetry).
    rewrite dict_get_delete_ne; [exact Hq|].
    intros Heq. fold (sourceOf members e') in Hge. rewrite <- Heq in Hge.
    assert (e' = q) by congruence. subst e'. unfold destinationOf in *. congruence.
  - intros Hne. rewrite dict_get_set_ne by (intros Heq; apply Hse; now symmetry).
    apply dict_get_delete_none. now apply Hgone.
Qed.

(** The loop: a staged member mapping [q] ends installed under its source
    property in the place of [e], the member mapping of the live definition
    found for its destination property, when no other staged member mapping
    has the source property of [e] or of [q], or the destination property of
    [q]. *)
Lemma mergeMembers_installs (q e : loc) (staged : list (string * loc)) :
  (forall key' q', In (key', q') staged -> q' <> q ->
     source q' <> source q /\ destination q' <> destination q /\ source q' <> source e) ->
  forall live,
    keyedBySource members live ->
    createMapForMemberFindMember members live (destination q) = Some e
    \/ installed q e live ->
    (createMapForMemberFindMember members (mergeMembers members staged live) (destination q)
     = Some e
     \/ installed q e (mergeMembers members staged live))
    /\ ((exists key, In (key, q) staged) \/ installed q e live ->
        installed q e (mergeMembers members staged live)).
Proof.
  unfold mergeMembers.
  induction staged as [|[key' q'] staged IH]; intros Hothers live Hk Hinv.
  - simpl. split; [exact Hinv|]. intros [[key []]|H]. exact H.
  - cbn [fold_left].
    pose proof (mergeMember_keyed live (key', q') Hk) as Hk'.
    assert (Hrest : forall key0 q0, In (key0, q0) staged -> q0 <> q ->
               source q0 <> source q /\ destination q0 <> destination q
               /\ source q0 <> source e)
      by (intros key0 q0 Hin; apply (Hothers key0 q0); now right).
    destruct (Nat.eq_dec q' q) as [->|Hne].
    + assert (Hinst : installed q e (mergeMember members live (key', q)))
        by (destruct Hinv; [now apply mergeMember_installs|now apply mergeMember_again]).
      destruct (IH Hrest _ Hk' (or_intror Hinst)) as [H1 H2].
      split; [exact H1|]. intros _. apply H2. now right.
    + destruct (Hothers key' q' (or_introl eq_refl) Hne) as (Hsq & Hdq & Hse).
      assert (Hinv' : createMapForMemberFindMember members
                        (mergeMember members live (key', q')) (destination q) = Some e
                      \/ installed q e (mergeMember members live (key', q'))).
      { destruct Hinv as [He|Hq].
        - left. now apply mergeMember_first.
        - right. now apply mergeMember_passes. }
      destruct (IH Hrest _ Hk' Hinv') as [H1 H2].
      split; [exact H1|]. intros [[key [Hin|Hin]]|Hq].
      * injection Hin as _ ->. contradiction.
      * apply H2. left. now exists key.
      * apply H2. right. now apply mergeMember_passes.
Qed.

End Merge.

Lemma dict_get_entry {V : Type} (k : string) (v : V) (d : list (string * V)) :
  dict_get k d = Some v -> In (k, v) d.
Proof.
  induction d as [|[k' v'] d IH]; simpl; [discriminate|].
  destruct (String.eqb_spec k k') as [->|_]; intros H.
  - injection H as ->. now left.
  - right. now apply IH.
Qed.

(** The merge, field by field: the member mappings are not touched, nor
    is any mapping object but the live one. *)
Lemma createMapWithProfileMergeMappings_spec (st : State) (mapping staged : loc)
  (name : string) :
  mappings st !! profileMappingKey name (mappingStore st mapping) = Some staged ->
  let live := mappingStore st mapping in
  let profileMapping := mappingStore st staged in
  exists st',
    createMapWithProfileMergeMappings mapping name st = (Ok tt, st')
    /\ memberStore st' = memberStore st
    /\ calls st' = calls st
    /\ mappings st' = mappings st
    /\ (forall l, l <> mapping -> mappingStore st' l = mappingStore st l)
    /\ forAllMemberMappings (mappingStore st' mapping)
       = forAllMemberMappings live ++ forAllMemberMappings profileMapping
    /\ typeConverterFunction (mappingStore st' mapping)
       = match typeConverterFunction profileMapping with
         | Some converter => Some converter
         | None => typeConverterFunction live
         end
    /\ destinationTypeClass (mappingStore st' mapping)
       = match destinationTypeClass profileMapping with
         | Some typeClass => Some typeClass
         | None => destinationTypeClass live
         end
    /\ forMemberMappings (mappingStore st' mapping)
       = mergeMembers (memberStore st) (forMemberMappings profileMapping)
           (forMemberMappings live)
    /\ profile (mappingStore st' mapping) = profile live
    /\ sourceKey (mappingStore st' mapping) = sourceKey live
    /\ destinationKey (mappingStore st' mapping) = destinationKey live.
Proof.
  intros Hstaged live profileMapping.
  unfold createMapWithProfileMergeMappings.
  unfold mbind at 1. unfold M_bind, bind, gets, id. rewrite Hstaged.
  fold profileMapping.
  destruct (forAllMemberMappings profileMapping) as [|h hs] eqn:Eh;
    destruct (typeConverterFunction profileMapping) as [converter|] eqn:Ec;
    destruct (destinationTypeClass profileMapping) as [typeClass|] eqn:Et;
    simpl; unfold mbind, M_bind, bind, mutateMapping, modify, ret; simpl;
    eexists; (split; [reflexivity|]); simpl;
    rewrite ?update_eq; simpl; rewrite ?update_eq; simpl;
    rewrite ?update_eq; simpl; rewrite ?update_eq; simpl;
    rewrite ?app_nil_r;
    repeat split;
    try (intros l Hl; rewrite !update_ne by assumption; reflexivity).
Qed.

Lemma string_length_append (a b : string) :
  String.length (a +:+ b) = String.length a + String.length b.
Proof. induction a as [|c a IH]; simpl; [reflexivity|now rewrite IH]. Qed.

(** A mapping object registered under the key of its own pair is not the
    object registered under its profile-qualified key, which is longer. *)
Lemma staged_is_another_object (st : State) (mapping staged : loc) (name : string) :
  sourceKey (mappingStore st staged) +:+ destinationKey (mappingStore st staged)
  = profileMappingKey name (mappingStore st mapping) ->
  staged <> mapping.
Proof.
  intros Hkey ->. apply (f_equal String.length) in Hkey.
  unfold profileMappingKey in Hkey. rewrite !string_length_append in Hkey.
  simpl in Hkey. lia.
Qed.




(** A profile that maps [b] to [x], merged into a definition that maps [a]
    to [x]: afterwards [x] is taken from [b], and [a] is mapped by name. *)
Example withProfile_examples :
  let st := after (renamingDeclared;; createMapWithProfile 1 "R") in
  forMemberMappings (mappingStore st 1) = [("b", 0)]
  /\ fst (AutoMapper.map "S" "D" (VObj None [("a", VNum 1); ("b", VNum 2)]) st)
     = Ok (VObj None [("a", VNum 1); ("x", VNum 2)]).
Proof. vm_compute. repeat split. Qed.

(** * Further properties of the executor *)

Lemma bindX_assoc {A B C : Type} (c : X A) (f : A -> X B) (g : B -> X C) :
  (c ≫= f) ≫= g = c ≫= (fun a => f a ≫= g).
Proof.
  unfold mbind, X_bind, bindX. destruct c as [events [a|e]]; [|reflexivity].
  destruct (f a) as [events' [b|e]]; [|reflexivity].
  destruct (g b) as [events'' r]. now rewrite app_assoc.
Qed.

Lemma bindX_ext {A B : Type} (c : X A) (f g : A -> X B) :
  (forall a, f a = g a) -> c ≫= f = c ≫= g.
Proof.
  intros H. unfold mbind, X_bind, bindX. destruct c as [events [a|e]]; [|reflexivity].
  now rewrite H.
Qed.

Lemma bindX_ret_l {A B : Type} (a : A) (f : A -> X B) : mret a ≫= f = f a.
Proof. unfold mbind, mret, X_bind, X_ret, bindX, retX. now destruct (f a). Qed.

(** ** The values and functions of a member mapping *)

(** The loop over the values and functions of a member mapping goes left
    to right: a sequence followed by another is evaluated as the first,
    then the second on the options the first leaves. *)
Lemma foldValuesAndFunctions_app (entries later : list ValueOrFunction) :
  forall opts,
    foldValuesAndFunctions (entries ++ later) opts
    = foldValuesAndFunctions entries opts ≫= foldValuesAndFunctions later.
Proof.
  induction entries as [|entry entries IH]; intros opts.
  - cbn [foldValuesAndFunctions app]. now rewrite bindX_ret_l.
  - cbn [foldValuesAndFunctions app]. rewrite bindX_assoc.
    apply bindX_ext. intros v. apply IH.
Qed.

(** A member mapping in use (not ignored, no condition) is the loop over
    its values and functions followed by [mapSetValue]. *)
Lemma mapProperty_member (members : loc -> MemberMapping) (mapping : Mapping)
  (source : Value) (name : string) (sourceValue destination : Value) (l : loc) :
  dict_get name (forMemberMappings mapping) = Some l ->
  ignore (members l) = false ->
  conditionFunction (members l) = None ->
  mapProperty members mapping source name sourceValue destination
  = foldValuesAndFunctions (mappingValuesAndFunctions (members l))
      (memberConfigurationOptions source name sourceValue)
    ≫= (fun opts => mapSetValue mapping destination (destinationProperty (members l))
                      (destinationPropertyValue opts)).
Proof.
  intros Hl Hi Hc. unfold mapProperty, memberConfigurationOptions. rewrite Hl, Hi, Hc.
  unfold mbind, mret, X_bind, X_ret, bindX, retX.
  destruct (foldValuesAndFunctions _ _) as [events [opts|e]]; [|reflexivity].
  now destruct (mapSetValue _ _ _ _).
Qed.

(** X1: a value given to [forMember] last is the value the member is set
    to, whatever the values and functions before it computed, as long as
    none of them raises; the functions before it are still called. *)
Theorem last_value_is_set (members : loc -> MemberMapping) (mapping : Mapping)
  (source : Value) (name : string) (sourceValue destination : Value) (l : loc)
  (entries : list ValueOrFunction) (value : Value) (opts : Options) :
  dict_get name (forMemberMappings mapping) = Some l ->
  ignore (members l) = false ->
  conditionFunction (members l) = None ->
  mappingValuesAndFunctions (members l) = entries ++ [Literal value] ->
  snd (foldValuesAndFunctions entries (memberConfigurationOptions source name sourceValue))
  = Ok opts ->
  let earlier :=
    fst (foldValuesAndFunctions entries (memberConfigurationOptions source name sourceValue)) in
  let set := mapSetValue mapping destination (destinationProperty (members l)) value in
  mapProperty members mapping source name sourceValue destination
  = (earlier ++ fst set, snd set).
Proof.
  intros Hl Hi Hc Hv He earlier set. subst earlier set.
  rewrite (mapProperty_member _ _ _ _ _ _ l Hl Hi Hc), Hv, foldValuesAndFunctions_app.
  destruct (foldValuesAndFunctions entries _) as [events o]. simpl in He. subst o.
  cbn [foldValuesAndFunctions]. unfold mbind, mret, X_bind, X_ret, bindX, retX.
  cbn [withDestinationPropertyValue destinationPropertyValue fst snd app].
  destruct (mapSetValue _ _ _ _) as [events' r]. cbn. now rewrite app_nil_r.
Qed.

Lemma last_value_is_set_witness :
  mapProperty (fun _ => push (Literal (VNum 2)) (push (Literal (VNum 1)) (newMemberMapping "x")))
    (withMembers [("x", 0)] emptyMapping) (VObj None [("x", VNum 0)]) "x" (VNum 0)
    (VObj None [])
  = ([], Ok (VObj None [("x", VNum 2)])).
Proof.
  apply (last_value_is_set
           (fun _ => push (Literal (VNum 2)) (push (Literal (VNum 1)) (newMemberMapping "x")))
           (withMembers [("x", 0)] emptyMapping) (VObj None [("x", VNum 0)]) "x" (VNum 0)
           (VObj None []) 0 [Literal (VNum 1)] (VNum 2)
           (memberConfigurationOptions (VObj None [("x", VNum 0)]) "x" (VNum 1)));
    reflexivity.
Defined.

(** X2: a function that returns [undefined] (as [opts => opts.mapFrom(..)]
    does) leaves the value computed so far: given last, the member is set
    to what the values and functions before it computed, and to the source
    value when it is the only one. *)
Theorem undefined_keeps_the_value (members : loc -> MemberMapping) (mapping : Mapping)
  (source : Value) (name : string) (sourceValue destination : Value) (l : loc)
  (entries : list ValueOrFunction) (f : MemberFunction) (opts : Options) :
  dict_get name (forMemberMappings mapping) = Some l ->
  ignore (members l) = false ->
  conditionFunction (members l) = None ->
  mappingValuesAndFunctions (members l) = entries ++ [Function f] ->
  snd (foldValuesAndFunctions entries (memberConfigurationOptions source name sourceValue))
  = Ok opts ->
  evaluationCalls (fst (functionApply f opts)) = Ok tt ->
  snd (functionApply f opts) = Ok VUndefined ->
  let earlier :=
    fst (foldValuesAndFunctions entries (memberConfigurationOptions source name sourceValue)) in
  let set := mapSetValue mapping destination (destinationProperty (members l))
               (destinationPropertyValue opts) in
  mapProperty members mapping source name sourceValue destination
  = (earlier ++ [Evaluated f opts] ++ fst set, snd set).
Proof.
  intros Hl Hi Hc Hv He Hcalls Hr earlier set. subst earlier set.
  rewrite (mapProperty_member _ _ _ _ _ _ l Hl Hi Hc), Hv, foldValuesAndFunctions_app.
  destruct (foldValuesAndFunctions entries _) as [events o]. simpl in He. subst o.
  cbn [foldValuesAndFunctions].
  unfold evaluate, mbind, X_bind, bindX, tell, result, mret, X_ret, retX.
  cbv beta iota.
  destruct (functionApply f opts) as [optionCalls completion].
  cbn [fst snd] in Hcalls, Hr. subst completion. rewrite Hcalls.
  cbn [withDestinationPropertyValue destinationPropertyValue fst snd app].
  destruct (mapSetValue _ _ _ _) as [events' r]. cbn.
  now rewrite <- app_assoc.
Qed.

Lemma undefined_keeps_the_value_witness :
  mapProperty (fun _ => push (Function (mapFromFunction "a")) (withSource "a" (newMemberMapping "x")))
    (withMembers [("a", 0)] emptyMapping) (VObj None [("a", VNum 7)]) "a" (VNum 7)
    (VObj None [])
  = ([Evaluated (mapFromFunction "a")
        (memberConfigurationOptions (VObj None [("a", VNum 7)]) "a" (VNum 7))],
     Ok (VObj None [("x", VNum 7)])).
Proof.
  apply (undefined_keeps_the_value
           (fun _ => push (Function (mapFromFunction "a")) (withSource "a" (newMemberMapping "x")))
           (withMembers [("a", 0)] emptyMapping) (VObj None [("a", VNum 7)]) "a" (VNum 7)
           (VObj None []) 0 [] (mapFromFunction "a")
           (memberConfigurationOptions (VObj None [("a", VNum 7)]) "a" (VNum 7)));
    reflexivity.
Defined.

(** ** Ignored member mappings *)

Lemma mapProperty_ignored (members1 members2 : loc -> MemberMapping) (mapping : Mapping)
  (source : Value) (name : string) (v destination : Value) :
  agreeButIgnored members1 members2 ->
  mapProperty members1 mapping source name v destination
  = mapProperty members2 mapping source name v destination.
Proof.
  intros H. unfold mapProperty.
  destruct (dict_get name (forMemberMappings mapping)) as [l|]; [|reflexivity].
  destruct (H l) as [->|[H1 H2]]; [reflexivity|]. now rewrite H1, H2.
Qed.

Lemma mapProperties_ignored (members1 members2 : loc -> MemberMapping) (mapping : Mapping)
  (source : Value) (properties : list (string * Value)) :
  agreeButIgnored members1 members2 ->
  forall destination,
    mapProperties members1 mapping source properties destination
    = mapProperties members2 mapping source properties destination.
Proof.
  intros H. induction properties as [|[name v] rest IH]; intros destination;
    [reflexivity|].
  cbn [mapProperties]. rewrite (mapProperty_ignored _ _ _ _ _ _ _ H).
  apply bindX_ext. exact IH.
Qed.

Lemma mapItem_ignored (members1 members2 : loc -> MemberMapping) (mapping : Mapping)
  (source : Value) :
  agreeButIgnored members1 members2 ->
  mapItem members1 mapping source = mapItem members2 mapping source.
Proof.
  intros H. unfold mapItem. apply bindX_ext. intros destination.
  destruct (typeConverterFunction mapping); [reflexivity|].
  now apply mapProperties_ignored.
Qed.

Lemma mapArrayLoop_ignored (members1 members2 : loc -> MemberMapping) (mapping : Mapping)
  (sourceArray : list Value) :
  agreeButIgnored members1 members2 ->
  forall destinationArray,
    mapArrayLoop members1 mapping sourceArray destinationArray
    = mapArrayLoop members2 mapping sourceArray destinationArray.
Proof.
  intros H. induction sourceArray as [|x rest IH]; intros acc; [reflexivity|].
  cbn [mapArrayLoop]. rewrite (mapItem_ignored _ _ _ _ H).
  apply bindX_ext. intros r. apply IH.
Qed.



(** ** Members without a member mapping *)

(** The loop over the properties, when each property is set on the
    destination object under a name of its own. *)
Lemma mapProperties_setAll (members : loc -> MemberMapping) (mapping : Mapping)
  (source : Value) (rename : string -> string) (events : string -> Value -> list Event)
  (fields : list (string * Value)) :
  (forall name v cls destinationFields,
     In (name, v) fields ->
     mapProperty members mapping source name v (VObj cls destinationFields)
     = (events name v, Ok (VObj cls (dict_set (rename name) v destinationFields)))) ->
  forall cls destinationFields,
    mapProperties members mapping source fields (VObj cls destinationFields)
    = (concat (List.map (fun entry => events (fst entry) (snd entry)) fields),
       Ok (VObj cls (setAll rename fields destinationFields))).
Proof.
  induction fields as [|[name v] rest IH]; intros H cls acc; [reflexivity|].
  cbn [mapProperties]. rewrite (bindX_ok _ _ _ _ (H name v cls acc (or_introl eq_refl))).
  rewrite IH by (intros; apply H; now right). reflexivity.
Qed.

Lemma dict_set_fresh {V : Type} (k : string) (v : V) (d : list (string * V)) :
  ~ In k (List.map fst d) -> dict_set k v d = d ++ [(k, v)].
Proof.
  induction d as [|[k' v'] d IH]; simpl; intros H; [reflexivity|].
  destruct (String.eqb_spec k k') as [->|_]; [exfalso; apply H; now left|].
  rewrite IH; [reflexivity|]. intros Hin. apply H. now right.
Qed.

(** Members set under names that are all different, none of them on the
    object yet, come after what the object has, in their order. *)
Lemma setAll_fresh (rename : string -> string) (fields : list (string * Value)) :
  forall destinationFields,
    List.NoDup (List.map fst destinationFields
                ++ List.map (fun entry => rename (fst entry)) fields) ->
    setAll rename fields destinationFields
    = destinationFields ++ List.map (fun entry => (rename (fst entry), snd entry)) fields.
Proof.
  unfold setAll.
  induction fields as [|[name v] rest IH]; intros acc H; simpl.
  - now rewrite app_nil_r.
  - assert (Hfresh : ~ In (rename name) (List.map fst acc)).
    { apply NoDup_remove_2 in H. intros Hin. apply H. apply in_or_app. now left. }
    rewrite (dict_set_fresh _ _ _ Hfresh).
    rewrite IH.
    + now rewrite <- app_assoc.
    + rewrite List.map_app. simpl. rewrite <- app_assoc. exact H.
Qed.

Lemma mapProperty_automapped (members : loc -> MemberMapping) (mapping : Mapping)
  (source : Value) (name : string) (v : Value) (cls : option string)
  (destinationFields : list (string * Value)) :
  dict_get name (forMemberMappings mapping) = None ->
  forAllMemberMappings mapping = [] ->
  mapProperty members mapping source name v (VObj cls destinationFields)
  = ([], Ok (VObj cls (dict_set (automappedName mapping name) v destinationFields))).
Proof.
  intros Hm Hh. unfold mapProperty, automappedName, mapSetValue. rewrite Hm, Hh.
  destruct (profile mapping) as [p|]; [|reflexivity].
  destruct (mapGetDestinationPropertyName_returns p name) as [n Hn]. rewrite Hn.
  reflexivity.
Qed.



(** ** Handlers for all members *)

Lemma callHandlers_inert (handlers : list Handler) (destination : Value)
  (name : option string) (v : Value) :
  (forall h, In h handlers -> inert h) ->
  callHandlers handlers destination name v
  = (List.map (fun h => Handled h destination name v) handlers, Ok destination).
Proof.
  induction handlers as [|h rest IH]; intros H; [reflexivity|].
  cbn [callHandlers]. unfold mbind, X_bind, bindX, tell, result.
  rewrite (H h (or_introl eq_refl)). rewrite IH by (intros; apply H; now right).
  reflexivity.
Qed.

(** The loop over the properties, when no property changes the
    destination object. *)
Lemma mapProperties_unchanged (members : loc -> MemberMapping) (mapping : Mapping)
  (source destination : Value) (events : string * Value -> list Event)
  (fields : list (string * Value)) :
  (forall name v, In (name, v) fields ->
     mapProperty members mapping source name v destination
     = (events (name, v), Ok destination)) ->
  mapProperties members mapping source fields destination
  = (concat (List.map events fields), Ok destination).
Proof.
  induction fields as [|[name v] rest IH]; intros H; [reflexivity|].
  cbn [mapProperties]. rewrite (bindX_ok _ _ _ _ (H name v (or_introl eq_refl))).
  rewrite IH by (intros; apply H; now right). reflexivity.
Qed.



(** ** Conditions *)

(** X6: a member mapping with a condition is mapped unless the predicate
    returns the boolean [false]: for any other value it returns, falsy
    ones included, the member is mapped as it would be without the
    condition, after the one call of the predicate on the source object;
    for [false] nothing else is called and the destination is left as it
    is. *)
Theorem condition_skips_on_false_only (members : loc -> MemberMapping) (mapping : Mapping)
  (source : Value) (name : string) (v destination : Value) (l : loc)
  (predicate : Predicate) (verdict : Value) :
  dict_get name (forMemberMappings mapping) = Some l ->
  ignore (members l) = false ->
  conditionFunction (members l) = Some predicate ->
  predicateApply predicate source = Ok verdict ->
  let unconditional :=
    mapProperty (update members l (withCondition None (members l))) mapping
      source name v destination in
  (verdict = VBool false ->
   mapProperty members mapping source name v destination
   = ([ConditionTested predicate source], Ok destination))
  /\ (verdict <> VBool false ->
      mapProperty members mapping source name v destination
      = (ConditionTested predicate source :: fst unconditional, snd unconditional)).
Proof.
  intros Hl Hi Hc Hp unconditional. subst unconditional.
  unfold mapProperty. rewrite Hl, update_eq. cbn [ignore conditionFunction withCondition
    mappingValuesAndFunctions destinationProperty]. rewrite Hi, Hc.
  unfold mbind, mret, X_bind, X_ret, bindX, retX, tell, result. rewrite Hp.
  cbv beta iota. split.
  - intros ->. reflexivity.
  - intros Hne.
    assert (Hf : isFalse verdict = false).
    { destruct verdict as [| | [] | | | |]; try reflexivity. congruence. }
    rewrite Hf. cbn [negb app].
    destruct (foldValuesAndFunctions _ _) as [events [opts|e]]; [|reflexivity].
    destruct (mapSetValue _ _ _ _) as [events' r]. reflexivity.
Qed.

Lemma condition_skips_on_false_only_witness :
  let p := {| predicateName := "s => null"; predicateApply := fun _ => Ok VNull |} in
  mapProperty (fun _ => withCondition (Some p) (newMemberMapping "x"))
    (withMembers [("x", 0)] emptyMapping) (VObj None [("x", VNum 1)]) "x" (VNum 1)
    (VObj None [])
  = ([ConditionTested p (VObj None [("x", VNum 1)])], Ok (VObj None [("x", VNum 1)])).
Proof.
  intros p.
  apply (condition_skips_on_false_only
           (fun _ => withCondition (Some p) (newMemberMapping "x"))
           (withMembers [("x", 0)] emptyMapping) (VObj None [("x", VNum 1)]) "x" (VNum 1)
           (VObj None []) 0 p VNull); try reflexivity.
  discriminate.
Defined.

(** ** Collections *)

(** The calls made up to the first element that raises. *)
Lemma mapArrayLoop_raises_calls (members : loc -> MemberMapping) (mapping : Mapping)
  (before : list Value) (x : Value) (rest results : list Value) (e : Error) :
  Forall2 (fun y r => snd (mapItem members mapping y) = Ok r) before results ->
  snd (mapItem members mapping x) = Throw e ->
  forall destinationArray,
    mapArrayLoop members mapping (before ++ x :: rest) destinationArray
    = (concat (List.map (fun y => fst (mapItem members mapping y)) (before ++ [x])),
       Throw e).
Proof.
  induction 1 as [|y r ys rs Hy _ IH]; intros Hx acc; simpl.
  - destruct (mapItem members mapping x) as [events o]. simpl in Hx. subst o.
    simpl. now rewrite app_nil_r.
  - destruct (mapItem members mapping y) as [events o] eqn:E. simpl in Hy. subst o.
    rewrite (bindX_ok _ _ events r) by reflexivity. rewrite (IH Hx). reflexivity.
Qed.

(** X7: when an element of a collection raises while it is mapped, [map]
    raises the same, no destination array is returned, and the elements
    after it are not mapped: the calls of user code made are those of the
    elements before it and its own. *)
Theorem collection_stops_at_first_failure (st : State) (sourceKey destinationKey : string)
  (l : loc) (before : list Value) (x : Value) (rest results : list Value) (e : Error) :
  mappings st !! (sourceKey +:+ destinationKey) = Some l ->
  Forall2 (fun y r => snd (mapItem (memberStore st) (mappingStore st l) y) = Ok r)
    before results ->
  snd (mapItem (memberStore st) (mappingStore st l) x) = Throw e ->
  AutoMapper.map sourceKey destinationKey (VArr (before ++ x :: rest)) st
  = (Throw e,
     record (concat (List.map (fun y => fst (mapItem (memberStore st) (mappingStore st l) y))
                       (before ++ [x]))) st).
Proof.
  intros Hl Hb Hx. rewrite (map_resolved_array st _ _ l) by assumption.
  unfold perform, mapArray.
  rewrite (bindX_throw _ _ _ _ (mapArrayLoop_raises_calls _ _ _ _ rest _ _ Hb Hx [])).
  reflexivity.
Qed.

Lemma collection_stops_at_first_failure_witness :
  let st := after (h ← createMap "a" "b";
                   createMapForMember h "x" (Function throwingFunction)) in
  let good := VObj None [("y", VNum 1)] in
  let bad := VObj None [("x", VNum 1)] in
  AutoMapper.map "a" "b" (VArr ([good] ++ bad :: [good])) st
  = (Throw (UserError (VStr "no")),
     record (concat (List.map (fun y => fst (mapItem (memberStore st) (mappingStore st 0) y))
                       ([good] ++ [bad]))) st).
Proof.
  intros st good bad.
  apply (collection_stops_at_first_failure st "a" "b" 0 [good] bad [good] [good]
           (UserError (VStr "no"))).
  - reflexivity.
  - repeat constructor.
  - reflexivity.
Defined.

(** * Further properties of the configuration builder *)

(** ** What every configuration call keeps

    A relation between states that is reflexive and transitive and that
    the elementary changes of the builder respect is respected by every
    chain of calls and by every profile's [configure]. *)

Section Relates.

Variable R : State -> State -> Prop.
Hypothesis R_refl : forall st, R st st.
Hypothesis R_trans : forall st1 st2 st3, R st1 st2 -> R st2 st3 -> R st1 st3.

Lemma relates_ret {A : Type} (a : A) : relates R (mret a).
Proof. intros st. apply R_refl. Qed.

Lemma relates_throw {A : Type} (e : Error) : relates R (@throw A e).
Proof. intros st. apply R_refl. Qed.

Lemma relates_gets {A : Type} (f : State -> A) : relates R (gets f).
Proof. intros st. apply R_refl. Qed.

Lemma relates_complete {A : Type} (o : Outcome A) : relates R (complete o).
Proof. destruct o; [apply relates_ret|apply relates_throw]. Qed.

Lemma relates_modify (f : State -> State) : (forall st, R st (f st)) -> relates R (modify f).
Proof. intros H st. apply H. Qed.

Lemma relates_bind {A B : Type} (c : M A) (k : A -> M B) :
  relates R c -> (forall a, relates R (k a)) -> relates R (c ≫= k).
Proof.
  intros Hc Hk st. unfold mbind, M_bind, bind. specialize (Hc st).
  destruct (c st) as [[a|e] st']; simpl in *; [|exact Hc].
  eapply R_trans; [exact Hc|apply Hk].
Qed.

Lemma relates_tryCatch {A : Type} (c : M A) (h : Error -> M A) :
  relates R c -> (forall e, relates R (h e)) -> relates R (tryCatch c h).
Proof.
  intros Hc Hh st. unfold tryCatch. specialize (Hc st).
  destruct (c st) as [[a|e] st']; simpl in *; [exact Hc|].
  eapply R_trans; [exact Hc|apply Hh].
Qed.

Lemma relates_forEach {A : Type} (body : A -> M unit) (l : list A) :
  (forall a, relates R (body a)) -> relates R (forEach body l).
Proof.
  intros H. induction l as [|a l IH]; simpl.
  - apply (relates_ret tt).
  - apply relates_bind; [apply H|intros _; exact IH].
Qed.

(** The elementary changes; [touched] holds of the mapping objects that
    are changed. *)
Variable touched : loc -> Prop.

Hypothesis R_record : forall events st, R st (record events st).
Hypothesis R_storeMember :
  forall l f st, settled f -> R st (storeMember l (f (memberStore st l)) st).
Hypothesis R_storeMapping :
  forall l f st, touched l -> keyed f -> R st (storeMapping l (f (mappingStore st l)) st).
Hypothesis R_allocMember : forall mm st, R st (snd (allocMember mm st)).
Hypothesis R_createMap : forall s d st, R st (snd (createMap s d st)).

Lemma relates_mutateMember (l : loc) (f : MemberMapping -> MemberMapping) :
  settled f -> relates R (mutateMember l f).
Proof. intros H. apply relates_modify. intros st. now apply R_storeMember. Qed.

Lemma relates_mutateMapping (l : loc) (f : Mapping -> Mapping) :
  touched l -> keyed f -> relates R (mutateMapping l f).
Proof. intros Ht H. apply relates_modify. intros st. now apply R_storeMapping. Qed.

Lemma relates_allocMember (mm : MemberMapping) : relates R (alloc allocMember mm).
Proof.
  intros st. unfold alloc. specialize (R_allocMember mm st).
  now destruct (allocMember mm st).
Qed.

Lemma settled_declare (call : OptionsCall) : settled (declare call).
Proof. intros mm. destruct call; simpl; auto. Qed.

Lemma settled_push (entry : ValueOrFunction) : settled (push entry).
Proof. intros mm. simpl. auto. Qed.

Lemma keyed_withMembers (f : Mapping -> list (string * loc)) :
  keyed (fun m => withMembers (f m) m).
Proof. intros m. simpl. auto. Qed.

Lemma keyed_withHandlers (f : Mapping -> list Handler) :
  keyed (fun m => withHandlers (f m) m).
Proof. intros m. simpl. auto. Qed.

Lemma keyed_withConverter (c : option Converter) : keyed (withConverter c).
Proof. intros m. simpl. auto. Qed.

Lemma keyed_withTypeClass (c : option TypeClass) : keyed (withTypeClass c).
Proof. intros m. simpl. auto. Qed.

Lemma keyed_withProfileOf (p : option Profile) : keyed (withProfileOf p).
Proof. intros m. simpl. auto. Qed.

Lemma relates_handleMappingFunction (memberMapping : loc) (f : MemberFunction) :
  relates R (createMapForMemberHandleMappingFunction memberMapping f).
Proof.
  unfold createMapForMemberHandleMappingFunction.
  apply relates_bind; [apply relates_gets|intros current].
  apply relates_bind; [apply relates_modify; intros st; apply R_record|intros _].
  destruct (functionApply f (declarationOptions current)) as [optionCalls completion].
  apply relates_bind.
  - apply relates_tryCatch; [|intros _; apply (relates_ret tt)].
    apply relates_bind.
    + apply relates_forEach. intros call. apply relates_mutateMember, settled_declare.
    + intros _. apply relates_bind; [apply relates_complete|intros _; apply (relates_ret tt)].
  - intros _. destruct (negb _); [|apply (relates_ret tt)].
    apply relates_mutateMember, settled_push.
Qed.

Lemma relates_createMapForMemberConfigure (mapping : loc) (valueOrFunction : ValueOrFunction)
  (memberMapping : loc) (original : option string) :
  touched mapping ->
  relates R (createMapForMemberConfigure mapping valueOrFunction memberMapping original).
Proof.
  intros Ht.
  unfold createMapForMemberConfigure.
  apply relates_bind.
  - destruct valueOrFunction; [apply relates_mutateMember, settled_push
                              |apply relates_handleMappingFunction].
  - intros _. apply relates_bind; [apply relates_gets|intros newSource].
    apply relates_bind; [|intros _; apply (relates_ret mapping)].
    destruct original as [[|c s]|].
    + apply relates_mutateMapping; [exact Ht|].
      apply (keyed_withMembers (fun m => dict_set newSource memberMapping (forMemberMappings m))).
    + destruct (negb _); [|apply (relates_ret tt)].
      apply relates_mutateMapping; [exact Ht|].
      apply (keyed_withMembers
               (fun m => dict_set newSource memberMapping
                           (dict_delete (String c s) (forMemberMappings m)))).
    + apply relates_mutateMapping; [exact Ht|].
      apply (keyed_withMembers (fun m => dict_set newSource memberMapping (forMemberMappings m))).
Qed.

Lemma relates_createMapForMember (mapping : loc) (destinationProperty : string)
  (valueOrFunction : ValueOrFunction) :
  touched mapping ->
  relates R (createMapForMember mapping destinationProperty valueOrFunction).
Proof.
  intros Ht.
  unfold createMapForMember.
  apply relates_bind; [apply relates_gets|intros st].
  destruct (createMapForMemberFindMember _ _ _) as [memberMapping|].
  - destruct (ignore _); [apply (relates_ret mapping)|].
    now apply relates_createMapForMemberConfigure.
  - apply relates_bind; [apply relates_allocMember|intros memberMapping].
    now apply relates_createMapForMemberConfigure.
Qed.

Lemma settled_ignored : settled (fun mm => withValues [] (withIgnore true mm)).
Proof. intros mm. simpl. auto. Qed.

Lemma relates_createMapForSourceMember (mapping : loc) (sourceProperty : string)
  (sourceMemberConfigFunction : ValueOrFunction) :
  touched mapping ->
  relates R (createMapForSourceMember mapping sourceProperty sourceMemberConfigFunction).
Proof.
  intros Ht.
  unfold createMapForSourceMember.
  destruct sourceMemberConfigFunction as [v|f]; [apply relates_throw|].
  apply relates_bind; [apply relates_modify; intros st; apply R_record|intros _].
  destruct (functionApply f sourceMemberOptions) as [optionCalls completion].
  apply relates_bind.
  { apply relates_forEach. intros call.
    destruct (isIgnore call); [apply (relates_ret tt)|apply relates_throw]. }
  intros _. apply relates_bind; [apply relates_complete|intros _].
  apply relates_bind; [apply relates_gets|intros st].
  apply relates_bind; [|intros _; apply (relates_ret mapping)].
  destruct (dict_get _ _) as [memberMapping|].
  - destruct (existsb isIgnore optionCalls).
    + apply relates_mutateMember, settled_ignored.
    + apply relates_mutateMember, settled_push.
  - apply relates_bind; [apply relates_allocMember|intros memberMapping].
    apply relates_mutateMapping; [exact Ht|].
    apply (keyed_withMembers
             (fun m => dict_set sourceProperty memberMapping (forMemberMappings m))).
Qed.

Lemma relates_createMapForAllMembers (mapping : loc) (func : Handler) :
  touched mapping ->
  relates R (createMapForAllMembers mapping func).
Proof.
  intros Ht.
  unfold createMapForAllMembers.
  apply relates_bind; [|intros _; apply (relates_ret mapping)].
  apply relates_mutateMapping; [exact Ht|].
  apply (keyed_withHandlers (fun m => forAllMemberMappings m ++ [func])).
Qed.

Lemma relates_createMapConvertToType (mapping : loc) (typeClass : TypeClass) :
  touched mapping ->
  relates R (createMapConvertToType mapping typeClass).
Proof.
  intros Ht.
  unfold createMapConvertToType.
  apply relates_bind; [|intros _; apply (relates_ret mapping)].
  apply relates_mutateMapping; [exact Ht|]; apply keyed_withTypeClass.
Qed.

Lemma relates_createMapConvertUsing (mapping : loc) (source : ConverterSource) :
  touched mapping ->
  relates R (createMapConvertUsing mapping source).
Proof.
  intros Ht.
  unfold createMapConvertUsing.
  apply relates_bind.
  - apply relates_tryCatch; [|intros _; apply relates_throw].
    destruct source as [convertMember|self instantiate].
    + apply (relates_ret convertMember).
    + destruct (_ =? _)%nat; [apply (relates_ret (Some self))|apply relates_complete].
  - intros [converter|]; [|apply relates_throw].
    destruct (_ =? _)%nat; [|apply relates_throw].
    apply relates_mutateMapping; [exact Ht|]; apply keyed_withConverter.
Qed.

Lemma relates_createMapWithProfileMergeMappings (mapping : loc) (profileName : string) :
  touched mapping ->
  relates R (createMapWithProfileMergeMappings mapping profileName).
Proof.
  intros Ht.
  unfold createMapWithProfileMergeMappings.
  apply relates_bind; [apply relates_gets|intros st].
  destruct (mappings st !! _) as [staged|]; [|apply (relates_ret tt)].
  apply relates_bind.
  { destruct (_ <? _)%nat; [|apply (relates_ret tt)].
    apply relates_mutateMapping; [exact Ht|].
    apply (keyed_withHandlers
             (fun m => forAllMemberMappings m
                       ++ forAllMemberMappings (mappingStore st staged))). }
  intros _. apply relates_bind.
  { destruct (typeConverterFunction _); [|apply (relates_ret tt)].
    apply relates_mutateMapping; [exact Ht|]; apply keyed_withConverter. }
  intros _. apply relates_bind.
  { destruct (destinationTypeClass _); [|apply (relates_ret tt)].
    apply relates_mutateMapping; [exact Ht|]; apply keyed_withTypeClass. }
  intros _. apply relates_mutateMapping; [exact Ht|].
  apply (keyed_withMembers
           (fun m => mergeMembers (memberStore st)
                       (forMemberMappings (mappingStore st staged)) (forMemberMappings m))).
Qed.

Lemma relates_createMapWithProfile (mapping : loc) (profileName : string) :
  touched mapping ->
  relates R (createMapWithProfile mapping profileName).
Proof.
  intros Ht.
  unfold createMapWithProfile.
  apply relates_bind; [apply relates_gets|intros st].
  destruct (profiles st !! profileName) as [profile|]; [|apply relates_throw].
  destruct (String.eqb _ _); [|apply relates_throw].
  apply relates_bind; [apply relates_mutateMapping; [exact Ht|apply keyed_withProfileOf]|intros _].
  now apply relates_createMapWithProfileMergeMappings.
Qed.

(** The handle a call of the fluent interface returns is the handle it
    was made on. *)
Lemma returns_ret {A : Type} (P : A -> Prop) (a : A) : P a -> returns P (mret a).
Proof. intros H st a' [= <-]. exact H. Qed.

Lemma returns_throw {A : Type} (P : A -> Prop) (e : Error) : returns P (@throw A e).
Proof. intros st a [=]. Qed.

Lemma returns_bind {A B : Type} (P : B -> Prop) (c : M A) (k : A -> M B) :
  (forall a, returns P (k a)) -> returns P (c ≫= k).
Proof.
  intros Hk st b. unfold mbind, M_bind, bind.
  destruct (c st) as [[a|e] st']; [apply Hk|discriminate].
Qed.

Lemma createMapForMember_returns (mapping : loc) (destinationProperty : string)
  (valueOrFunction : ValueOrFunction) :
  returns (eq mapping) (createMapForMember mapping destinationProperty valueOrFunction).
Proof.
  unfold createMapForMember, createMapForMemberConfigure.
  apply returns_bind. intros st.
  destruct (createMapForMemberFindMember _ _ _) as [memberMapping|].
  - destruct (ignore _); [now apply returns_ret|].
    do 3 (apply returns_bind; intros ?). now apply returns_ret.
  - do 4 (apply returns_bind; intros ?). now apply returns_ret.
Qed.

Lemma createMapForSourceMember_returns (mapping : loc) (sourceProperty : string)
  (sourceMemberConfigFunction : ValueOrFunction) :
  returns (eq mapping)
    (createMapForSourceMember mapping sourceProperty sourceMemberConfigFunction).
Proof.
  unfold createMapForSourceMember.
  destruct sourceMemberConfigFunction as [v|f]; [apply returns_throw|].
  apply returns_bind. intros _.
  destruct (functionApply f sourceMemberOptions) as [optionCalls completion].
  do 4 (apply returns_bind; intros ?). now apply returns_ret.
Qed.

Lemma relates_bind_returns {A B : Type} (P : A -> Prop) (c : M A) (k : A -> M B) :
  relates R c -> returns P c -> (forall a, P a -> relates R (k a)) ->
  relates R (c ≫= k).
Proof.
  intros Hc Hp Hk st. unfold mbind, M_bind, bind. specialize (Hc st). specialize (Hp st).
  destruct (c st) as [[a|e] st']; simpl in *; [|exact Hc].
  eapply R_trans; [exact Hc|]. now apply Hk, Hp.
Qed.

Lemma relates_chain (calls : list ChainCall) :
  forall mapping, touched mapping -> relates R (chain mapping calls).
Proof.
  induction calls as [|call rest IH]; intros mapping Ht; [apply (relates_ret tt)|].
  destruct call; cbn [chain].
  - apply (relates_bind_returns (eq mapping));
      [now apply relates_createMapForMember|apply createMapForMember_returns|].
    intros h <-. now apply IH.
  - apply (relates_bind_returns (eq mapping));
      [now apply relates_createMapForSourceMember|apply createMapForSourceMember_returns|].
    intros h <-. now apply IH.
  - apply (relates_bind_returns (eq mapping));
      [now apply relates_createMapForAllMembers| |intros h <-; now apply IH].
    unfold createMapForAllMembers. apply returns_bind. intros _. now apply returns_ret.
  - apply (relates_bind_returns (eq mapping));
      [now apply relates_createMapConvertToType| |intros h <-; now apply IH].
    unfold createMapConvertToType. apply returns_bind. intros _. now apply returns_ret.
  - apply relates_bind; [now apply relates_createMapConvertUsing|intros _].
    destruct rest; [apply (relates_ret tt)|apply relates_throw].
  - apply relates_bind; [now apply relates_createMapWithProfile|intros _].
    destruct rest; [apply (relates_ret tt)|apply relates_throw].
Qed.

Hypothesis all_touched : forall l, touched l.

Lemma relates_createMap (s d : string) : relates R (createMap s d).
Proof. intros st. apply R_createMap. Qed.

Lemma relates_configure (profile : Profile) :
  relates R (forEach (fun '(sourceKey, destinationKey, calls) =>
                        h ← profileCreateMap profile sourceKey destinationKey;
                        chain h calls)
               (configure profile)).
Proof.
  apply relates_forEach. intros [[s d] calls].
  apply relates_bind; [apply relates_createMap|intros h; now apply relates_chain].
Qed.

Hypothesis R_setProfiles :
  forall profile st, R st (setProfiles <[profileName profile := profile]> st).

Lemma relates_addProfile (profile : Profile) : relates R (addProfile profile).
Proof.
  unfold addProfile. apply relates_bind; [apply relates_configure|intros _].
  apply relates_modify. intros st. apply R_setProfiles.
Qed.

Lemma relates_initialize (configFunction : list ConfigurationCall) :
  relates R (initialize configFunction).
Proof.
  apply relates_forEach. intros [profile|s d calls].
  - apply relates_addProfile.
  - apply relates_bind; [apply relates_createMap|intros h; now apply relates_chain].
Qed.

End Relates.

(** ** The registry of definitions *)

Lemma createMap_run (st : State) (sourceKey destinationKey : string) :
  createMap sourceKey destinationKey st
  = (Ok (nextMapping st),
     setMappings <[sourceKey +:+ destinationKey := nextMapping st]>
       (snd (allocMapping
               {| Model.sourceKey := sourceKey; Model.destinationKey := destinationKey;
                  forAllMemberMappings := []; forMemberMappings := [];
                  typeConverterFunction := None; destinationTypeClass := None;
                  profile := None |} st))).
Proof. reflexivity. Qed.

Lemma registered_initial : registered initial.
Proof. intros key l H. simpl in H. now rewrite lookup_empty in H. Qed.

Lemma keepsRegistered_storeMapping (l : loc) (f : Mapping -> Mapping) (st : State) :
  keyed f -> keepsRegistered st (storeMapping l (f (mappingStore st l)) st).
Proof.
  intros Hf H key l0 Hl0. destruct (H key l0 Hl0) as [Hlt Hkey].
  split; [exact Hlt|]. simpl. unfold update.
  destruct (Nat.eqb_spec l0 l) as [->|_]; [|exact Hkey].
  destruct (Hf (mappingStore st l)) as [-> ->]. exact Hkey.
Qed.

Lemma keepsRegistered_createMap (s d : string) (st : State) :
  keepsRegistered st (snd (createMap s d st)).
Proof.
  intros H key l Hl. unfold createMap in Hl |- *. unfold_monad. simpl in *.
  destruct (decide (key = s +:+ d)) as [->|Hne].
  - rewrite lookup_insert_eq in Hl. injection Hl as <-.
    split; [lia|]. unfold update. now rewrite Nat.eqb_refl.
  - rewrite lookup_insert_ne in Hl by congruence.
    destruct (H key l Hl) as [Hlt Hkey]. split; [lia|].
    unfold update. destruct (Nat.eqb_spec l (nextMapping st)) as [->|_]; [lia|exact Hkey].
Qed.

Lemma keepsRegistered_initialize (configFunction : list ConfigurationCall) :
  relates keepsRegistered (initialize configFunction).
Proof.
  apply (relates_initialize keepsRegistered) with (touched := fun _ => True).
  - intros st H. exact H.
  - intros st1 st2 st3 H12 H23 H. auto.
  - intros events st H. exact H.
  - intros l f st _ H. exact H.
  - intros l f st _. apply keepsRegistered_storeMapping.
  - intros mm st H. exact H.
  - apply keepsRegistered_createMap.
  - intros l. exact I.
  - intros profile st H. exact H.
Qed.

Lemma keepsRegistered_chain (mapping : loc) (calls : list ChainCall) :
  relates keepsRegistered (chain mapping calls).
Proof.
  apply (relates_chain keepsRegistered) with (touched := fun _ => True).
  - intros st H. exact H.
  - intros st1 st2 st3 H12 H23 H. auto.
  - intros events st H. exact H.
  - intros l f st _ H. exact H.
  - intros l f st _. apply keepsRegistered_storeMapping.
  - intros mm st H. exact H.
  - exact I.
Qed.

(** X8: the registry stays keyed by the keys the definitions hold.  In
    every state the configuration calls lead to (adding profiles, creating
    maps, chains of calls on their handles, complete or cut short by an
    exception), an entry of the registry is a mapping object that was
    created, and its key is the source key followed by the destination key
    of that object: no call changes the keys of a mapping object or
    registers one under another key. *)
Theorem registry_stays_keyed (st : State) (configFunction : list ConfigurationCall)
  (mapping : loc) (calls : list ChainCall) :
  registered st ->
  registered (snd (initialize configFunction st))
  /\ registered (snd (chain mapping calls st)).
Proof.
  intros H. split.
  - now apply keepsRegistered_initialize.
  - now apply keepsRegistered_chain.
Qed.

Lemma registry_stays_keyed_witness :
  registered (snd (initialize [ConfigAddProfile crossing;
                               ConfigCreateMap "S" "D" [WithProfile "P"]] initial))
  /\ registered (snd (chain 0 [ForMember "x" (Literal (VNum 1))] initial)).
Proof.
  apply (registry_stays_keyed initial
           [ConfigAddProfile crossing; ConfigCreateMap "S" "D" [WithProfile "P"]]
           0 [ForMember "x" (Literal (VNum 1))]).
  exact registered_initial.
Defined.

(** The calls chained on a handle leave the registry, the profiles and
    every mapping object but that of the handle as they are, whether the
    chain completes or raises. *)
Lemma chain_onlyDefinition (st : State) (mapping : loc) (calls : list ChainCall) :
  onlyDefinition mapping st (snd (chain mapping calls st)).
Proof.
  apply (relates_chain (onlyDefinition mapping)) with (touched := eq mapping).
  - intros st0. repeat split.
  - intros st1 st2 st3 (Hm12 & Hp12 & Hn12 & Hs12) (Hm23 & Hp23 & Hn23 & Hs23).
    repeat split; try congruence. intros l Hl. rewrite Hs23, Hs12; auto.
  - intros events st0. repeat split.
  - intros l f st0 _. repeat split.
  - intros l f st0 <- _. repeat split. intros l' Hl'. simpl. now apply update_ne.
  - intros mm st0. repeat split.
  - reflexivity.
Qed.

(** X10: [createMap] leaves the other pairs alone: for a pair with another
    concatenated key, [map] gives after the call what it gave before,
    provided the registry holds created mapping objects only (as it does
    after any configuration calls), and the concatenated key of the pair
    created is not ["__proto__"] (under that key the mapping object becomes
    the prototype of the registry, and its members are found under other
    keys). *)
Theorem createMap_leaves_other_pairs (st : State) (sourceKey destinationKey : string)
  (otherSourceKey otherDestinationKey : string) (sourceObject : Value) :
  registered st ->
  sourceKey +:+ destinationKey <> "__proto__" ->
  otherSourceKey +:+ otherDestinationKey <> sourceKey +:+ destinationKey ->
  fst (AutoMapper.map otherSourceKey otherDestinationKey sourceObject
         (snd (createMap sourceKey destinationKey st)))
  = fst (AutoMapper.map otherSourceKey otherDestinationKey sourceObject st).
Proof.
  intros Hreg _ Hne. rewrite createMap_run. unfold AutoMapper.map. unfold_monad.
  cbn [id snd setMappings allocMapping mappings memberStore mappingStore].
  rewrite lookup_insert_ne by congruence.
  destruct (mappings st !! (otherSourceKey +:+ otherDestinationKey)) as [l|] eqn:E;
    [|reflexivity].
  destruct (Hreg _ _ E) as [Hl _]. rewrite update_ne by lia.
  destruct sourceObject; reflexivity.
Qed.

Lemma createMap_leaves_other_pairs_witness :
  fst (AutoMapper.map "ab" "c" (VObj None [("x", VNum 0)])
         (snd (createMap "a" "b" (after registerAbC))))
  = fst (AutoMapper.map "ab" "c" (VObj None [("x", VNum 0)]) (after registerAbC)).
Proof.
  apply (createMap_leaves_other_pairs (after registerAbC) "a" "b" "ab" "c").
  - apply (keepsRegistered_chain 0 [ForMember "x" (Literal (VNum 1))]
             (snd (createMap "ab" "c" initial))).
    apply keepsRegistered_createMap. exact registered_initial.
  - discriminate.
  - discriminate.
Defined.

(** ** Member mappings *)

Lemma membersSettle_refl (st : State) : membersSettle st st.
Proof. split; [lia|auto]. Qed.

Lemma membersSettle_trans (st1 st2 st3 : State) :
  membersSettle st1 st2 -> membersSettle st2 st3 -> membersSettle st1 st3.
Proof.
  intros [Hn12 H12] [Hn23 H23]. split; [lia|]. intros l Hl.
  destruct (H12 l Hl) as [Hd12 Hi12]. destruct (H23 l ltac:(lia)) as [Hd23 Hi23].
  split; [congruence|auto].
Qed.

Lemma membersSettle_storeMember (l : loc) (f : MemberMapping -> MemberMapping) (st : State) :
  settled f -> membersSettle st (storeMember l (f (memberStore st l)) st).
Proof.
  intros Hf. split; [simpl; lia|]. intros l0 _. simpl. unfold update.
  destruct (Nat.eqb_spec l0 l) as [->|_]; [apply Hf|auto].
Qed.

Lemma membersSettle_allocMember (mm : MemberMapping) (st : State) :
  membersSettle st (snd (allocMember mm st)).
Proof.
  split; [simpl; lia|]. intros l Hl. simpl. unfold update.
  destruct (Nat.eqb_spec l (nextMember st)) as [->|_]; [lia|auto].
Qed.

Lemma membersSettle_initialize (configFunction : list ConfigurationCall) :
  relates membersSettle (initialize configFunction).
Proof.
  apply (relates_initialize membersSettle) with (touched := fun _ => True).
  - apply membersSettle_refl.
  - apply membersSettle_trans.
  - intros events st. split; [simpl; lia|simpl; auto].
  - intros l f st. apply membersSettle_storeMember.
  - intros l f st _ _. split; [simpl; lia|simpl; auto].
  - apply membersSettle_allocMember.
  - intros s d st. split; [simpl; lia|simpl; auto].
  - intros l. exact I.
  - intros profile st. split; [simpl; lia|simpl; auto].
Qed.

Lemma membersSettle_chain (mapping : loc) (calls : list ChainCall) :
  relates membersSettle (chain mapping calls).
Proof.
  apply (relates_chain membersSettle) with (touched := fun _ => True).
  - apply membersSettle_refl.
  - apply membersSettle_trans.
  - intros events st. split; [simpl; lia|simpl; auto].
  - intros l f st. apply membersSettle_storeMember.
  - intros l f st _ _. split; [simpl; lia|simpl; auto].
  - apply membersSettle_allocMember.
  - exact I.
Qed.

(** X11: a member mapping that is ignored stays ignored, and no member
    mapping ever changes the destination member it is for, whatever
    configuration calls follow (chains of calls on any handle, profiles
    added, maps created), complete or cut short by an exception. *)
Theorem ignored_stays_ignored (st : State) (configFunction : list ConfigurationCall)
  (mapping : loc) (calls : list ChainCall) (l : loc) :
  l < nextMember st ->
  forall st',
    st' = snd (initialize configFunction st) \/ st' = snd (chain mapping calls st) ->
    destinationProperty (memberStore st' l) = destinationProperty (memberStore st l)
    /\ (ignore (memberStore st l) = true -> ignore (memberStore st' l) = true).
Proof.
  intros Hl st' [->| ->].
  - now apply membersSettle_initialize.
  - now apply membersSettle_chain.
Qed.

Lemma ignored_stays_ignored_witness :
  let st := after memberIgnored in
  let st' := snd (chain 0 [ForMember "x" (Literal (VNum 1));
                           ForSourceMember "x" (Function emptyFunction)] st) in
  destinationProperty (memberStore st' 0) = destinationProperty (memberStore st 0)
  /\ (ignore (memberStore st 0) = true -> ignore (memberStore st' 0) = true).
Proof.
  intros st st'.
  apply (ignored_stays_ignored st [] 0
           [ForMember "x" (Literal (VNum 1)); ForSourceMember "x" (Function emptyFunction)] 0).
  - vm_compute. lia.
  - right. reflexivity.
Defined.

(** ** Profiles *)

Lemma sameProfiles_configure (profile : Profile) :
  relates sameProfiles
    (forEach (fun '(sourceKey, destinationKey, calls) =>
                h ← profileCreateMap profile sourceKey destinationKey;
                chain h calls)
       (configure profile)).
Proof.
  apply (relates_configure sameProfiles) with (touched := fun _ => True);
    try (intros; reflexivity).
  intros st1 st2 st3 H12 H23. unfold sameProfiles in *. congruence.
Qed.


Lemma keepsProfilesByName_initialize (configFunction : list ConfigurationCall) :
  relates keepsProfilesByName (initialize configFunction).
Proof.
  apply (relates_initialize keepsProfilesByName) with (touched := fun _ => True);
    try (intros; intros H; exact H).
  - intros st1 st2 st3 H12 H23 H. auto.
  - intros l f st _ H. exact H.
  - intros l f st _ _ H. exact H.
  - intros l. exact I.
  - intros profile st H name p. simpl.
    destruct (decide (name = profileName profile)) as [->|Hne].
    + rewrite lookup_insert_eq. now intros [= <-].
    + rewrite lookup_insert_ne by congruence. apply H.
Qed.

Lemma createMapWithProfileMergeMappings_returns (mapping : loc) (name : string) (st : State) :
  fst (createMapWithProfileMergeMappings mapping name st) = Ok tt.
Proof.
  unfold createMapWithProfileMergeMappings, mutateMapping. unfold_monad. simpl.
  destruct (mappings st !! _) as [staged|]; [|reflexivity].
  destruct (_ <? _)%nat; simpl;
    destruct (typeConverterFunction _); simpl;
    destruct (destinationTypeClass _); reflexivity.
Qed.

(** X13: after any configuration calls, [withProfile] raises the error
    for a profile that is not found, leaving everything as it is, when no
    profile is registered under the name; and when one is, it completes:
    a profile is registered under its own name, so it passes the test of
    its name.  That it completes is stated for definitions, the live one and
    the staged one if there is one, whose member mappings are keyed by, and
    mapped from, names other than ["hasOwnProperty"], ["__proto__"] and
    integer-like names, on which the loops of the merge do not raise. *)
Theorem withProfile_fails_for_unknown_names_only (st : State)
  (configFunction : list ConfigurationCall) (mapping : loc) (name : string) :
  profilesByName st ->
  forall st', st' = snd (initialize configFunction st) ->
    (profiles st' !! name = None ->
     createMapWithProfile mapping name st' = (Throw (ProfileNotFound name), st'))
    /\ (profiles st' !! name <> None ->
        listedNames (memberStore st') (forMemberMappings (mappingStore st' mapping)) = true ->
        (forall staged,
           mappings st' !! profileMappingKey name (mappingStore st' mapping) = Some staged ->
           listedNames (memberStore st') (forMemberMappings (mappingStore st' staged)) = true) ->
        fst (createMapWithProfile mapping name st') = Ok tt).
Proof.
  intros H st' ->. apply (keepsProfilesByName_initialize configFunction) in H.
  set (st' := snd (initialize configFunction st)) in *.
  unfold createMapWithProfile. unfold_monad. simpl. split.
  - intros ->. reflexivity.
  - destruct (profiles st' !! name) as [profile|] eqn:E; [intros _ _ _|congruence].
    rewrite (H name profile E), String.eqb_refl.
    unfold mutateMapping, modify.
    apply createMapWithProfileMergeMappings_returns.
Qed.

Lemma withProfile_fails_for_unknown_names_only_witness :
  let st' := snd (initialize [ConfigAddProfile crossing; ConfigCreateMap "S" "D" []]
                    initial) in
  createMapWithProfile 1 "Q" st' = (Throw (ProfileNotFound "Q"), st')
  /\ fst (createMapWithProfile 1 "P" st') = Ok tt.
Proof.
  intros st'.
  assert (H : profilesByName initial)
    by (intros name profile H; simpl in H; now rewrite lookup_empty in H).
  split.
  - apply (proj1 (withProfile_fails_for_unknown_names_only initial
                    [ConfigAddProfile crossing; ConfigCreateMap "S" "D" []] 1 "Q"
                    H st' eq_refl)).
    vm_compute. reflexivity.
  - apply (proj2 (withProfile_fails_for_unknown_names_only initial
                    [ConfigAddProfile crossing; ConfigCreateMap "S" "D" []] 1 "P"
                    H st' eq_refl)).
    + vm_compute. discriminate.
    + vm_compute. reflexivity.
    + intros staged Hs.
      assert (Hkey : mappings st' !! profileMappingKey "P" (mappingStore st' 1) = Some 0)
        by (vm_compute; reflexivity).
      assert (Hs0 : Some staged = Some 0) by (rewrite <- Hs; exact Hkey).
      injection Hs0 as ->. vm_compute. reflexivity.
Defined.

(** ** Type converters *)

(** X14: [convertUsing] either installs a converter function with exactly
    one parameter as the converter of the definition, changing nothing
    else, or raises the error for an invalid configuration value (also
    when instantiating the class raised something else) and changes
    nothing at all. *)
Theorem convertUsing_installs_or_changes_nothing (mapping : loc)
  (typeConverterClassOrFunction : ConverterSource) (st : State) :
  (exists converter,
     parameters converter = 1
     /\ createMapConvertUsing mapping typeConverterClassOrFunction st
        = (Ok tt, storeMapping mapping
                    (withConverter (Some converter) (mappingStore st mapping)) st))
  \/ createMapConvertUsing mapping typeConverterClassOrFunction st
     = (Throw InvalidConfiguration, st).
Proof.
  unfold createMapConvertUsing, mutateMapping, tryCatch. unfold_monad.
  destruct typeConverterClassOrFunction as [[converter|]|self instantiate]; simpl.
  - destruct (parameters converter =? 1)%nat eqn:E; [|now right].
    left. exists converter. apply Nat.eqb_eq in E. auto.
  - now right.
  - destruct (parameters self =? 1)%nat eqn:E.
    + rewrite E. left. exists self. apply Nat.eqb_eq in E. auto.
    + destruct instantiate as [[converter|]|e]; simpl; try now right.
      destruct (parameters converter =? 1)%nat eqn:E'; [|now right].
      left. exists converter. apply Nat.eqb_eq in E'. auto.
Qed.

(** ** The definitions a profile stages *)

Lemma string_append_assoc (a b c : string) : (a +:+ b) +:+ c = a +:+ (b +:+ c).
Proof.
  induction a as [|x a IH]; [reflexivity|].
  change (String x ((a +:+ b) +:+ c) = String x (a +:+ (b +:+ c))). now rewrite IH.
Qed.

(** X15: a definition created by a profile's [createMap] is the one
    [withProfile] looks up for the same pair of keys exactly when both
    keys are non-empty: an empty key is left without the prefix, so the
    key it is registered under is not the key [withProfile] computes. *)
Theorem staged_definition_is_found (profile : Profile) (sourceKey destinationKey : string)
  (live : Mapping) :
  Model.sourceKey live = sourceKey ->
  Model.destinationKey live = destinationKey ->
  (sourceKey <> "" /\ destinationKey <> ""
   -> forall st,
        mappings (snd (profileCreateMap profile sourceKey destinationKey st))
          !! profileMappingKey (profileName profile) live
        = Some (nextMapping st))
  /\ (sourceKey = "" \/ destinationKey = ""
      -> prefixed profile sourceKey +:+ prefixed profile destinationKey
         <> profileMappingKey (profileName profile) live).
Proof.
  intros Hs Hd. unfold profileMappingKey. rewrite Hs, Hd. split.
  - intros [Hns Hnd] st. unfold profileCreateMap.
    destruct (createMap_registers st (prefixed profile sourceKey)
                (prefixed profile destinationKey)) as (st' & Hrun & Hm & _).
    rewrite Hrun. cbn [snd]. rewrite Hm.
    unfold prefixed. apply String.eqb_neq in Hns, Hnd. rewrite Hns, Hnd.
    rewrite !string_append_assoc. apply lookup_insert_eq.
  - intros Hempty Heq. apply (f_equal String.length) in Heq.
    unfold prefixed in Heq.
    destruct Hempty as [-> | ->]; cbn [String.eqb] in Heq;
      [destruct (String.eqb destinationKey "")|destruct (String.eqb sourceKey "")];
      rewrite ?string_length_append in Heq; cbn [String.length] in Heq;
      rewrite ?string_length_append in Heq; cbn [String.length] in Heq; lia.
Qed.

Lemma staged_definition_is_found_witness :
  let live := mappingStore (after (createMap "S" "D")) 0 in
  mappings (snd (profileCreateMap crossing "S" "D" initial))
    !! profileMappingKey (profileName crossing) live
  = Some 0.
Proof.
  intros live.
  refine (proj1 (staged_definition_is_found crossing "S" "D" live eq_refl eq_refl) _ initial).
  split; discriminate.
Defined.

(** * Configuration followed by mapping *)

Lemma map_fst_snd {A B : Type} (l : list (A * B)) :
  List.map (fun entry => (fst entry, snd entry)) l = l.
Proof. induction l as [|[a b] l IH]; simpl; [reflexivity|now rewrite IH]. Qed.



(** What [forMember(destinationProperty, opts => opts.mapFrom(sourceProperty))]
    leaves on a handle just created. *)
Lemma forMember_mapFrom_run (st : State) (sourceKey destinationKey : string)
  (destinationProperty sourceProperty : string) :
  exists st',
    (h ← createMap sourceKey destinationKey;
     createMapForMember h destinationProperty (Function (mapFromFunction sourceProperty))) st
    = (Ok (nextMapping st), st')
    /\ mappings st' !! (sourceKey +:+ destinationKey) = Some (nextMapping st)
    /\ mappingStore st' (nextMapping st)
       = {| Model.sourceKey := sourceKey; Model.destinationKey := destinationKey;
            forAllMemberMappings := [];
            forMemberMappings := [(sourceProperty, nextMember st)];
            typeConverterFunction := None; destinationTypeClass := None;
            profile := None |}
    /\ memberStore st' (nextMember st)
       = {| Model.sourceProperty := sourceProperty;
            Model.destinationProperty := Some destinationProperty;
            mappingValuesAndFunctions := [Function (mapFromFunction sourceProperty)];
            ignore := false; conditionFunction := None |}.
Proof.
  eexists. split.
  - unfold mbind at 1, M_bind at 1, bind at 1. rewrite createMap_run.
    unfold createMapForMember. unfold_monad. cbn [id allocMapping snd setMappings
      memberStore mappingStore]. rewrite update_eq.
    cbn [forMemberMappings createMapForMemberFindMember allocMember].
    unfold createMapForMemberConfigure, createMapForMemberHandleMappingFunction,
      mutateMember, mutateMapping, tryCatch, complete.
    unfold_monad. cbn [memberStore]. rewrite update_eq.
    repeat (progress (unfold_monad; cbn; unfold update; rewrite ?Nat.eqb_refl)).
    reflexivity.
  - cbn. unfold update. rewrite !Nat.eqb_refl.
    split; [apply lookup_insert_eq|]. split; reflexivity.
Qed.



(** The options object of [forSourceMember] has [ignore] only: the calls
    change nothing, and any other call raises. *)
Lemma forEach_ignore_only (optionCalls : list OptionsCall) (st : State) :
  forEach (fun call => if isIgnore call then ret tt else throw TypeError) optionCalls st
  = (Ok tt, st)
  \/ forEach (fun call => if isIgnore call then ret tt else throw TypeError) optionCalls st
     = (Throw TypeError, st).
Proof.
  induction optionCalls as [|call rest IH]; [now left|].
  cbn [forEach]. unfold mbind, M_bind, bind.
  destruct (isIgnore call); [exact IH|now right].
Qed.

(** X18: after [forSourceMember(p, f)] has completed with [f] calling
    [ignore()], the source member [p] is skipped when mapping: nothing is
    called for it and the destination object is left as it is, whether the
    definition had a member mapping under [p] before or not. *)
Theorem forSourceMember_ignore_skips (st : State) (mapping : loc) (sourceProperty : string)
  (f : MemberFunction) (h : loc) :
  fst (createMapForSourceMember mapping sourceProperty (Function f) st) = Ok h ->
  existsb isIgnore (fst (functionApply f sourceMemberOptions)) = true ->
  forall st', st' = snd (createMapForSourceMember mapping sourceProperty (Function f) st) ->
  forall source v destination,
    mapProperty (memberStore st') (mappingStore st' mapping) source sourceProperty v
      destination
    = ([], Ok destination).
Proof.
  intros Hok Hignore st' -> source v destination. revert Hok.
  unfold createMapForSourceMember.
  destruct (functionApply f sourceMemberOptions) as [optionCalls completion].
  cbn [fst] in Hignore. rewrite Hignore.
  unfold mbind, M_bind, bind, modify.
  destruct (forEach_ignore_only optionCalls (record [SourceConfigured f sourceMemberOptions] st))
    as [-> | ->]; [|discriminate].
  destruct completion as [returned|e]; [|discriminate].
  cbn [complete ret gets id].
  set (st1 := record [SourceConfigured f sourceMemberOptions] st).
  destruct (dict_get sourceProperty (forMemberMappings (mappingStore st1 mapping)))
    as [memberMapping|] eqn:E.
  - intros _. unfold mutateMember, modify. cbn [fst snd ret].
    unfold mapProperty. cbn [mappingStore storeMember memberStore]. rewrite E, update_eq.
    reflexivity.
  - intros _. unfold alloc, mutateMapping, modify, ret. cbn [allocMember fst snd].
    unfold mapProperty. cbn [mappingStore storeMapping memberStore]. rewrite update_eq.
    cbn [forMemberMappings withMembers]. rewrite dict_get_set_eq, update_eq.
    reflexivity.
Qed.

Lemma forSourceMember_ignore_skips_witness :
  let st' := snd (createMapForSourceMember 0 "x" (Function ignoreFunction) (after registerAbC)) in
  mapProperty (memberStore st') (mappingStore st' 0) (VObj None [("x", VNum 0)]) "x" (VNum 0)
    (VObj None [("y", VNum 1)])
  = ([], Ok (VObj None [("y", VNum 1)])).
Proof.
  intros st'.
  apply (forSourceMember_ignore_skips (after registerAbC) 0 "x" ignoreFunction 0);
    reflexivity.
Defined.

(** X19: an instance of the base class [TypeConverter] is accepted by
    [convertUsing] (its [convert] member has one parameter), and every
    [map] of a single input under the definition then raises what the
    abstract [convert] raises. *)
Theorem base_converter_raises_when_mapping (st : State) (sourceKey destinationKey : string)
  (source : Value) :
  isArray source = false ->
  fst (((h ← createMap sourceKey destinationKey;
         createMapConvertUsing h (ConverterInstance (Some TypeConverter_convert)));;
        AutoMapper.map sourceKey destinationKey source) st)
  = Throw (UserError (VStr "The TypeConverter.convert method is abstract. Use a TypeConverter extension class instead.")).
Proof.
  intros Ha. unfold mbind at 1 2, M_bind at 1 2, bind at 1 2. rewrite createMap_run.
  unfold createMapConvertUsing, mutateMapping, tryCatch. unfold_monad.
  cbn [parameters TypeConverter_convert Nat.eqb fst snd].
  rewrite (map_resolved_item _ _ _ (nextMapping st));
    [|cbn; apply lookup_insert_eq|exact Ha].
  unfold perform. cbn [fst snd mappingStore storeMapping setMappings allocMapping memberStore].
  rewrite !update_eq. reflexivity.
Qed.

Lemma base_converter_raises_when_mapping_witness :
  fst (((h ← createMap "a" "b";
         createMapConvertUsing h (ConverterInstance (Some TypeConverter_convert)));;
        AutoMapper.map "a" "b" (VObj None [("x", VNum 1)])) initial)
  = Throw (UserError (VStr "The TypeConverter.convert method is abstract. Use a TypeConverter extension class instead.")).
Proof.
  apply (base_converter_raises_when_mapping initial "a" "b" (VObj None [("x", VNum 1)])).
  reflexivity.
Defined.

(** * The dictionary of member mappings stays keyed by source member *)

Lemma onlyMember_refl (q : loc) (st : State) : onlyMember q st st.
Proof. repeat split. Qed.

Lemma onlyMember_trans (q : loc) (st1 st2 st3 : State) :
  onlyMember q st1 st2 -> onlyMember q st2 st3 -> onlyMember q st1 st3.
Proof.
  intros (Hm12 & Hs12 & Hn12) (Hm23 & Hs23 & Hn23). repeat split; try congruence.
  intros l Hl. rewrite Hm23, Hm12; auto.
Qed.

Lemma onlyMember_mutateMember (q : loc) (f : MemberMapping -> MemberMapping) :
  relates (onlyMember q) (mutateMember q f).
Proof.
  apply relates_modify. intros st. repeat split. intros l Hl. simpl.
  now apply update_ne.
Qed.

(** The dry run changes the member mapping it is made for, and nothing
    else of the definitions. *)
Lemma handleMappingFunction_onlyMember (q : loc) (f : MemberFunction) :
  relates (onlyMember q) (createMapForMemberHandleMappingFunction q f).
Proof.
  pose proof (onlyMember_refl q) as Hrefl. pose proof (onlyMember_trans q) as Htrans.
  unfold createMapForMemberHandleMappingFunction.
  apply relates_bind; [exact Htrans|now apply relates_gets|intros current].
  apply relates_bind; [exact Htrans| |intros _].
  { apply relates_modify. intros st. repeat split. }
  destruct (functionApply f (declarationOptions current)) as [optionCalls completion].
  apply relates_bind; [exact Htrans| |intros _].
  - apply relates_tryCatch; [exact Htrans| |intros _; now apply (relates_ret _ Hrefl tt)].
    apply relates_bind; [exact Htrans| |intros _].
    + apply relates_forEach; [exact Hrefl|exact Htrans|].
      intros call. apply onlyMember_mutateMember.
    + apply relates_bind; [exact Htrans|now apply relates_complete|].
      intros _. now apply (relates_ret _ Hrefl tt).
  - destruct (negb _); [|now apply (relates_ret _ Hrefl tt)].
    apply onlyMember_mutateMember.
Qed.

(** [forMember], once the member mapping is found or created: the value
    or function is taken in, which changes that member mapping only, and
    the dictionary is keyed again. *)
Lemma createMapForMemberConfigure_run (mapping q : loc) (valueOrFunction : ValueOrFunction)
  (original : option string) (st : State) :
  exists st1,
    onlyMember q st st1
    /\ createMapForMemberConfigure mapping valueOrFunction q original st
       = (Ok mapping,
          let newSource := sourceProperty (memberStore st1 q) in
          let dict := forMemberMappings (mappingStore st1 mapping) in
          match original with
          | None | Some "" =>
              storeMapping mapping
                (withMembers (dict_set newSource q dict) (mappingStore st1 mapping)) st1
          | Some o =>
              if negb (String.eqb o newSource)
              then storeMapping mapping
                     (withMembers (dict_set newSource q (dict_delete o dict))
                        (mappingStore st1 mapping)) st1
              else st1
          end).
Proof.
  assert (Hfirst : exists st1,
            onlyMember q st st1
            /\ match valueOrFunction with
               | Function f => createMapForMemberHandleMappingFunction q f
               | Literal _ => mutateMember q (push valueOrFunction)
               end st = (Ok tt, st1)).
  { destruct valueOrFunction as [v|f].
    - eexists. split; [|reflexivity]. apply (onlyMember_mutateMember q (push (Literal v)) st).
    - destruct (handleMappingFunction_spec q f st) as (st1 & Hrun & _).
      exists st1. split; [|exact Hrun].
      pose proof (handleMappingFunction_onlyMember q f st) as H. now rewrite Hrun in H. }
  destruct Hfirst as (st1 & Honly & Hrun). exists st1. split; [exact Honly|].
  unfold createMapForMemberConfigure. unfold mbind at 1. unfold M_bind, bind.
  rewrite Hrun. unfold mutateMapping. unfold_monad. cbn [fst snd].
  destruct original as [[|c o]|]; [reflexivity| |reflexivity].
  destruct (negb _); reflexivity.
Qed.

(** X20: [forMember] keeps the dictionary of member mappings of its
    definition keyed by source member: if every key of the dictionary is
    the source member of the member mapping it holds, and these member
    mappings were created, the same holds after
    [forMember(destinationProperty, valueOrFunction)], whatever the function
    given calls on its options, provided the member mapping found for the
    destination member is not mapped from the member with the empty name
    (the test of the original source member takes the empty name for no
    name, and would leave the old key in place). *)
Theorem forMember_keeps_keys (st : State) (mapping : loc) (destinationProperty : string)
  (valueOrFunction : ValueOrFunction) :
  let dict := forMemberMappings (mappingStore st mapping) in
  keyedBySource (memberStore st) dict ->
  allocated st dict ->
  (forall l,
     createMapForMemberFindMember (memberStore st) dict (Some destinationProperty) = Some l ->
     sourceProperty (memberStore st l) <> "") ->
  forall st',
    st' = snd (createMapForMember mapping destinationProperty valueOrFunction st) ->
    keyedBySource (memberStore st') (forMemberMappings (mappingStore st' mapping))
    /\ allocated st' (forMemberMappings (mappingStore st' mapping)).
Proof.
  intros dict [Hnd Hsrc] Halloc Hnonempty st' ->.
  assert (Hrun :
    createMapForMember mapping destinationProperty valueOrFunction st
    = match createMapForMemberFindMember (memberStore st) dict (Some destinationProperty) with
      | Some q =>
          if ignore (memberStore st q) then (Ok mapping, st)
          else createMapForMemberConfigure mapping valueOrFunction q
                 (Some (sourceProperty (memberStore st q))) st
      | None =>
          createMapForMemberConfigure mapping valueOrFunction (nextMember st) None
            (snd (allocMember (newMemberMapping destinationProperty) st))
      end).
  { unfold createMapForMember. unfold mbind at 1. unfold M_bind, bind, gets, id.
    fold dict. destruct (createMapForMemberFindMember _ dict _) as [q|]; [|reflexivity].
    now destruct (ignore (memberStore st q)). }
  rewrite Hrun. clear Hrun.
  destruct (createMapForMemberFindMember (memberStore st) dict (Some destinationProperty))
    as [q|] eqn:Efound.
  - destruct (ignore (memberStore st q)) eqn:Ei.
    { cbn. split; [split; assumption|exact Halloc]. }
    destruct (findMember_some _ _ _ _ Hnd Efound) as (key & Hq & _).
    pose proof (Hsrc _ _ Hq) as Hkey. subst key.
    specialize (Hnonempty q eq_refl).
    destruct (createMapForMemberConfigure_run mapping q valueOrFunction
                (Some (sourceProperty (memberStore st q))) st)
      as (st1 & (Hm & Hs & Hn) & Hrun).
    rewrite Hrun. cbn [snd]. cbv zeta. rewrite Hs. fold dict.
    set (s0 := sourceProperty (memberStore st q)) in *.
    set (s1 := sourceProperty (memberStore st1 q)).
    assert (Hother : forall key l, key <> s0 -> dict_get key dict = Some l ->
                                   sourceProperty (memberStore st1 l) = key).
    { intros key l Hne Hl. rewrite Hm; [now apply Hsrc|].
      intros ->. apply Hne. symmetry. now apply Hsrc. }
    destruct s0 as [|c o] eqn:Es0; [congruence|]. rewrite <- Es0 in *.
    destruct (String.eqb_spec s0 s1) as [Heq|Hne]; cbn [negb].
    + rewrite Hs. fold dict. split; [split; [exact Hnd|]|].
      * intros key l Hl. destruct (String.eqb_spec key s0) as [->|Hk].
        -- rewrite Hq in Hl. injection Hl as <-. subst s1. congruence.
        -- now apply Hother.
      * intros key l Hl. rewrite Hn. now apply (Halloc key).
    + cbn [mappingStore storeMapping memberStore]. rewrite update_eq.
      cbn [forMemberMappings withMembers].
      split; [split; [now apply dict_set_NoDup, dict_delete_NoDup|]|].
      * intros key l Hl. destruct (String.eqb_spec key s1) as [->|Hk1].
        -- rewrite dict_get_set_eq in Hl. now injection Hl as <-.
        -- rewrite dict_get_set_ne in Hl by exact Hk1.
           destruct (String.eqb_spec key s0) as [->|Hk0].
           ++ now rewrite dict_get_delete_eq in Hl.
           ++ rewrite dict_get_delete_ne in Hl by exact Hk0.
              apply Hother; [congruence|exact Hl].
      * intros key l Hl. unfold storeMapping. cbn [nextMember]. rewrite Hn.
        destruct (String.eqb_spec key s1) as [->|Hk1].
        -- rewrite dict_get_set_eq in Hl. injection Hl as <-. now apply (Halloc s0).
        -- rewrite dict_get_set_ne in Hl by exact Hk1.
           destruct (String.eqb_spec key s0) as [->|Hk0].
           ++ now rewrite dict_get_delete_eq in Hl.
           ++ rewrite dict_get_delete_ne in Hl by exact Hk0. now apply (Halloc key).
  - cbn [allocMember snd].
    set (st0 := {| profiles := profiles st; mappings := mappings st;
                   mappingStore := mappingStore st; nextMapping := nextMapping st;
                   memberStore := update (memberStore st) (nextMember st)
                                    (newMemberMapping destinationProperty);
                   nextMember := S (nextMember st);
                   argumentStore := argumentStore st;
                   nextArguments := nextArguments st; calls := calls st |}).
    destruct (createMapForMemberConfigure_run mapping (nextMember st) valueOrFunction
                None st0) as (st1 & (Hm & Hs & Hn) & Hrun).
    rewrite Hrun. cbn [snd]. cbv zeta. rewrite Hs.
    cbn [mappingStore storeMapping memberStore st0]. rewrite update_eq.
    cbn [forMemberMappings withMembers]. fold dict.
    set (s1 := sourceProperty (memberStore st1 (nextMember st))).
    split; [split; [now apply dict_set_NoDup|]|].
    + intros key l Hl. destruct (String.eqb_spec key s1) as [->|Hk1].
      * rewrite dict_get_set_eq in Hl. now injection Hl as <-.
      * rewrite dict_get_set_ne in Hl by exact Hk1.
        pose proof (Halloc _ _ Hl) as Hlt.
        rewrite Hm by lia. cbn [memberStore st0]. rewrite update_ne by lia.
        now apply Hsrc.
    + intros key l Hl. unfold storeMapping. cbn [nextMember]. rewrite Hn.
      cbn [nextMember st0].
      destruct (String.eqb_spec key s1) as [->|Hk1].
      * rewrite dict_get_set_eq in Hl. injection Hl as <-. lia.
      * rewrite dict_get_set_ne in Hl by exact Hk1.
        pose proof (Halloc _ _ Hl). lia.
Qed.

Lemma forMember_keeps_keys_witness :
  let st := after (h ← createMap "a" "b";
                   createMapForMember h "x" (Function (mapFromFunction "a"))) in
  let st' := snd (createMapForMember 0 "x" (Function (mapFromFunction "b")) st) in
  keyedBySource (memberStore st') (forMemberMappings (mappingStore st' 0))
  /\ allocated st' (forMemberMappings (mappingStore st' 0)).
Proof.
  intros st st'.
  apply (forMember_keeps_keys st 0 "x" (Function (mapFromFunction "b"))).
  - split.
    + repeat constructor. simpl. tauto.
    + intros key l. simpl. destruct (String.eqb_spec key "a") as [->|_]; [|discriminate].
      now intros [= <-].
  - intros key l. simpl. destruct (String.eqb key "a"); [|discriminate].
    intros [= <-]. lia.
  - intros l. simpl. intros [= <-]. discriminate.
  - reflexivity.
Defined.

(** X21: [forSourceMember] keeps the dictionary of member mappings of its
    definition keyed by source member, too: if every key of the
    dictionary is the source member of the member mapping it holds, and
    these member mappings were created, the same holds after
    [forSourceMember(sourceProperty, configFunction)], whether it completes
    or raises. *)
Theorem forSourceMember_keeps_keys (st : State) (mapping : loc) (sourceProperty : string)
  (sourceMemberConfigFunction : ValueOrFunction) :
  let dict := forMemberMappings (mappingStore st mapping) in
  keyedBySource (memberStore st) dict ->
  allocated st dict ->
  forall st',
    st' = snd (createMapForSourceMember mapping sourceProperty sourceMemberConfigFunction st) ->
    keyedBySource (memberStore st') (forMemberMappings (mappingStore st' mapping))
    /\ allocated st' (forMemberMappings (mappingStore st' mapping)).
Proof.
  intros dict [Hnd Hsrc] Halloc st' ->.
  unfold createMapForSourceMember.
  destruct sourceMemberConfigFunction as [v|f]; [split; [split|]; assumption|].
  destruct (functionApply f sourceMemberOptions) as [optionCalls completion].
  unfold mbind, M_bind, bind, modify.
  destruct (forEach_ignore_only optionCalls (record [SourceConfigured f sourceMemberOptions] st))
    as [-> | ->]; [|split; [split|]; assumption].
  destruct completion as [returned|e]; [|split; [split|]; assumption].
  cbn [complete ret gets id].
  set (st1 := record [SourceConfigured f sourceMemberOptions] st).
  change (forMemberMappings (mappingStore st1 mapping)) with dict.
  destruct (dict_get sourceProperty dict) as [q|] eqn:E.
  - assert (Hkeep : forall g : MemberMapping -> MemberMapping,
              (forall mm, Model.sourceProperty (g mm) = Model.sourceProperty mm) ->
              keyedBySource (update (memberStore st) q (g (memberStore st q))) dict).
    { intros g Hg. split; [exact Hnd|]. intros key l Hl. unfold update.
      destruct (Nat.eqb_spec l q) as [->|_]; [rewrite Hg|]; now apply Hsrc. }
    destruct (existsb isIgnore optionCalls); unfold mutateMember, modify, ret;
      cbn [fst snd]; (split; [|exact Halloc]).
    + apply (Hkeep (fun mm => withValues [] (withIgnore true mm))). reflexivity.
    + apply (Hkeep (push (Function f))). reflexivity.
  - unfold alloc, mutateMapping, modify, ret. cbn [allocMember fst snd].
    cbn [mappingStore storeMapping memberStore]. rewrite update_eq.
    cbn [forMemberMappings withMembers]. fold dict.
    split; [split; [now apply dict_set_NoDup|]|].
    + intros key l Hl. unfold update.
      destruct (String.eqb_spec key sourceProperty) as [->|Hk].
      * rewrite dict_get_set_eq in Hl. injection Hl as <-. now rewrite Nat.eqb_refl.
      * rewrite dict_get_set_ne in Hl by exact Hk. pose proof (Halloc _ _ Hl) as Hlt.
        cbn [nextMember st1 record] in *.
        destruct (Nat.eqb_spec l (nextMember st)) as [->|_]; [lia|now apply Hsrc].
    + intros key l Hl. cbn [nextMember].
      destruct (String.eqb_spec key sourceProperty) as [->|Hk].
      * rewrite dict_get_set_eq in Hl. injection Hl as <-. cbn. lia.
      * rewrite dict_get_set_ne in Hl by exact Hk. pose proof (Halloc _ _ Hl). cbn. lia.
Qed.

Lemma forSourceMember_keeps_keys_witness :
  let st := after registerAbC in
  let st' := snd (createMapForSourceMember 0 "p" (Function ignoreFunction) st) in
  keyedBySource (memberStore st') (forMemberMappings (mappingStore st' 0))
  /\ allocated st' (forMemberMappings (mappingStore st' 0)).
Proof.
  intros st st'.
  apply (forSourceMember_keeps_keys st 0 "p" (Function ignoreFunction)).
  - split.
    + repeat constructor. simpl. tauto.
    + intros key l. simpl. destruct (String.eqb_spec key "x") as [->|_]; [|discriminate].
      now intros [= <-].
  - intros key l. simpl. destruct (String.eqb key "x"); [|discriminate].
    intros [= <-]. lia.
  - reflexivity.
Defined.

(** * The member mappings a chain of calls changes *)

Lemma findMember_holds (members : loc -> MemberMapping) (d : list (string * loc))
  (name : option string) (e : loc) :
  createMapForMemberFindMember members d name = Some e -> holds d e.
Proof.
  induction d as [|[k l] d IH]; simpl; [discriminate|].
  destruct (sameName (destinationProperty (members l)) name).
  - intros [= <-]. exists k. now left.
  - intros H. destruct (IH H) as [key Hin]. exists key. now right.
Qed.

Lemma dict_set_holds (k : string) (v l : loc) (d : list (string * loc)) :
  holds (dict_set k v d) l -> l = v \/ holds d l.
Proof.
  induction d as [|[k' v'] d IH]; simpl.
  - intros [key [[= _ <-]|[]]]. now left.
  - destruct (String.eqb k k'); intros [key [H|H]].
    + injection H as _ <-. now left.
    + right. exists key. now right.
    + right. exists key. now left.
    + destruct (IH (ex_intro _ key H)) as [->|[key' Hin]]; [now left|].
      right. exists key'. now right.
Qed.

Lemma dict_delete_holds (k : string) (l : loc) (d : list (string * loc)) :
  holds (dict_delete k d) l -> holds d l.
Proof.
  induction d as [|[k' v'] d IH]; simpl; [auto|].
  destruct (String.eqb k k'); intros [key H].
  - destruct (IH (ex_intro _ key H)) as [key' Hin]. exists key'. now right.
  - destruct H as [H|H]; [exists key; now left|].
    destruct (IH (ex_intro _ key H)) as [key' Hin]. exists key'. now right.
Qed.

Lemma membersWithin_refl (target : loc) (st : State) : membersWithin target st st.
Proof. split; [lia|]. split; [intros l _ _; reflexivity|auto]. Qed.

(** What is not changed up to a state, nor from there on, is not changed. *)
Lemma membersWithin_then (target : loc) (st1 st2 st3 : State) :
  membersWithin target st1 st2 -> onlyItsMembers target st2 st3 ->
  onlyItsMembers target st1 st3.
Proof.
  intros (Hn & Hm & Hd) H23 l Hl Hout.
  rewrite H23; [now apply Hm|lia|].
  intros Hin. destruct (Hd l Hin) as [H|H]; [contradiction|lia].
Qed.

Lemma sameMembers_onlyItsMembers (target : loc) (st st' : State) :
  sameMembers st st' -> onlyItsMembers target st st'.
Proof. intros [Hm _] l _ _. now rewrite Hm. Qed.

Lemma createMapForMember_run (st : State) (mapping : loc) (destinationProperty : string)
  (valueOrFunction : ValueOrFunction) :
  createMapForMember mapping destinationProperty valueOrFunction st
  = match createMapForMemberFindMember (memberStore st)
            (forMemberMappings (mappingStore st mapping)) (Some destinationProperty) with
    | Some q =>
        if ignore (memberStore st q) then (Ok mapping, st)
        else createMapForMemberConfigure mapping valueOrFunction q
               (Some (sourceProperty (memberStore st q))) st
    | None =>
        createMapForMemberConfigure mapping valueOrFunction (nextMember st) None
          (snd (allocMember (newMemberMapping destinationProperty) st))
    end.
Proof.
  unfold createMapForMember. unfold mbind at 1. unfold M_bind, bind, gets, id.
  destruct (createMapForMemberFindMember _ _ _) as [q|]; [|reflexivity].
  now destruct (ignore (memberStore st q)).
Qed.

(** Once the member mapping [q] is found or created, [forMember] changes
    no other member mapping, and adds no other to the dictionary. *)
Lemma createMapForMemberConfigure_within (mapping q : loc)
  (valueOrFunction : ValueOrFunction) (original : option string) (st : State) :
  let st' := snd (createMapForMemberConfigure mapping valueOrFunction q original st) in
  nextMember st' = nextMember st
  /\ (forall l, l <> q -> memberStore st' l = memberStore st l)
  /\ (forall l, holds (forMemberMappings (mappingStore st' mapping)) l ->
                l = q \/ holds (forMemberMappings (mappingStore st mapping)) l).
Proof.
  destruct (createMapForMemberConfigure_run mapping q valueOrFunction original st)
    as (st1 & (Hm & Hs & Hn) & Hrun).
  rewrite Hrun. cbn [snd]. cbv zeta. rewrite Hs.
  assert (Hset : forall d,
            (forall l, holds d l -> holds (forMemberMappings (mappingStore st mapping)) l) ->
            let st' := storeMapping mapping
                         (withMembers (dict_set (sourceProperty (memberStore st1 q)) q d)
                            (mappingStore st mapping)) st1 in
            nextMember st' = nextMember st
            /\ (forall l, l <> q -> memberStore st' l = memberStore st l)
            /\ (forall l, holds (forMemberMappings (mappingStore st' mapping)) l ->
                          l = q \/ holds (forMemberMappings (mappingStore st mapping)) l)).
  { intros d Hd st'. subst st'. cbn [nextMember memberStore mappingStore storeMapping].
    rewrite update_eq. cbn [forMemberMappings withMembers].
    split; [exact Hn|]. split; [exact Hm|].
    intros l Hl. apply dict_set_holds in Hl as [->|Hl]; [now left|right; now apply Hd]. }
  assert (Hsame : nextMember st1 = nextMember st
            /\ (forall l, l <> q -> memberStore st1 l = memberStore st l)
            /\ (forall l, holds (forMemberMappings (mappingStore st1 mapping)) l ->
                          l = q \/ holds (forMemberMappings (mappingStore st mapping)) l)).
  { split; [exact Hn|]. split; [exact Hm|]. intros l Hl. right. now rewrite Hs in Hl. }
  destruct original as [[|c o]|].
  - apply Hset. auto.
  - destruct (negb (String.eqb (String c o) (sourceProperty (memberStore st1 q)))).
    + apply Hset. intros l Hl. now apply dict_delete_holds in Hl.
    + exact Hsame.
  - apply Hset. auto.
Qed.

Lemma createMapForMember_within (st : State) (mapping : loc) (destinationProperty : string)
  (valueOrFunction : ValueOrFunction) :
  membersWithin mapping st
    (snd (createMapForMember mapping destinationProperty valueOrFunction st)).
Proof.
  rewrite createMapForMember_run.
  destruct (createMapForMemberFindMember (memberStore st)
              (forMemberMappings (mappingStore st mapping)) (Some destinationProperty))
    as [q|] eqn:Efound.
  - destruct (ignore (memberStore st q)); [apply membersWithin_refl|].
    apply findMember_holds in Efound.
    destruct (createMapForMemberConfigure_within mapping q valueOrFunction
                (Some (sourceProperty (memberStore st q))) st) as (Hn & Hm & Hd).
    split; [lia|]. split.
    + intros l _ Hout. apply Hm. intros ->. contradiction.
    + intros l Hl. left. destruct (Hd l Hl) as [->|H]; assumption.
  - set (st0 := snd (allocMember (newMemberMapping destinationProperty) st)).
    destruct (createMapForMemberConfigure_within mapping (nextMember st) valueOrFunction
                None st0) as (Hn & Hm & Hd).
    change (nextMember st0) with (S (nextMember st)) in Hn.
    change (mappingStore st0) with (mappingStore st) in Hd.
    split; [lia|]. split.
    + intros l Hl _. rewrite Hm by lia. apply update_ne. lia.
    + intros l Hl. destruct (Hd l Hl) as [->|H]; [right; lia|now left].
Qed.

Lemma createMapForSourceMember_within (st : State) (mapping : loc) (sourceProperty : string)
  (sourceMemberConfigFunction : ValueOrFunction) :
  membersWithin mapping st
    (snd (createMapForSourceMember mapping sourceProperty sourceMemberConfigFunction st)).
Proof.
  unfold createMapForSourceMember.
  destruct sourceMemberConfigFunction as [v|f]; [apply membersWithin_refl|].
  destruct (functionApply f sourceMemberOptions) as [optionCalls completion].
  unfold mbind, M_bind, bind, modify.
  assert (Hrecord : membersWithin mapping st
                      (record [SourceConfigured f sourceMemberOptions] st))
    by (split; [cbn; lia|]; split; [intros l _ _; reflexivity|auto]).
  destruct (forEach_ignore_only optionCalls (record [SourceConfigured f sourceMemberOptions] st))
    as [-> | ->]; [|exact Hrecord].
  destruct completion as [returned|e]; [|exact Hrecord].
  cbn [complete ret gets id].
  set (st1 := record [SourceConfigured f sourceMemberOptions] st).
  change (forMemberMappings (mappingStore st1 mapping))
    with (forMemberMappings (mappingStore st mapping)).
  destruct (dict_get sourceProperty (forMemberMappings (mappingStore st mapping)))
    as [q|] eqn:E.
  - apply dict_get_entry in E.
    assert (Hq : holds (forMemberMappings (mappingStore st mapping)) q)
      by (now exists sourceProperty).
    destruct (existsb isIgnore optionCalls); unfold mutateMember, modify, ret;
      cbn [fst snd]; (split; [cbn; lia|]); (split; [|auto]);
      intros l _ Hout; cbn [memberStore storeMember]; apply update_ne;
      intros ->; contradiction.
  - unfold alloc, mutateMapping, modify, ret. cbn [allocMember fst snd].
    split; [cbn; lia|]. split.
    + intros l Hl _. cbn [memberStore storeMapping]. apply update_ne. cbn in Hl |- *. lia.
    + intros l Hl. cbn [mappingStore storeMapping] in Hl. rewrite update_eq in Hl.
      cbn [forMemberMappings withMembers] in Hl.
      apply dict_set_holds in Hl as [->|Hl]; [right; cbn; lia|now left].
Qed.

(** A change of the mapping object that keeps its dictionary. *)
Lemma mutateMapping_within (st : State) (mapping : loc) (f : Mapping -> Mapping) :
  (forall m, forMemberMappings (f m) = forMemberMappings m) ->
  membersWithin mapping st (storeMapping mapping (f (mappingStore st mapping)) st).
Proof.
  intros Hf. split; [cbn; lia|]. split; [intros l _ _; reflexivity|].
  intros l Hl. left. cbn [mappingStore storeMapping] in Hl.
  now rewrite update_eq, Hf in Hl.
Qed.

Lemma sameMembers_createMapConvertUsing (mapping : loc) (source : ConverterSource) :
  relates sameMembers (createMapConvertUsing mapping source).
Proof.
  apply (relates_createMapConvertUsing sameMembers) with (touched := fun _ => True).
  - now split.
  - intros st1 st2 st3 [Hm12 Hn12] [Hm23 Hn23]. split; congruence.
  - intros l f st0 _ _. now split.
  - exact I.
Qed.

Lemma sameMembers_createMapWithProfile (mapping : loc) (profileName : string) :
  relates sameMembers (createMapWithProfile mapping profileName).
Proof.
  apply (relates_createMapWithProfile sameMembers) with (touched := fun _ => True).
  - now split.
  - intros st1 st2 st3 [Hm12 Hn12] [Hm23 Hn23]. split; congruence.
  - intros l f st0 _ _. now split.
  - exact I.
Qed.

Lemma chain_onlyItsMembers (mapping : loc) (calls : list ChainCall) :
  forall st, onlyItsMembers mapping st (snd (chain mapping calls st)).
Proof.
  induction calls as [|call rest IH]; intros st; [intros l _ _; reflexivity|].
  assert (Hstep : forall c : M loc,
            returns (eq mapping) c ->
            membersWithin mapping st (snd (c st)) ->
            onlyItsMembers mapping st (snd ((h ← c; chain h rest) st))).
  { intros c Hreturns Hwithin. unfold mbind, M_bind, bind.
    pose proof (Hreturns st) as Hh.
    destruct (c st) as [[h|e] st1]; cbn [fst snd] in *.
    - rewrite <- (Hh h eq_refl). apply (membersWithin_then mapping st st1); [exact Hwithin|].
      apply IH.
    - apply Hwithin. }
  assert (Hlast : forall c : M unit,
            relates sameMembers c ->
            onlyItsMembers mapping st
              (snd ((c;; match rest with [] => ret tt | _ :: _ => throw TypeError end) st))).
  { intros c Hsame. apply sameMembers_onlyItsMembers.
    pose proof (Hsame st) as H. unfold mbind, M_bind, bind.
    destruct (c st) as [[[]|e] st1]; cbn [snd] in *; [|exact H].
    now destruct rest. }
  destruct call as [d v|s f|func|c|c|name]; cbn [chain].
  - apply Hstep; [apply createMapForMember_returns|apply createMapForMember_within].
  - apply Hstep; [apply createMapForSourceMember_returns|apply createMapForSourceMember_within].
  - apply Hstep; [intros st0 a [= <-]; reflexivity|].
    apply (mutateMapping_within st mapping
             (fun m => withHandlers (forAllMemberMappings m ++ [func]) m)).
    reflexivity.
  - apply Hstep; [intros st0 a [= <-]; reflexivity|].
    apply (mutateMapping_within st mapping (withTypeClass (Some c))). reflexivity.
  - apply Hlast, sameMembers_createMapConvertUsing.
  - apply Hlast, sameMembers_createMapWithProfile.
Qed.

(** X9: the calls chained on a handle change the definition of that handle
    only.  The registry, the profiles and every other mapping object are left
    as they are, and so is every member mapping there was that the
    definition did not hold when the chain started, whether the chain
    completes or raises.  The member mappings the definition holds may
    change, and another definition that holds one of them (after
    [withProfile], the staged definition and the live one hold the same
    objects) changes with it.  Stated for chains whose [forSourceMember]
    calls are given names that are not those of members of
    [Object.prototype]: for such a name [forSourceMember] finds that member
    in the place of a member mapping and writes on it. *)
Theorem chain_changes_its_definition_only (st : State) (mapping : loc)
  (calls : list ChainCall) :
  forallb readsOwnMember calls = true ->
  onlyDefinition mapping st (snd (chain mapping calls st))
  /\ onlyItsMembers mapping st (snd (chain mapping calls st)).
Proof.
  intros _. split; [apply chain_onlyDefinition|apply chain_onlyItsMembers].
Qed.

Lemma chain_changes_its_definition_only_witness :
  let st := after renamingDeclared in
  let calls := [ForMember "x" (Literal (VNum 1)); ForSourceMember "p" (Function ignoreFunction);
                WithProfile "R"] in
  fst (chain 1 calls st) = Ok tt
  /\ onlyDefinition 1 st (snd (chain 1 calls st))
  /\ memberStore (snd (chain 1 calls st)) 0 = memberStore st 0.
Proof.
  intros st calls.
  destruct (chain_changes_its_definition_only st 1 calls eq_refl) as [Hd Hm].
  split; [vm_compute; reflexivity|]. split; [exact Hd|].
  apply Hm.
  - vm_compute. lia.
  - assert (Hdict : forMemberMappings (mappingStore st 1) = [("a", 1)])
      by (vm_compute; reflexivity).
    rewrite Hdict. intros [key [H|[]]]. discriminate.
Defined.

(** * The built-in naming conventions on names of letters and digits *)

(** ** Character classes *)

Ltac classes :=
  unfold alphanumericChar, lowerOrDigit, RegExp.lower, RegExp.upper, RegExp.digit, RegExp.between in *;
  repeat match goal with
         | |- context [nat_of_ascii (Ascii ?a ?b ?c ?d ?e ?f ?g ?h)] =>
             let n := eval vm_compute in (nat_of_ascii (Ascii a b c d e f g h)) in
             change (nat_of_ascii (Ascii a b c d e f g h)) with n
         | H : context [nat_of_ascii (Ascii ?a ?b ?c ?d ?e ?f ?g ?h)] |- _ =>
             let n := eval vm_compute in (nat_of_ascii (Ascii a b c d e f g h)) in
             change (nat_of_ascii (Ascii a b c d e f g h)) with n in H
         end;
  repeat match goal with
         | |- context [(?x <=? ?y)%nat] => destruct (Nat.leb_spec x y)
         | H : context [(?x <=? ?y)%nat] |- _ => destruct (Nat.leb_spec x y)
         end;
  simpl in *; try congruence; try lia.

Lemma upper_not_lower (a : ascii) : upper a = true -> lower a = false.
Proof. classes. Qed.

Lemma upper_not_lowerOrDigit (a : ascii) : upper a = true -> lowerOrDigit a = false.
Proof. classes. Qed.

Lemma not_lowerOrDigit_not_lower (a : ascii) : lowerOrDigit a = false -> lower a = false.
Proof. classes. Qed.

Lemma lower_lowerOrDigit (a : ascii) : lower a = true -> lowerOrDigit a = true.
Proof. classes. Qed.

Lemma alphanumericChar_cases (a : ascii) :
  alphanumericChar a = true -> lowerOrDigit a = true \/ upper a = true.
Proof. classes; auto. Qed.

(** ** The matcher *)

(** A greedy run that matches has taken one character or more, and the
    continuation accepted what follows. *)
Lemma greedy_some (c : ascii -> bool) (k : nat -> list ascii -> option nat) :
  forall rest i e,
    greedy c i rest k = Some e ->
    exists n, 0 < n <= length rest /\ k (i + n) (drop n rest) = Some e.
Proof.
  induction rest as [|a rest IH]; intros i e H; [discriminate|].
  cbn [greedy] in H. destruct (c a); [|discriminate].
  destruct (greedy c (S i) rest k) as [e'|] eqn:E.
  - injection H as ->. destruct (IH _ _ E) as (n & Hn & Hk).
    exists (S n). cbn [length drop]. split; [lia|].
    now replace (i + S n) with (S i + n) by lia.
  - exists 1. cbn [length drop]. split; [lia|].
    now replace (i + 1) with (S i) by lia.
Qed.

(** With nothing to follow, it takes the whole run: what comes next is not
    of the class. *)
Lemma greedy_last (c : ascii -> bool) :
  forall rest i e,
    greedy c i rest (fun j _ => Some j) = Some e ->
    exists n, e = i + n /\ 0 < n <= length rest
              /\ match drop n rest with [] => True | a :: _ => c a = false end.
Proof.
  induction rest as [|a rest IH]; intros i e H; [discriminate|].
  cbn [greedy] in H. destruct (c a) eqn:Ea; [|discriminate].
  destruct (greedy c (S i) rest (fun j _ => Some j)) as [e'|] eqn:E.
  - injection H as ->. destruct (IH _ _ E) as (n & -> & Hn & Hnext).
    exists (S n). cbn [length drop]. repeat split; try lia. exact Hnext.
  - injection H as <-. exists 1. cbn [length drop]. repeat split; try lia.
    destruct rest as [|b rest']; [exact I|]. rewrite drop_0.
    cbn [greedy] in E. destruct (c b); [|reflexivity].
    destruct (greedy c (S (S i)) rest' _); discriminate.
Qed.

Lemma greedy_starts (c : ascii -> bool) (a : ascii) (rest : list ascii) (i : nat) :
  c a = true -> greedy c i (a :: rest) (fun j _ => Some j) <> None.
Proof.
  intros Ha. cbn [greedy]. rewrite Ha.
  now destruct (greedy c (S i) rest _).
Qed.

Section Expression.

(** The two splitting expressions differ in the class of the run after
    [^] only. *)
Variable c1 : ascii -> bool.

Local Abbreviation ahead := (Alt Eol (Seq (Cls upper) (PlusC lowerOrDigit))).
Local Abbreviation anchored := (Seq Bol (Seq (PlusC c1) (Look ahead))).
Local Abbreviation word := (Seq (Opt (Cls upper)) (PlusC lowerOrDigit)).
Local Abbreviation expression := (Alt anchored word).

Lemma anchored_some (q : nat) (rest : list ascii) (e : nat) :
  rmatch anchored q rest (fun j _ => Some j) = Some e ->
  exists n, e = q + n /\ 0 < n <= length rest /\ notLowerAhead (drop n rest).
Proof.
  cbn [rmatch]. destruct (q =? 0)%nat; [|discriminate]. intros H.
  apply greedy_some in H. destruct H as (n & Hn & H). exists n.
  destruct (drop n rest) as [|a rest'] eqn:Ed; cbv beta iota in H.
  - injection H as <-. repeat split; lia.
  - destruct (upper a) eqn:Ea; [|discriminate].
    destruct (greedy lowerOrDigit _ _ _); [|discriminate].
    injection H as <-. repeat split; try lia. now apply upper_not_lower.
Qed.

Lemma word_some (q : nat) (rest : list ascii) (e : nat) :
  rmatch word q rest (fun j _ => Some j) = Some e ->
  exists n, e = q + n /\ 0 < n <= length rest /\ notLowerAhead (drop n rest).
Proof.
  cbn [rmatch]. intros H.
  assert (Hrun : forall i l e',
            greedy lowerOrDigit i l (fun j _ => Some j) = Some e' ->
            exists n, e' = i + n /\ 0 < n <= length l /\ notLowerAhead (drop n l)).
  { intros i l e' Hg. destruct (greedy_last _ _ _ _ Hg) as (n & -> & Hn & Hnext).
    exists n. repeat split; try lia. unfold notLowerAhead.
    destruct (drop n l); [exact I|now apply not_lowerOrDigit_not_lower]. }
  destruct rest as [|a rest]; [discriminate|].
  destruct (upper a) eqn:Ea.
  - destruct (greedy lowerOrDigit (S q) rest _) as [e'|] eqn:E.
    + injection H as <-. destruct (Hrun _ _ _ E) as (n & -> & Hn & Hnext).
      exists (S n). cbn [length drop]. repeat split; try lia. exact Hnext.
    + cbn [greedy] in H. now rewrite (upper_not_lowerOrDigit _ Ea) in H.
  - now apply Hrun.
Qed.

(** SplitMatch with one of the two expressions: a match is not empty,
    stays within the subject, and ends where no lower-case letter
    follows. *)
Lemma splitMatch_some (subject : list ascii) (q e : nat) :
  splitMatch expression subject q = Some e ->
  q < e <= length subject /\ notLowerAhead (drop e subject).
Proof.
  unfold splitMatch. intros H.
  assert (Hq : q <= length subject \/ length subject < q) by lia.
  destruct Hq as [Hq|Hq].
  2: { rewrite drop_ge in H by lia. cbn in H. destruct (q =? 0)%nat; discriminate. }
  assert (H' : exists n, e = q + n /\ 0 < n <= length (drop q subject)
                         /\ notLowerAhead (drop n (drop q subject))).
  { change (match rmatch anchored q (drop q subject) (fun j _ => Some j) with
            | Some e => Some e
            | None => rmatch word q (drop q subject) (fun j _ => Some j)
            end = Some e) in H.
    destruct (rmatch anchored q (drop q subject) _) as [e'|] eqn:E.
    - injection H as ->. now apply anchored_some.
    - now apply word_some. }
  destruct H' as (n & -> & Hn & Hnext). rewrite length_drop in Hn.
  rewrite drop_drop in Hnext. split; [lia|exact Hnext].
Qed.

(** Where a letter or digit is followed by a lower-case letter, there is
    a match. *)
Lemma splitMatch_before_lower (subject : list ascii) (q : nat) (a b : ascii)
  (rest : list ascii) :
  drop q subject = a :: b :: rest ->
  alphanumericChar a = true ->
  lower b = true ->
  splitMatch expression subject q <> None.
Proof.
  intros Hd Ha Hb. unfold splitMatch. rewrite Hd.
  change (match rmatch anchored q (a :: b :: rest) (fun j _ => Some j) with
          | Some e => Some e
          | None => rmatch word q (a :: b :: rest) (fun j _ => Some j)
          end <> None).
  destruct (rmatch anchored q _ _); [discriminate|].
  cbn [rmatch]. apply lower_lowerOrDigit in Hb.
  destruct (alphanumericChar_cases a Ha) as [Hl|Hu].
  - destruct (upper a).
    + destruct (greedy lowerOrDigit (S q) (b :: rest) _) eqn:E; [discriminate|].
      now apply greedy_starts.
    + now apply greedy_starts.
  - rewrite Hu.
    destruct (greedy lowerOrDigit (S q) (b :: rest) _) eqn:E; [discriminate|].
    exfalso. revert E. now apply greedy_starts.
Qed.

End Expression.

(** ** Strings and pieces of the subject *)

Lemma string_of_list_ascii_app (a b : list ascii) :
  string_of_list_ascii (a ++ b) = string_of_list_ascii a +:+ string_of_list_ascii b.
Proof.
  induction a as [|x a IH]; [reflexivity|].
  change (String x (string_of_list_ascii (a ++ b))
          = String x (string_of_list_ascii a +:+ string_of_list_ascii b)).
  now rewrite IH.
Qed.

Lemma string_append_empty_r (a : string) : a +:+ "" = a.
Proof.
  induction a as [|x a IH]; [reflexivity|].
  change (String x (a +:+ "") = String x a). now rewrite IH.
Qed.

Lemma substring_app (subject : list ascii) (p q e : nat) :
  p <= q <= e ->
  RegExp.substring subject p e = RegExp.substring subject p q +:+ RegExp.substring subject q e.
Proof.
  intros H. unfold RegExp.substring. rewrite <- string_of_list_ascii_app. f_equal.
  replace (e - p) with ((q - p) + (e - q)) by lia.
  rewrite <- take_take_drop. f_equal. rewrite drop_drop. f_equal. f_equal. lia.
Qed.

Lemma substring_nil (subject : list ascii) (p : nat) : RegExp.substring subject p p = "".
Proof. unfold RegExp.substring. now rewrite Nat.sub_diag. Qed.

Lemma substring_nonEmpty (subject : list ascii) (p q : nat) :
  p < q <= length subject -> nonEmpty (RegExp.substring subject p q) = true.
Proof.
  intros H. unfold RegExp.substring.
  destruct (drop p subject) as [|a rest] eqn:E.
  - apply (f_equal length) in E. rewrite length_drop in E. simpl in E. lia.
  - destruct (q - p) as [|n] eqn:En; [lia|]. reflexivity.
Qed.

Lemma capitalize_substring (subject : list ascii) (q e : nat) :
  notLowerAhead (drop q subject) ->
  capitalize (RegExp.substring subject q e) = RegExp.substring subject q e.
Proof.
  unfold RegExp.substring, notLowerAhead.
  destruct (drop q subject) as [|a rest]; intros H.
  - now rewrite take_nil.
  - destruct (e - q); [reflexivity|]. cbn [take string_of_list_ascii capitalize].
    unfold toUpperCase. now rewrite H.
Qed.

Lemma capitalize_app (x y : string) :
  nonEmpty x = true -> capitalize (x +:+ y) = capitalize x +:+ y.
Proof. destruct x; [discriminate|reflexivity]. Qed.

Lemma uncapitalize_app (x y : string) :
  nonEmpty x = true -> uncapitalize (x +:+ y) = uncapitalize x +:+ y.
Proof. destruct x; [discriminate|reflexivity]. Qed.

(** ** The loop of [split] followed by the transformation *)

Section Transform.

Variable c1 : ascii -> bool.

Local Abbreviation expression :=
  (Alt (Seq Bol (Seq (PlusC c1)
                   (Look (Alt Eol (Seq (Cls upper) (PlusC lowerOrDigit))))))
       (Seq (Opt (Cls upper)) (PlusC lowerOrDigit))).

Variable subject : list ascii.
Hypothesis letters_and_digits : forallb alphanumericChar subject = true.

(** What the loop of the camelCase convention does to the part at
    [index]; the loop of the PascalCase convention is this loop from
    index 1. *)
Local Abbreviation transformed index part :=
  (if (index =? 0)%nat then uncapitalize part else capitalize part).

Lemma transformed_app (index : nat) (x y : string) :
  nonEmpty x = true -> transformed index (x +:+ y) = transformed index x +:+ y.
Proof.
  intros H. destruct (index =? 0)%nat; [now apply uncapitalize_app|now apply capitalize_app].
Qed.

Lemma camelCaseLoop_last (index : nat) (part acc : string) :
  camelCaseLoop index (List.filter nonEmpty [part]) acc = acc +:+ transformed index part.
Proof.
  cbn [List.filter]. destruct (nonEmpty part) eqn:E; [reflexivity|].
  destruct part; [|discriminate]. cbn [camelCaseLoop].
  destruct (index =? 0)%nat; cbn; now rewrite string_append_empty_r.
Qed.

(** A position after one or more characters of the current piece where no
    match was found just before: no lower-case letter follows. *)
Lemma notLowerAhead_after_piece (q : nat) :
  0 < q < length subject ->
  splitMatch expression subject (q - 1) = None ->
  notLowerAhead (drop q subject).
Proof.
  intros Hq Hnone.
  destruct (lookup_lt_is_Some_2 subject (q - 1) ltac:(lia)) as [a Ha].
  destruct (lookup_lt_is_Some_2 subject q ltac:(lia)) as [b Hb].
  pose proof (drop_S _ _ _ Ha) as Hda. replace (S (q - 1)) with q in Hda by lia.
  pose proof (drop_S _ _ _ Hb) as Hdb. rewrite Hdb in Hda |- *.
  unfold notLowerAhead. destruct (lower b) eqn:Elower; [|reflexivity].
  exfalso. apply (splitMatch_before_lower c1 subject (q - 1) a b _ Hda); [|exact Elower|exact Hnone].
  rewrite forallb_forall in letters_and_digits. apply letters_and_digits.
  apply list_elem_of_In. now apply list_elem_of_lookup_2 in Ha.
Qed.

(** The parts the loop of [split] gives from the piece that starts at
    [p], with the empty ones removed and the transformation applied, are
    the rest of the subject from [p] with its first letter changed. *)
Lemma splitLoop_transformed (fuel : nat) :
  forall p q index acc,
    p <= q ->
    (p < q -> splitMatch expression subject (q - 1) = None) ->
    camelCaseLoop index (List.filter nonEmpty (splitLoop fuel expression subject p q)) acc
    = acc +:+ transformed index (RegExp.substring subject p (length subject)).
Proof.
  induction fuel as [|fuel IH]; intros p q index acc Hpq Hnone.
  - apply camelCaseLoop_last.
  - cbn [splitLoop]. destruct (Nat.leb_spec (length subject) q) as [Hend|Hq].
    { apply camelCaseLoop_last. }
    destruct (splitMatch expression subject q) as [e|] eqn:E.
    2: { apply IH; [lia|]. intros _. now replace (S q - 1) with q by lia. }
    destruct (splitMatch_some c1 subject q e E) as [He Hahead].
    destruct (Nat.eqb_spec e p) as [->|_]; [lia|].
    cbn [List.filter]. rewrite (substring_nonEmpty subject q e) by lia.
    assert (Hrest : forall index' acc',
              camelCaseLoop (S index')
                (List.filter nonEmpty (splitLoop fuel expression subject e e)) acc'
              = acc' +:+ RegExp.substring subject e (length subject)).
    { intros index' acc'. rewrite IH by lia. cbn [Nat.eqb].
      now rewrite capitalize_substring. }
    destruct (Nat.eq_dec p q) as [<-|Hne].
    + rewrite substring_nil. cbn [nonEmpty String.eqb negb camelCaseLoop].
      rewrite Hrest, string_append_assoc, <- transformed_app
        by (apply substring_nonEmpty; lia).
      now rewrite <- substring_app by lia.
    + rewrite (substring_nonEmpty subject p q) by lia.
      cbn [camelCaseLoop Nat.eqb]. rewrite Hrest.
      rewrite (capitalize_substring subject q e)
        by (apply notLowerAhead_after_piece; [lia|apply Hnone; lia]).
      rewrite !string_append_assoc, <- transformed_app
        by (apply substring_nonEmpty; lia).
      rewrite <- (substring_app subject q e (length subject)) by lia.
      now rewrite <- substring_app by lia.
Qed.

End Transform.

Lemma pascalCaseLoop_camelCaseLoop (parts : list string) :
  forall index acc, pascalCaseLoop parts acc = camelCaseLoop (S index) parts acc.
Proof.
  induction parts as [|part parts IH]; intros index acc; [reflexivity|].
  cbn [pascalCaseLoop camelCaseLoop Nat.eqb]. apply IH.
Qed.

(** [split] with one of the two expressions, the removal of the empty
    parts and the loop of a convention, on a name of letters and digits. *)
Lemma split_transformed (c1 : ascii -> bool) (name : string) (index : nat) :
  alphanumeric name = true ->
  camelCaseLoop index
    (List.filter nonEmpty
       (RegExp.split name
          (Alt (Seq Bol (Seq (PlusC c1)
                           (Look (Alt Eol (Seq (Cls upper) (PlusC lowerOrDigit))))))
               (Seq (Opt (Cls upper)) (PlusC lowerOrDigit))))) ""
  = if (index =? 0)%nat then uncapitalize name else capitalize name.
Proof.
  intros Hname. unfold alphanumeric in Hname. unfold RegExp.split. cbv zeta.
  remember (list_ascii_of_string name) as subject eqn:Es.
  assert (Hn : name = string_of_list_ascii subject).
  { subst subject. symmetry. apply string_of_list_ascii_of_string. }
  clear Es. subst name. destruct subject as [|a rest].
  - destruct (splitMatch _ [] 0); destruct (index =? 0)%nat; reflexivity.
  - rewrite (splitLoop_transformed c1 (a :: rest) Hname) by lia.
    unfold RegExp.substring. rewrite Nat.sub_0_r, drop_0, firstn_all. reflexivity.
Qed.

(** ** The two built-in profiles *)

(** X22: under the profile from camelCase to PascalCase, a member whose
    name is made of letters and digits only is automapped to that name
    with its first letter in upper case, whatever the name: the words the
    expression finds each start with a capital letter or a digit already. *)
Theorem camelCase_to_PascalCase_capitalizes (name : string) :
  alphanumeric name = true ->
  mapGetDestinationPropertyName CamelCaseToPascalCase name = Ok (capitalize name).
Proof.
  intros Hname.
  rewrite (mapGetDestinationPropertyName_transformed CamelCaseToPascalCase _
             CamelCaseNamingConvention PascalCaseNamingConvention eq_refl eq_refl).
  cbn [transformPropertyName PascalCaseNamingConvention splittingExpression
         CamelCaseNamingConvention].
  rewrite (pascalCaseLoop_camelCaseLoop _ 0).
  unfold camelCaseExpression. now rewrite (split_transformed lower name 1 Hname).
Qed.

Lemma camelCase_to_PascalCase_capitalizes_witness :
  mapGetDestinationPropertyName CamelCaseToPascalCase "html5ParserV2" = Ok "Html5ParserV2".
Proof.
  apply (camelCase_to_PascalCase_capitalizes "html5ParserV2"). reflexivity.
Defined.

(** X23: under the profile from PascalCase to camelCase, a member whose
    name is made of letters and digits only is automapped to that name
    with its first letter in lower case. *)
Theorem PascalCase_to_camelCase_uncapitalizes (name : string) :
  alphanumeric name = true ->
  mapGetDestinationPropertyName PascalCaseToCamelCase name = Ok (uncapitalize name).
Proof.
  intros Hname.
  rewrite (mapGetDestinationPropertyName_transformed PascalCaseToCamelCase _
             PascalCaseNamingConvention CamelCaseNamingConvention eq_refl eq_refl).
  cbn [transformPropertyName PascalCaseNamingConvention splittingExpression
         CamelCaseNamingConvention].
  unfold pascalCaseExpression. now rewrite (split_transformed upper name 0 Hname).
Qed.

Lemma PascalCase_to_camelCase_uncapitalizes_witness :
  mapGetDestinationPropertyName PascalCaseToCamelCase "HTMLParser" = Ok "hTMLParser".
Proof.
  apply (PascalCase_to_camelCase_uncapitalizes "HTMLParser"). reflexivity.
Defined.

Lemma toLowerCase_toUpperCase (c : ascii) : toLowerCase (toUpperCase c) = toLowerCase c.
Proof. destruct c as [[] [] [] [] [] [] [] []]; reflexivity. Qed.

Lemma toUpperCase_toLowerCase (c : ascii) : toUpperCase (toLowerCase c) = toUpperCase c.
Proof. destruct c as [[] [] [] [] [] [] [] []]; reflexivity. Qed.

Lemma alphanumericChar_toUpperCase (c : ascii) :
  alphanumericChar (toUpperCase c) = alphanumericChar c.
Proof. destruct c as [[] [] [] [] [] [] [] []]; reflexivity. Qed.

Lemma alphanumericChar_toLowerCase (c : ascii) :
  alphanumericChar (toLowerCase c) = alphanumericChar c.
Proof. destruct c as [[] [] [] [] [] [] [] []]; reflexivity. Qed.

(** X24: the two profiles undo each other on names of letters and digits:
    a name that does not start with a capital letter is given back by the
    conversion to PascalCase followed by the conversion to camelCase, and
    a name that does not start with a lower-case letter by the conversion
    to camelCase followed by the conversion to PascalCase. *)
Theorem conventions_round_trip (name : string) :
  alphanumeric name = true ->
  (uncapitalize name = name ->
   exists pascal,
     mapGetDestinationPropertyName CamelCaseToPascalCase name = Ok pascal
     /\ mapGetDestinationPropertyName PascalCaseToCamelCase pascal = Ok name)
  /\ (capitalize name = name ->
      exists camel,
        mapGetDestinationPropertyName PascalCaseToCamelCase name = Ok camel
        /\ mapGetDestinationPropertyName CamelCaseToPascalCase camel = Ok name).
Proof.
  intros Hname. split; intros Hfirst.
  - exists (capitalize name). split.
    + rewrite (mapGetDestinationPropertyName_transformed CamelCaseToPascalCase _
                 CamelCaseNamingConvention PascalCaseNamingConvention eq_refl eq_refl).
      cbn [transformPropertyName PascalCaseNamingConvention splittingExpression
             CamelCaseNamingConvention].
      rewrite (pascalCaseLoop_camelCaseLoop _ 0).
      unfold camelCaseExpression. now rewrite (split_transformed lower name 1 Hname).
    + rewrite (mapGetDestinationPropertyName_transformed PascalCaseToCamelCase _
                 PascalCaseNamingConvention CamelCaseNamingConvention eq_refl eq_refl).
      cbn [transformPropertyName PascalCaseNamingConvention splittingExpression
             CamelCaseNamingConvention].
      unfold pascalCaseExpression. rewrite (split_transformed upper _ 0).
      * cbn [Nat.eqb]. rewrite <- Hfirst at 2. destruct name as [|c rest]; [reflexivity|].
        cbn [capitalize uncapitalize]. now rewrite toLowerCase_toUpperCase.
      * destruct name as [|c rest]; [reflexivity|]. unfold alphanumeric in *.
        cbn [capitalize list_ascii_of_string forallb] in *.
        now rewrite alphanumericChar_toUpperCase.
  - exists (uncapitalize name). split.
    + rewrite (mapGetDestinationPropertyName_transformed PascalCaseToCamelCase _
                 PascalCaseNamingConvention CamelCaseNamingConvention eq_refl eq_refl).
      cbn [transformPropertyName PascalCaseNamingConvention splittingExpression
             CamelCaseNamingConvention].
      unfold pascalCaseExpression. now rewrite (split_transformed upper name 0 Hname).
    + rewrite (mapGetDestinationPropertyName_transformed CamelCaseToPascalCase _
                 CamelCaseNamingConvention PascalCaseNamingConvention eq_refl eq_refl).
      cbn [transformPropertyName PascalCaseNamingConvention splittingExpression
             CamelCaseNamingConvention].
      rewrite (pascalCaseLoop_camelCaseLoop _ 0).
      unfold camelCaseExpression. rewrite (split_transformed lower _ 1).
      * cbn [Nat.eqb]. rewrite <- Hfirst at 2. destruct name as [|c rest]; [reflexivity|].
        cbn [capitalize uncapitalize]. now rewrite toUpperCase_toLowerCase.
      * destruct name as [|c rest]; [reflexivity|]. unfold alphanumeric in *.
        cbn [uncapitalize list_ascii_of_string forallb] in *.
        now rewrite alphanumericChar_toLowerCase.
Qed.

Lemma conventions_round_trip_witness :
  exists pascal,
    mapGetDestinationPropertyName CamelCaseToPascalCase "fullName" = Ok pascal
    /\ mapGetDestinationPropertyName PascalCaseToCamelCase pascal = Ok "fullName".
Proof.
  refine (proj1 (conventions_round_trip "fullName" _) _); reflexivity.
Defined.

(** * The parameter names of a function *)

Example getFunctionParameters_examples :
  getFunctionParameters "function (resolutionContext) { return 1; }" = ["resolutionContext"]
  /\ getFunctionParameters "function (a /* first, */, b // second
  ) { }" = ["a"; "b"]
  /\ getFunctionParameters "function () { }" = []
  /\ getFunctionParameters "function Person() { this.convert = function (ctx) { }; }" = [].
Proof. vm_compute. repeat split. Qed.

Lemma list_ascii_of_string_app (a b : string) :
  list_ascii_of_string (a +:+ b) = list_ascii_of_string a ++ list_ascii_of_string b.
Proof.
  induction a as [|x a IH]; [reflexivity|].
  change (x :: list_ascii_of_string (a +:+ b)
          = x :: (list_ascii_of_string a ++ list_ascii_of_string b)).
  now rewrite IH.
Qed.

(** Nothing is left out of a text before its first slash. *)
Lemma replaceComments_before_slash (a b : list ascii) :
  forallb (fun c => negb (Ascii.eqb c "/")) a = true ->
  replaceComments 0 (a ++ b) = a ++ replaceComments 0 b.
Proof.
  induction a as [|c a IH]; intros H; [reflexivity|].
  cbn [forallb] in H. apply andb_true_iff in H. destruct H as [Hc Ha].
  apply negb_true_iff in Hc.
  assert (Hstrip : stripComments (c :: a ++ b) = None).
  { unfold stripComments. destruct (a ++ b); [reflexivity|]. now rewrite Hc. }
  change (replaceComments 0 ((c :: a) ++ b))
    with (match stripComments (c :: a ++ b) with
          | Some (S skip') => replaceComments skip' (a ++ b)
          | _ => c :: replaceComments 0 (a ++ b)
          end).
  rewrite Hstrip, IH by exact Ha. reflexivity.
Qed.

Lemma indexOf_first (c : ascii) (a rest : list ascii) :
  forallb (fun x => negb (Ascii.eqb x c)) a = true ->
  forall from, indexOf c (a ++ c :: rest) from = Z.of_nat (from + length a).
Proof.
  induction a as [|x a IH]; intros H from.
  - cbn [app indexOf length]. rewrite Ascii.eqb_refl. f_equal. lia.
  - cbn [forallb] in H. apply andb_true_iff in H. destruct H as [Hx Ha].
    apply negb_true_iff in Hx. cbn [app indexOf length]. rewrite Hx.
    rewrite IH by exact Ha. f_equal. lia.
Qed.

(** The part of a text between two positions within it. *)
Lemma slice_middle (a b c : list ascii) :
  slice (a ++ b ++ c) (Z.of_nat (length a)) (Z.of_nat (length a + length b)) = b.
Proof.
  unfold slice. rewrite !length_app.
  destruct (Z.ltb_spec (Z.of_nat (length a)) 0); [lia|].
  destruct (Z.ltb_spec (Z.of_nat (length a + length b)) 0); [lia|].
  rewrite Z.min_l by lia. rewrite Z.min_l by lia. rewrite Nat2Z.id.
  replace (Z.to_nat (Z.max (Z.of_nat (length a + length b) - Z.of_nat (length a)) 0))
    with (length b) by lia.
  rewrite drop_app_length. apply take_app_length.
Qed.

Lemma argumentNames_run (w : list ascii) :
  forallb argumentNameChar w = true ->
  forall current rest,
    argumentNames current (w ++ rest) = argumentNames (current ++ w) rest.
Proof.
  induction w as [|c w IH]; intros H current rest.
  - now rewrite app_nil_r.
  - cbn [forallb] in H. apply andb_true_iff in H. destruct H as [Hc Hw].
    cbn [app argumentNames]. rewrite Hc, IH by exact Hw.
    now rewrite <- app_assoc.
Qed.

Lemma parameterName_chars (name : string) :
  parameterName name = true ->
  name <> ""
  /\ forallb argumentNameChar (list_ascii_of_string name) = true
  /\ forallb (fun c => negb (Ascii.eqb c "/" || Ascii.eqb c "(" || Ascii.eqb c ")"))
       (list_ascii_of_string name) = true.
Proof.
  unfold parameterName. intros H. apply andb_true_iff in H. destruct H as [Hn Hc].
  split; [destruct name; [discriminate|congruence]|].
  rewrite forallb_forall in Hc. split; apply forallb_forall; intros c Hin;
    specialize (Hc c Hin); apply andb_true_iff in Hc; tauto.
Qed.

(** The names joined by a comma and a space are found again. *)
Lemma argumentNames_joined (names : list string) :
  forallb parameterName names = true ->
  argumentNames [] (list_ascii_of_string (String.concat ", " names)) = names.
Proof.
  induction names as [|name names IH]; intros H; [reflexivity|].
  cbn [forallb] in H. apply andb_true_iff in H. destruct H as [Hname Hnames].
  destruct (parameterName_chars name Hname) as (Hne & Hrun & _).
  assert (Hmatched : matched (list_ascii_of_string name) = [name]).
  { destruct name as [|c s]; [congruence|].
    cbn [list_ascii_of_string matched string_of_list_ascii].
    now rewrite string_of_list_ascii_of_string. }
  destruct names as [|next names].
  - cbn [String.concat].
    rewrite <- (app_nil_r (list_ascii_of_string name)), argumentNames_run by exact Hrun.
    exact Hmatched.
  - change (String.concat ", " (name :: next :: names))
      with (name +:+ ", " +:+ String.concat ", " (next :: names)).
    rewrite !list_ascii_of_string_app, argumentNames_run by exact Hrun.
    cbn [app list_ascii_of_string argumentNames]. cbn [argumentNameChar]. cbn.
    rewrite Hmatched. cbn [matched app]. f_equal. now apply IH.
Qed.

Lemma joined_without (names : list string) :
  forallb parameterName names = true ->
  forallb (fun c => negb (Ascii.eqb c "/" || Ascii.eqb c "(" || Ascii.eqb c ")"))
    (list_ascii_of_string (String.concat ", " names)) = true.
Proof.
  induction names as [|name names IH]; intros H; [reflexivity|].
  cbn [forallb] in H. apply andb_true_iff in H. destruct H as [Hname Hnames].
  destruct (parameterName_chars name Hname) as (_ & _ & Hplain).
  destruct names as [|next names]; [exact Hplain|].
  change (String.concat ", " (name :: next :: names))
    with (name +:+ ", " +:+ String.concat ", " (next :: names)).
  rewrite !list_ascii_of_string_app, !forallb_app, Hplain, IH by exact Hnames.
  reflexivity.
Qed.

Lemma forallb_weaken {A : Type} (f g : A -> bool) (l : list A) :
  (forall a, f a = true -> g a = true) -> forallb f l = true -> forallb g l = true.
Proof.
  intros Hfg H. rewrite forallb_forall in *. auto.
Qed.

(** X25: for the text of a function whose parameter list holds names
    separated by a comma and a space and no comment, [getFunctionParameters]
    gives exactly the declared names, in order, whatever the body of the
    function holds (comments and parentheses included) and whatever name
    the function has: the count [convertUsing] compares with one is the
    number of declared parameters. *)
Theorem getFunctionParameters_declared (prefix body : string) (names : list string) :
  beforeParameters prefix = true ->
  forallb parameterName names = true ->
  getFunctionParameters (prefix +:+ "(" +:+ String.concat ", " names +:+ ")" +:+ body)
  = names.
Proof.
  intros Hprefix Hnames. unfold beforeParameters in Hprefix.
  pose proof (joined_without names Hnames) as Hjoined.
  pose proof (argumentNames_joined names Hnames) as Hfound.
  unfold getFunctionParameters. cbv zeta.
  rewrite !list_ascii_of_string_app.
  set (p := list_ascii_of_string prefix) in *.
  set (j := list_ascii_of_string (String.concat ", " names)) in *.
  set (b := list_ascii_of_string body).
  change (list_ascii_of_string "(") with ["("%char].
  change (list_ascii_of_string ")") with [")"%char].
  assert (Hslash : forall l,
            forallb (fun c => negb (Ascii.eqb c "/" || Ascii.eqb c "(" || Ascii.eqb c ")")) l
            = true ->
            forallb (fun c => negb (Ascii.eqb c "/")) l = true
            /\ forallb (fun c => negb (Ascii.eqb c "(")) l = true
            /\ forallb (fun c => negb (Ascii.eqb c ")")) l = true).
  { intros l Hl. repeat split; revert Hl; apply forallb_weaken; intros c Hc;
      apply negb_true_iff in Hc; apply orb_false_iff in Hc; destruct Hc as [Hc H3];
      apply orb_false_iff in Hc; destruct Hc as [H1 H2]; apply negb_true_iff; assumption. }
  destruct (Hslash p Hprefix) as (Hp1 & Hp2 & Hp3).
  destruct (Hslash j Hjoined) as (Hj1 & Hj2 & Hj3).
  replace (p ++ ["("%char] ++ j ++ [")"%char] ++ b)
    with ((p ++ ["("%char] ++ j ++ [")"%char]) ++ b)
    by (now rewrite <- !app_assoc).
  rewrite replaceComments_before_slash
    by (rewrite !forallb_app, Hp1, Hj1; reflexivity).
  set (rest := replaceComments 0 b).
  replace ((p ++ ["("%char] ++ j ++ [")"%char]) ++ rest)
    with (p ++ "("%char :: (j ++ ")"%char :: rest))
    by (now rewrite <- !app_assoc).
  rewrite (indexOf_first "(" p _ Hp2 0).
  replace (p ++ "("%char :: (j ++ ")"%char :: rest))
    with ((p ++ "("%char :: j) ++ ")"%char :: rest)
    by (now rewrite <- !app_assoc).
  rewrite (indexOf_first ")" (p ++ "("%char :: j) rest)
    by (rewrite forallb_app; cbn [forallb]; rewrite Hp3, Hj3; reflexivity).
  replace ((p ++ "("%char :: j) ++ ")"%char :: rest)
    with ((p ++ ["("%char]) ++ j ++ (")"%char :: rest))
    by (now rewrite <- !app_assoc).
  replace (Z.of_nat (0 + length p) + 1)%Z with (Z.of_nat (length (p ++ ["("%char])))
    by (rewrite length_app; cbn [length]; lia).
  replace (Z.of_nat (0 + length (p ++ "("%char :: j)))
    with (Z.of_nat (length (p ++ ["("%char]) + length j))
    by (rewrite !length_app; cbn [length]; lia).
  rewrite slice_middle. exact Hfound.
Qed.

(** The text of [TypeConverter.prototype.convert] has one parameter. *)
Lemma getFunctionParameters_declared_witness :
  getFunctionParameters
    ("function " +:+ "(" +:+ String.concat ", " ["resolutionContext"] +:+ ")"
     +:+ " {
            // NOTE BL Unfortunately, TypeScript/JavaScript do not support abstract base classes.
            //         This is just one way around, please convince me about a better solution.
            throw new Error('The TypeConverter.convert method is abstract. Use a TypeConverter extension class instead.');
        }")
  = ["resolutionContext"].
Proof.
  apply (getFunctionParameters_declared "function "); reflexivity.
Defined.
